(** * The template tree engine of harvest (package [node])

    A shallow embedding of the Go package [node]: the [Node] struct, its
    accessors for names, attributes, content and children, the structural
    operations [Copy], [Union], [Merge], [PreprocessTemplate], [FlatList],
    [SearchChildren], [SearchContent] and [PopChild], and [DecodeHTML].

    Go nodes are heap objects reached through pointers ([*Node]); children
    slices hold pointers, [parent] is a back pointer, and [Union]/[Merge]
    adopt children by reference.  The embedding therefore keeps an explicit
    store: a heap is a list of node records, an address is an index into
    it, a pointer is an optional address ([None] is Go's [nil]).
    Dereferencing [nil] is a panic.  Recursive methods take a fuel
    argument; running out of it is reported separately from a panic. *)

From Stdlib Require Import Ascii String List Arith Lia Bool NArith.
From stdpp Require Import base list strings.
Import ListNotations.
Open Scope string_scope.
Open Scope list_scope.
#[local] Arguments String.append !_ _ / : simpl nomatch.

(** ** Byte strings

    Go's [[]byte] and [string] are both byte sequences; conversions between
    them copy the bytes.  Both are modelled by [string] (a list of 8-bit
    characters). *)

Definition len (s : string) : nat := String.length s.

Definition code (c : ascii) : N := N_of_ascii c.

(** [unicode.IsSpace] on the runes below U+0080. *)
Definition isSpace1 (a : ascii) : bool :=
  let n := code a in
  ((9 <=? n) && (n <=? 13) || (n =? 32))%N.

(** The two-byte UTF-8 encodings of white space: U+0085 and U+00A0. *)
Definition isSpace2 (a b : ascii) : bool :=
  ((code a =? 194) && ((code b =? 133) || (code b =? 160)))%N.

(** The three-byte UTF-8 encodings of white space: U+1680, U+2000..U+200A,
    U+2028, U+2029, U+202F, U+205F and U+3000. *)
Definition isSpace3 (a b c : ascii) : bool :=
  let x := code a in let y := code b in let z := code c in
  ((x =? 225) && (y =? 154) && (z =? 128)
   || (x =? 226) && (y =? 128)
        && ((128 <=? z) && (z <=? 138) || (z =? 168) || (z =? 169) || (z =? 175))
   || (x =? 226) && (y =? 129) && (z =? 159)
   || (x =? 227) && (y =? 128) && (z =? 128))%N.

(** The scan of [bytes.TrimLeftFunc]/[bytes.TrimRightFunc] with
    [unicode.IsSpace]: a rune is decoded at the front of what is left, and
    anything that is not the shortest encoding of a white-space rune stops
    the scan.  [p1], [p2] and [p3] recognise the encodings of one, two and
    three bytes. *)
Fixpoint trimFront (p1 : ascii -> bool) (p2 : ascii -> ascii -> bool)
    (p3 : ascii -> ascii -> ascii -> bool) (s : string) : string :=
  match s with
  | EmptyString => EmptyString
  | String a r1 =>
      if p1 a then trimFront p1 p2 p3 r1
      else match r1 with
           | EmptyString => s
           | String b r2 =>
               if p2 a b then trimFront p1 p2 p3 r2
               else match r2 with
                    | EmptyString => s
                    | String c r3 =>
                        if p3 a b c then trimFront p1 p2 p3 r3 else s
                    end
           end
  end.

(** Leading white space. *)
Definition TrimLeft (s : string) : string :=
  trimFront isSpace1 isSpace2 isSpace3 s.

(** Trailing white space: the rune is decoded from the last byte
    backwards, which is the same scan on the reversed string with the
    byte patterns mirrored. *)
Definition TrimLeftRev (s : string) : string :=
  trimFront isSpace1 (fun a b => isSpace2 b a) (fun a b c => isSpace3 c b a) s.

Definition TrimRight (s : string) : string :=
  String.rev (TrimLeftRev (String.rev s)).

(** [bytes.TrimSpace]: leading, then trailing white space is cut. *)
Definition TrimSpace (s : string) : string := TrimRight (TrimLeft s).

(** The regular expression [(\w|-)+] matches runs of these bytes. *)
Definition wordChar (c : ascii) : bool :=
  let n := code c in
  ((48 <=? n) && (n <=? 57) || (65 <=? n) && (n <=? 90)
   || (97 <=? n) && (n <=? 122) || (n =? 95) || (n =? 45))%N.

Fixpoint takeWord (s : string) : string :=
  match s with
  | String c r => if wordChar c then String c (takeWord r) else EmptyString
  | EmptyString => EmptyString
  end.

(** [simpleName]: [wordRegex.FindString], the leftmost longest run of word
    bytes, empty when there is none. *)
Fixpoint simpleName (s : string) : string :=
  match s with
  | String c r => if wordChar c then String c (takeWord r) else simpleName r
  | EmptyString => EmptyString
  end.

(** ** [DecodeHTML] *)

(** [strings.ReplaceAll(s, old, new)] for a pattern [old] that is not
    empty, which is how [DecodeHTML] calls it: the occurrences of [old]
    are found from left to right, none overlapping the one before.
    [skip] counts the bytes of a matched occurrence still to be passed
    over. *)
Fixpoint replaceFrom (skip : nat) (s old new : string) : string :=
  match s with
  | EmptyString => EmptyString
  | String c r =>
      match skip with
      | S k => replaceFrom k r old new
      | 0 =>
          if String.prefix old s
          then new +:+ replaceFrom (len old - 1) r old new
          else String c (replaceFrom 0 r old new)
      end
  end.

Definition ReplaceAll (s old new : string) : string := replaceFrom 0 s old new.

Definition DecodeHTML (x : string) : string :=
  let x := ReplaceAll x "&amp;" "&" in
  let x := ReplaceAll x "&lt;" "<" in
  let x := ReplaceAll x "&gt;" ">" in
  let x := ReplaceAll x "&apos;" "'" in
  let x := ReplaceAll x "&quot;" (String "034"%char "") in
  let x := ReplaceAll x " " "_" in
  let x := ReplaceAll x "-" "_" in
  x.

(** ** Nodes and the store *)

Abbreviation addr := nat (only parsing).
Abbreviation ptr := (option nat) (only parsing).

(** [xml.Name] and [xml.Attr]. *)
Record Name := mkName { Space : string; Local : string }.
Record Attr := mkAttr { AName : Name; Value : string }.

(** The [Node] struct.  [Children] is a slice of pointers: [None] is the
    nil slice, [Some []] an empty slice that is not nil.  No method of the
    package stores the child slice of one node in another node ([AddChild]
    appends to the node's own slice, [Copy] builds a new one, [Union] and
    [Merge] hand over pointers to nodes), so a slice is never shared
    between nodes and is modelled by its value; what is shared are the
    nodes, through their addresses.  A [range] loop runs over the slice as
    it was when the loop began. *)
Record Node := mkNode {
  parent : ptr;
  name : string;
  XMLName : Name;
  Attrs : list Attr;
  Content : string;
  Children : option (list ptr)
}.

Abbreviation heap := (list Node) (only parsing).

Definition noName : Name := mkName "" "".

Definition set_name (s : string) (n : Node) : Node :=
  mkNode (parent n) s (XMLName n) (Attrs n) (Content n) (Children n).
Definition set_XMLName (x : Name) (n : Node) : Node :=
  mkNode (parent n) (name n) x (Attrs n) (Content n) (Children n).
Definition set_parent (p : ptr) (n : Node) : Node :=
  mkNode p (name n) (XMLName n) (Attrs n) (Content n) (Children n).
Definition set_Content (c : string) (n : Node) : Node :=
  mkNode (parent n) (name n) (XMLName n) (Attrs n) c (Children n).
Definition set_Children (cs : option (list ptr)) (n : Node) : Node :=
  mkNode (parent n) (name n) (XMLName n) (Attrs n) (Content n) cs.
Definition set_Attrs (l : list Attr) (n : Node) : Node :=
  mkNode (parent n) (name n) (XMLName n) l (Content n) (Children n).

(** Slice primitives: the elements ranged over, and [append]. *)
Definition elems (s : option (list ptr)) : list ptr :=
  match s with Some l => l | None => [] end.

Definition append (s : option (list ptr)) (x : ptr) : option (list ptr) :=
  Some (elems s ++ [x]).

(** ** Outcomes and the two monads

    A read-only method maps a heap to an outcome; a mutating method also
    returns the new heap. *)

Inductive res (A : Type) : Type :=
| Ok (a : A)
| Panic
| OutOfFuel.
Arguments Ok {A} a.
Arguments Panic {A}.
Arguments OutOfFuel {A}.

Definition rbind {A B} (r : res A) (k : A -> res B) : res B :=
  match r with
  | Ok a => k a
  | Panic => Panic
  | OutOfFuel => OutOfFuel
  end.

Definition M (A : Type) : Type := heap -> res (A * heap).

Definition ret {A} (a : A) : M A := fun h => Ok (a, h).
Definition bind {A B} (m : M A) (k : A -> M B) : M B :=
  fun h => match m h with
           | Ok (a, h') => k a h'
           | Panic => Panic
           | OutOfFuel => OutOfFuel
           end.
Definition panic {A} : M A := fun _ => Panic.
Definition diverge {A} : M A := fun _ => OutOfFuel.

(** A read-only computation run inside a mutating one. *)
Definition read {A} (f : heap -> res A) : M A :=
  fun h => match f h with
           | Ok a => Ok (a, h)
           | Panic => Panic
           | OutOfFuel => OutOfFuel
           end.

Notation "'let?' x ':=' e 'in' k" := (rbind e (fun x => k))
  (at level 10, x binder, e at level 100, k at level 200).
Notation "'let*' x ':=' e 'in' k" := (bind e (fun x => k))
  (at level 10, x binder, e at level 100, k at level 200).
Notation "'run' e 'in' k" := (bind e (fun _ => k))
  (at level 10, e at level 100, k at level 200).

(** [*p]: a nil pointer panics. *)
Definition deref (h : heap) (p : ptr) : res Node :=
  match p with
  | None => Panic
  | Some a => match h !! a with Some n => Ok n | None => Panic end
  end.

(** [*p = f( *p)]. *)
Definition modify (p : ptr) (f : Node -> Node) : M unit :=
  fun h => match p with
           | None => Panic
           | Some a => match h !! a with
                       | Some n => Ok (tt, <[a := f n]> h)
                       | None => Panic
                       end
           end.

(** [&Node{...}]: the new object gets the next free address. *)
Definition alloc (n : Node) : M ptr :=
  fun h => Ok (Some (length h), h ++ [n]).

(** A [for _, x := range xs] loop over a slice evaluated once. *)
Fixpoint forM {A} (xs : list A) (body : A -> M unit) : M unit :=
  match xs with
  | [] => ret tt
  | x :: r => run body x in forM r body
  end.

(** ** Constructors and accessors *)

(** [New(name)]: [&Node{name: name}]. *)
Definition New (nm : string) : Node :=
  mkNode None nm noName [] "" None.

(** [NewXML(name)] / [NewXMLS(name)]: [&Node{XMLName: xml.Name{Local: name}}]. *)
Definition NewXML (nm : string) : Node :=
  mkNode None "" (mkName "" nm) [] "" None.

Definition GetXMLNameS (n : Node) : string := Local (XMLName n).

(** [GetName]/[GetNameS]: the XML name when it is set, else the plain name. *)
Definition GetName (n : Node) : string :=
  if String.eqb (GetXMLNameS n) "" then name n else GetXMLNameS n.

Definition GetNameS (n : Node) : string :=
  if String.eqb (GetXMLNameS n) "" then name n else GetXMLNameS n.

Definition GetParent (n : Node) : ptr := parent n.

Definition GetChildren (n : Node) : option (list ptr) := Children n.

(** The zero value of [xml.Attr]. *)
Definition zeroAttr : Attr := mkAttr noName "".

(** The loop of [GetAttr].  [attr] is the variable declared before the
    loop; the [range] clause assigns every attribute visited to it, so
    after a loop without a match it holds the last attribute. *)
Fixpoint GetAttrLoop (attr : Attr) (attrs : list Attr) (nm : string)
    : Attr * bool :=
  match attrs with
  | [] => (attr, false)
  | a :: r =>
      if String.eqb (Local (AName a)) nm then (a, true) else GetAttrLoop a r nm
  end.

Definition GetAttr (n : Node) (nm : string) : Attr * bool :=
  GetAttrLoop zeroAttr (Attrs n) nm.

Definition GetAttrValueS (n : Node) (nm : string) : string * bool :=
  let (attr, ok) := GetAttr n nm in
  if ok then (Value attr, true) else ("", false).

Definition AddAttr (n : ptr) (attr : Attr) : M unit :=
  modify n (fun nd => set_Attrs (Attrs nd ++ [attr]) nd).

Definition NewAttrS (n : ptr) (nm value : string) : M unit :=
  AddAttr n (mkAttr (mkName "" nm) value).

(** [GetContent]: the trimmed content unless it starts with ['<']. *)
Definition GetContent (n : Node) : string :=
  match TrimSpace (Content n) with
  | EmptyString => ""
  | String c r => if Ascii.eqb c "<" then "" else String c r
  end.

Definition GetContentS (n : Node) : string := Content n.

(** The loop shared by [GetChild], [GetChildS] and [GetChildByContent]:
    the first child whose [key] equals [v].  Every child visited is
    dereferenced. *)
Fixpoint findFirst (key : Node -> string) (h : heap) (cs : list ptr)
    (v : string) : res ptr :=
  match cs with
  | [] => Ok None
  | c :: r =>
      let? cn := deref h c in
      if String.eqb (key cn) v then Ok c else findFirst key h r v
  end.

Definition GetChild (h : heap) (n : ptr) (nm : string) : res ptr :=
  let? nd := deref h n in findFirst GetName h (elems (Children nd)) nm.

Definition GetChildS (h : heap) (n : ptr) (nm : string) : res ptr :=
  let? nd := deref h n in findFirst GetNameS h (elems (Children nd)) nm.

Definition isNil (p : ptr) : bool :=
  match p with None => true | Some _ => false end.

Definition HasChild (h : heap) (n : ptr) (nm : string) : res bool :=
  let? c := GetChild h n nm in Ok (negb (isNil c)).

Definition GetChildByContent (h : heap) (n : ptr) (content : string) : res ptr :=
  let? nd := deref h n in findFirst GetContentS h (elems (Children nd)) content.

Definition GetChildContent (h : heap) (n : ptr) (nm : string) : res string :=
  let? child := GetChild h n nm in
  match child with
  | Some _ => let? cn := deref h child in Ok (GetContent cn)
  | None => Ok ""
  end.

Definition GetChildContentS (h : heap) (n : ptr) (nm : string) : res string :=
  let? child := GetChildS h n nm in
  match child with
  | Some _ => let? cn := deref h child in Ok (GetContentS cn)
  | None => Ok ""
  end.

(** ** Mutators *)

Definition SetContent (n : ptr) (content : string) : M unit :=
  modify n (set_Content content).

Definition SetContentS (n : ptr) (content : string) : M unit :=
  SetContent n content.

Definition SetXMLNameS (n : ptr) (nm : string) : M unit :=
  modify n (set_XMLName (mkName "" nm)).

Definition SetName (n : ptr) (nm : string) : M unit :=
  modify n (set_name nm).

Definition SetNameS (n : ptr) (nm : string) : M unit :=
  modify n (set_name nm).

Definition AddChild (n : ptr) (child : ptr) : M unit :=
  modify n (fun nd => set_Children (append (Children nd) child) nd).

(** [NewChild]: the child follows the parent's naming convention, is
    linked back to the parent and appended to its children. *)
Definition NewChild (n : ptr) (nm content : string) : M ptr :=
  let* nd := read (fun h => deref h n) in
  let* child := alloc (if String.eqb (GetXMLNameS nd) "" then New nm else NewXML nm) in
  run modify child (set_parent n) in
  run modify child (set_Content content) in
  run AddChild n child in
  ret child.

Definition NewChildS (n : ptr) (nm content : string) : M ptr :=
  NewChild n nm content.

Definition SetChildContentS (n : ptr) (nm content : string) : M unit :=
  let* child := read (fun h => GetChildS h n nm) in
  match child with
  | Some _ => SetContentS child content
  | None => run NewChildS n nm content in ret tt
  end.

(** The index of the first child named [nm], counted from [i]. *)
Fixpoint findIndex (h : heap) (cs : list ptr) (nm : string) (i : nat)
    : res (option nat) :=
  match cs with
  | [] => Ok None
  | c :: r =>
      let? cn := deref h c in
      if String.eqb (GetName cn) nm then Ok (Some i) else findIndex h r nm (S i)
  end.

(** [PopChild]: the matching slot receives the last element, then the
    slice is shortened by one. *)
Definition PopChild (n : ptr) (nm : string) : M ptr :=
  let* nd := read (fun h => deref h n) in
  let cs := elems (Children nd) in
  let* found := read (fun h => findIndex h cs nm 0) in
  match found with
  | None => ret None
  | Some i =>
      match cs !! i, last cs with
      | Some child, Some l =>
          run modify n (set_Children (Some (take (length cs - 1) (<[i := l]> cs)))) in
          ret child
      | _, _ => panic
      end
  end.

Definition PopChildS (n : ptr) (nm : string) : M ptr := PopChild n nm.

(** ** Copy *)

Fixpoint Copy (fuel : nat) (n : ptr) : M ptr :=
  match fuel with
  | 0 => diverge
  | S f =>
      let* nd := read (fun h => deref h n) in
      let* clone :=
        alloc (if String.eqb (GetXMLNameS nd) "" then New (GetName nd)
               else NewXML (GetName nd)) in
      run SetContent clone (GetContent nd) in
      run forM (elems (Children nd)) (fun child =>
            let* c := Copy f child in
            modify clone (fun cl => set_Children (append (Children cl) c) cl)) in
      ret clone
  end.

(** ** Union *)

(** One iteration of the loop of [Union]; [rec] is the recursive call. *)
Definition UnionChild (rec : ptr -> ptr -> M unit) (n child : ptr) : M unit :=
  let* cn := read (fun h => deref h child) in
  let* has := read (fun h => HasChild h n (GetName cn)) in
  if negb has then AddChild n child
  else match GetChildren cn with
       | Some _ =>
           let* mine := read (fun h => GetChild h n (GetName cn)) in
           rec mine child
       | None => SetChildContentS n (GetNameS cn) (GetContentS cn)
       end.

Fixpoint Union (fuel : nat) (n source : ptr) : M unit :=
  match fuel with
  | 0 => diverge
  | S f =>
      let* nd := read (fun h => deref h n) in
      run (if Nat.eqb (len (GetContent nd)) 0
           then let* sd := read (fun h => deref h source) in
                SetContent n (GetContent sd)
           else ret tt) in
      let* sd := read (fun h => deref h source) in
      forM (elems (Children sd)) (UnionChild (Union f) n)
  end.

(** ** Ancestor search and template preprocessing *)

(** [searchAncestor]: walks the [parent] links; the result is not nil
    exactly when some proper ancestor on that chain is named [ancestor]. *)
Fixpoint searchAncestor (fuel : nat) (h : heap) (n : ptr) (ancestor : string)
    : res ptr :=
  match n with
  | None => Ok None
  | Some _ =>
      match fuel with
      | 0 => OutOfFuel
      | S f =>
          let? nd := deref h n in
          match GetParent nd with
          | None => Ok None
          | Some pa =>
              let? pd := deref h (Some pa) in
              if String.eqb (GetNameS pd) ancestor then Ok n
              else searchAncestor f h (Some pa) ancestor
          end
      end
  end.

(** The fixed ancestor name tested by [PreprocessTemplate]. *)
Definition sentinel : string := "LabelAgent".

(** The demotion step of [PreprocessTemplate]: the part of the loop body
    between the lookup of [mine] and the recursive call. *)
Definition demote (fuel : nat) (mine child : ptr) : M unit :=
  let* anc := read (fun h => searchAncestor fuel h mine sentinel) in
  if isNil anc then ret tt
  else
    let* md := read (fun h => deref h mine) in
    if Nat.ltb 0 (len (GetContentS md)) then
      let* cd := read (fun h => deref h child) in
      run NewChildS mine "" (GetContentS cd) in
      SetContentS mine ""
    else ret tt.

(** One iteration of the loop of [PreprocessTemplate]. *)
Definition PreprocessChild (fuel : nat) (rec : ptr -> M unit) (n child : ptr)
    : M unit :=
  let* cn := read (fun h => deref h child) in
  let* mine := read (fun h => GetChild h n (GetName cn)) in
  if negb (isNil mine) && Nat.ltb 0 (len (GetName cn)) then
    run demote fuel mine child in
    rec mine
  else ret tt.

Fixpoint PreprocessTemplate (fuel : nat) (n : ptr) : M unit :=
  match fuel with
  | 0 => diverge
  | S f =>
      let* nd := read (fun h => deref h n) in
      forM (elems (Children nd)) (PreprocessChild f (PreprocessTemplate f) n)
  end.

(** ** Merge *)

(** Modelled from the spec: [util.Contains], the membership test of the
    skip-overwrite list ("whether [mine]'s parent's name is in the
    caller-supplied skip-overwrite set"); package [util] is not part of the
    sources at hand. *)
Definition Contains (l : list string) (s : string) : bool :=
  existsb (String.eqb s) l.

(** The anonymous branch: the node that receives [child], if any.  First
    the parent of [mine], when [mine] and its parent exist and the parent
    has no child with that content; else the receiver, when it has no child
    with that content. *)
Definition anonTarget (h : heap) (n mine child : ptr) : res ptr :=
  let? viaParent :=
    match mine with
    | None => Ok None
    | Some _ =>
        let? md := deref h mine in
        match GetParent md with
        | None => Ok None
        | Some pa =>
            let? cd := deref h child in
            let? found := GetChildByContent h (Some pa) (GetContentS cd) in
            Ok (if isNil found then Some pa else None)
        end
    end in
  match viaParent with
  | Some pa => Ok (Some pa)
  | None =>
      let? cd := deref h child in
      let? found := GetChildByContent h n (GetContentS cd) in
      Ok (if isNil found then n else None)
  end.

(** The named collision branch: the new content of [mine]. *)
Definition collide (skipOverwrite : list string) (mine child : ptr) : M unit :=
  let* md := read (fun h => deref h mine) in
  let* keep := read (fun h =>
    match GetParent md with
    | None => Ok false
    | Some pa =>
        let? pd := deref h (Some pa) in
        Ok (Contains skipOverwrite (GetNameS pd))
    end) in
  let* cd := read (fun h => deref h child) in
  if keep then SetContentS mine (GetContentS md +:+ "," +:+ GetContentS cd)
  else SetContentS mine (GetContentS cd).

(** One iteration of the loop of [Merge]; [rec] is the recursive call. *)
Definition MergeChild (rec : ptr -> ptr -> M unit) (skipOverwrite : list string)
    (n child : ptr) : M unit :=
  let* cn := read (fun h => deref h child) in
  let* mine := read (fun h => GetChild h n (GetName cn)) in
  if Nat.eqb (len (GetName cn)) 0 then
    let* target := read (fun h => anonTarget h n mine child) in
    match target with
    | Some t => AddChild (Some t) child
    | None => ret tt
    end
  else if isNil mine then AddChild n child
  else
    run collide skipOverwrite mine child in
    rec mine child.

Fixpoint Merge (fuel : nat) (n subtemplate : ptr) (skipOverwrite : list string)
    : M unit :=
  match subtemplate with
  | None => ret tt
  | Some _ =>
      match fuel with
      | 0 => diverge
      | S f =>
          let* nd := read (fun h => deref h n) in
          run (if Nat.eqb (len (Content nd)) 0
               then let* sd := read (fun h => deref h subtemplate) in
                    modify n (set_Content (Content sd))
               else ret tt) in
          let* sd := read (fun h => deref h subtemplate) in
          forM (elems (Children sd))
               (MergeChild (fun m c => Merge f m c skipOverwrite) skipOverwrite n)
      end
  end.

(** ** Flattening and path search *)

(** A loop that threads an accumulator through read-only calls. *)
Fixpoint foldRes {A B} (f : B -> A -> res B) (xs : list A) (acc : B) : res B :=
  match xs with
  | [] => Ok acc
  | x :: r => let? acc' := f acc x in foldRes f r acc'
  end.

(** The container name that never shows in a flattened path. *)
Definition reserved : string := "counters".

Definition extendPrefix (prefix nameS : string) : string :=
  if Nat.ltb 0 (len nameS) && negb (String.eqb nameS reserved)
  then (if String.eqb prefix "" then nameS else prefix +:+ " " +:+ nameS)
  else prefix.

Definition leafEntry (prefix content : string) : string :=
  if Nat.ltb 0 (len prefix) then prefix +:+ " " +:+ simpleName content
  else simpleName content.

(** [FlatList(list, prefix)]: the slice that [list] points to is passed
    in as [out] and its final value is returned. *)
Fixpoint FlatList (fuel : nat) (h : heap) (n : ptr) (out : list string)
    (prefix : string) : res (list string) :=
  match n with
  | None => Ok out
  | Some _ =>
      match fuel with
      | 0 => OutOfFuel
      | S f =>
          let? nd := deref h n in
          if Nat.eqb (length (elems (Children nd))) 0
          then Ok (out ++ [leafEntry prefix (GetContentS nd)])
          else foldRes (fun acc child =>
                          FlatList f h child acc (extendPrefix prefix (GetNameS nd)))
                       (elems (Children nd)) out
      end
  end.

(** Modelled from the spec: [util.EqualStringSlice], "the running path
    exactly equals" the target path: same length, same segments; package
    [util] is not part of the sources at hand. *)
Fixpoint EqualStringSlice (a b : list string) : bool :=
  match a, b with
  | [], [] => true
  | x :: a', y :: b' => String.eqb x y && EqualStringSlice a' b'
  | _, _ => false
  end.

(** The closure [search] of [SearchChildren]; [matches] is the captured
    result slice. *)
Fixpoint search (fuel : nat) (h : heap) (path : list string) (node : ptr)
    (currentPath : list string) (matches : list ptr) : res (list ptr) :=
  match fuel with
  | 0 => OutOfFuel
  | S f =>
      let? anchored :=
        if Nat.ltb 0 (length currentPath) then Ok true
        else match path with
             | [] => Panic
             | p0 :: _ => let? nd := deref h node in Ok (String.eqb p0 (GetNameS nd))
             end in
      let? nd := deref h node in
      let newPath := if anchored : bool then currentPath ++ [GetNameS nd]
                     else currentPath in
      if EqualStringSlice newPath path then Ok (matches ++ [node])
      else if Nat.ltb (length newPath) (length path)
           then foldRes (fun acc child => search f h path child newPath acc)
                        (elems (GetChildren nd)) matches
           else Ok matches
  end.

Definition SearchChildren (fuel : nat) (h : heap) (n : ptr) (path : list string)
    : res (list ptr) :=
  search fuel h path n [] [].

(** ** Search for content by path *)

(** Modelled from the spec: [util.MaxLen], "the longest candidate path
    length"; package [util] is not part of the sources at hand. *)
Definition MaxLen (paths : list (list string)) : nat :=
  fold_right (fun p m => Nat.max (length p) m) 0 paths.

(** The closure [search] of [SearchContent]; [matches] is the captured
    result slice.  The loop over [paths] appends the content once, at the
    first path equal to the running path, and breaks. *)
Fixpoint searchContent (fuel : nat) (h : heap) (prefix : list string)
    (paths : list (list string)) (node : ptr) (currentPath : list string)
    (matches : list string) : res (list string) :=
  match fuel with
  | 0 => OutOfFuel
  | S f =>
      let? anchored :=
        if Nat.ltb 0 (length currentPath) then Ok true
        else match prefix with
             | [] => Panic
             | p0 :: _ => let? nd := deref h node in Ok (String.eqb p0 (GetNameS nd))
             end in
      let? nd := deref h node in
      let newPath := if anchored : bool then currentPath ++ [GetNameS nd]
                     else currentPath in
      let matches' := if existsb (EqualStringSlice newPath) paths
                      then matches ++ [GetContentS nd] else matches in
      if Nat.ltb (length newPath) (MaxLen paths)
      then foldRes (fun acc child =>
                      searchContent f h prefix paths child newPath acc)
                   (elems (GetChildren nd)) matches'
      else Ok matches'
  end.

Definition SearchContent (fuel : nat) (h : heap) (n : ptr)
    (prefix : list string) (paths : list (list string))
    : res (list string * bool) :=
  let? matches := searchContent fuel h prefix paths n [] [] in
  Ok (matches, Nat.ltb 0 (length matches)).

(** ** Children, by name and all at once *)

Definition HasChildS (h : heap) (n : ptr) (nm : string) : res bool :=
  let? c := GetChildS h n nm in Ok (negb (isNil c)).

(** The loop shared by [GetAllChildContentS] and [GetAllChildNamesS]:
    [key] of every child is appended to the result. *)
Definition collectKeys (key : Node -> string) (h : heap) (cs : list ptr)
    : res (list string) :=
  foldRes (fun acc ch => let? cd := deref h ch in Ok (acc ++ [key cd])) cs [].

Definition GetAllChildContentS (h : heap) (n : ptr) : res (list string) :=
  let? nd := deref h n in collectKeys GetContentS h (elems (Children nd)).

Definition GetAllChildNamesS (h : heap) (n : ptr) : res (list string) :=
  let? nd := deref h n in collectKeys GetNameS h (elems (Children nd)).

(** ** Trees laid out in the store

    For the read-only traversals and for [Copy], the part of the store
    that is reachable from a node is described by a finite tree: every
    vertex carries its address and its record, and the record's child
    slice lists the roots of the subtrees, in order. *)

#[local] Set Warnings "-register-all".
Inductive tree : Type :=
| T (a : addr) (nd : Node) (kids : list tree).

Definition root (t : tree) : addr := match t with T a _ _ => a end.
Definition label (t : tree) : Node := match t with T _ nd _ => nd end.
Definition subtrees (t : tree) : list tree := match t with T _ _ ks => ks end.

Fixpoint repr (h : heap) (t : tree) : Prop :=
  match t with
  | T a nd ks =>
      h !! a = Some nd
      /\ elems (Children nd) = map (fun k => Some (root k)) ks
      /\ (fix all (l : list tree) : Prop :=
            match l with
            | [] => True
            | k :: r => repr h k /\ all r
            end) ks
  end.

Fixpoint depth (t : tree) : nat :=
  match t with
  | T _ _ ks => S (fold_right (fun k m => Nat.max (depth k) m) 0 ks)
  end.

(** The addresses of a tree, in pre-order. *)
Fixpoint addrs (t : tree) : list addr :=
  match t with
  | T a _ ks => a :: concat (map addrs ks)
  end.

(** *** What [FlatList] is expected to emit

    The leaf entries in pre-order: a leaf gives one entry, an inner vertex
    the entries of its subtrees from left to right under the extended
    prefix. *)
Fixpoint flat (t : tree) (prefix : string) : list string :=
  match t with
  | T _ nd ks =>
      match ks with
      | [] => [leafEntry prefix (Content nd)]
      | _ :: _ => concat (map (fun k => flat k (extendPrefix prefix (GetNameS nd))) ks)
      end
  end.

(** *** What [SearchChildren] is expected to return

    [walk t above] lists the vertices of [t] in pre-order, each with its
    full name path from the search root ([above] holds the names of the
    ancestors).  [anchor p0] drops the leading names that differ from the
    first segment [p0]. *)
Fixpoint walk (t : tree) (above : list string) : list (addr * list string) :=
  match t with
  | T a nd ks =>
      (a, above ++ [GetNameS nd])
        :: concat (map (fun k => walk k (above ++ [GetNameS nd])) ks)
  end.

Fixpoint anchor (p0 : string) (l : list string) : list string :=
  match l with
  | [] => []
  | x :: r => if String.eqb p0 x then x :: r else anchor p0 r
  end.

Definition anchoredAt (path : list string) (e : addr * list string) : bool :=
  match path with
  | [] => false
  | p0 :: _ => EqualStringSlice (anchor p0 (snd e)) path
  end.

Definition fullAt (path : list string) (e : addr * list string) : bool :=
  EqualStringSlice (snd e) path.

(** *** What [Copy] is expected to build *)

(** [similar t t']: same shape, same names, and the content of every
    vertex of [t'] is the effective content of its original; the copy
    has no attributes and no parent links. *)
Fixpoint similar (t t' : tree) : Prop :=
  match t, t' with
  | T _ nd ks, T _ nd' ks' =>
      GetName nd' = GetName nd
      /\ Content nd' = GetContent nd
      /\ Attrs nd' = []
      /\ parent nd' = None
      /\ (fix all2 (l l' : list tree) : Prop :=
            match l, l' with
            | [], [] => True
            | k :: r, k' :: r' => similar k k' /\ all2 r r'
            | _, _ => False
            end) ks ks'
  end.

(** *** Parent chains

    [ancestry h s n b k]: following the [parent] links from [n] for [k]
    steps either meets a node named [s] ([b = true]) or runs into a nil
    parent before ([b = false]). *)
Inductive ancestry (h : heap) (s : string) : addr -> bool -> nat -> Prop :=
| ancestry_root a nd :
    h !! a = Some nd -> parent nd = None -> ancestry h s a false 1
| ancestry_hit a nd pa pd :
    h !! a = Some nd -> parent nd = Some pa -> h !! pa = Some pd ->
    GetNameS pd = s -> ancestry h s a true 1
| ancestry_up a nd pa pd b k :
    h !! a = Some nd -> parent nd = Some pa -> h !! pa = Some pd ->
    GetNameS pd <> s -> ancestry h s pa b k -> ancestry h s a b (S k).

(** *** Counting children by content *)

Definition contentIs (h : heap) (x : string) (p : ptr) : bool :=
  match deref h p with
  | Ok nd => String.eqb (GetContentS nd) x
  | _ => false
  end.

Definition countContent (h : heap) (n : ptr) (x : string) : nat :=
  match deref h n with
  | Ok nd => length (List.filter (contentIs h x) (elems (Children nd)))
  | _ => 0
  end.

(** *** White space, as a specification of [TrimSpace]

    A white-space word is the encoding of one white-space rune; [runs]
    are concatenations of such words. *)
Definition seqOK (p1 : ascii -> bool) (p2 : ascii -> ascii -> bool)
    (p3 : ascii -> ascii -> ascii -> bool) (w : string) : bool :=
  match w with
  | String a EmptyString => p1 a
  | String a (String b EmptyString) => p2 a b
  | String a (String b (String c EmptyString)) => p3 a b c
  | _ => false
  end.

Definition spaceSeq (w : string) : bool := seqOK isSpace1 isSpace2 isSpace3 w.

Inductive runs (ok : string -> bool) : string -> Prop :=
| runs_nil : runs ok ""
| runs_cons w s : ok w = true -> runs ok s -> runs ok (w +:+ s).

Definition spaces (s : string) : Prop := runs spaceSeq s.

Definition noLeading (ok : string -> bool) (s : string) : Prop :=
  forall w r, ok w = true -> s <> w +:+ r.

Definition noTrailing (ok : string -> bool) (s : string) : Prop :=
  forall w l, ok w = true -> s <> l +:+ w.

(** [trimmed s t]: [t] is [s] without its leading and trailing white
    space. *)
Definition trimmed (s t : string) : Prop :=
  exists l r, s = l +:+ t +:+ r /\ spaces l /\ spaces r
              /\ noLeading spaceSeq t /\ noTrailing spaceSeq t.


(** The marker test of [GetContent]: [content[0] == '<']. *)
Definition startsWithMarker (s : string) : bool :=
  match s with
  | String c _ => Ascii.eqb c "<"
  | EmptyString => false
  end.

(** ** Sample stores *)

(** A root with one child whose content is markup surrounded by blanks. *)
Definition markupStore : heap :=
  [ mkNode None "root" noName [] "" (Some [Some 1]);
    mkNode (Some 0) "k" noName [] "  <v>  " None ].


(** A parent with the children [A], [B], [C] at addresses 1, 2, 3. *)
Definition abcStore : heap :=
  [ mkNode None "p" noName [] "" (Some [Some 1; Some 2; Some 3]);
    mkNode (Some 0) "A" noName [] "1" None;
    mkNode (Some 0) "B" noName [] "2" None;
    mkNode (Some 0) "C" noName [] "3" None ].

(** A child that is valid in the store and not named [nm]. *)
Definition otherChild (h : heap) (nm : string) (p : ptr) : Prop :=
  exists x xd, p = Some x /\ h !! x = Some xd /\ GetName xd <> nm.


(** A root whose children [X], [Y], [Z] have subtrees of depth 2, 1 and 3;
    [Z] carries the reserved container name. *)
Definition xyzStore : heap :=
  [ mkNode None "root" noName [] "" (Some [Some 1; Some 2; Some 3]);
    mkNode (Some 0) "X" noName [] "" (Some [Some 4]);
    mkNode (Some 0) "Y" noName [] "y-val 10%" None;
    mkNode (Some 0) "counters" noName [] "" (Some [Some 5]);
    mkNode (Some 1) "x" noName [] "x1" None;
    mkNode (Some 3) "c" noName [] "" (Some [Some 6]);
    mkNode (Some 5) "z" noName [] " z_1 (ms)" None ].

Definition xyzNode (a : addr) : Node :=
  match xyzStore !! a with Some nd => nd | None => New "" end.

Definition xTree : tree := T 1 (xyzNode 1) [T 4 (xyzNode 4) []].
Definition yTree : tree := T 2 (xyzNode 2) [].
Definition zTree : tree := T 3 (xyzNode 3) [T 5 (xyzNode 5) [T 6 (xyzNode 6) []]].
Definition xyzTree : tree := T 0 (xyzNode 0) [xTree; yTree; zTree].


(** A receiver [base] (address 0) and a source [src] (address 4).  The
    receiver's [A] has a child and the source's [A] is a leaf; the
    receiver's [B] is a leaf and the source's [B] has a child. *)
Definition unionStore : heap :=
  [ mkNode None "base" noName [] "" (Some [Some 1; Some 3]);
    mkNode (Some 0) "A" noName [] "1" (Some [Some 2]);
    mkNode (Some 1) "a1" noName [] "x" None;
    mkNode (Some 0) "B" noName [] "b" None;
    mkNode None "src" noName [] "" (Some [Some 5; Some 6]);
    mkNode (Some 4) "A" noName [] "2" None;
    mkNode (Some 4) "B" noName [] "c" (Some [Some 7]);
    mkNode (Some 6) "b1" noName [] "y" None ].

(** "The existing child itself has children." *)
Definition hasChildren (nd : Node) : bool :=
  negb (Nat.eqb (length (elems (Children nd))) 0).


(** [identical t t']: same shape, same names and the same raw content at
    every vertex. *)
Fixpoint identical (t t' : tree) : Prop :=
  match t, t' with
  | T _ nd ks, T _ nd' ks' =>
      GetName nd' = GetName nd
      /\ Content nd' = Content nd
      /\ (fix all2 (l l' : list tree) : Prop :=
            match l, l' with
            | [] , [] => True
            | k :: r, k' :: r' => identical k k' /\ all2 r r'
            | _, _ => False
            end) ks ks'
  end.

(** A node with an attribute, padded content and a child holding markup. *)
Definition copyStore : heap :=
  [ mkNode None "n" noName [mkAttr (mkName "" "unit") "ms"] "  a " (Some [Some 1]);
    mkNode (Some 0) "" (mkName "" "k") [] "<x/>" None ].

Definition copyTree : tree :=
  T 0 (mkNode None "n" noName [mkAttr (mkName "" "unit") "ms"] "  a " (Some [Some 1]))
    [T 1 (mkNode (Some 0) "" (mkName "" "k") [] "<x/>" None) []].


(** What the induction on the source tree proves about [Copy]. *)
Definition copySpec (f : nat) (k : tree) : Prop :=
  forall h, repr h k -> depth k <= f ->
    exists h' t',
      Copy f (Some (root k)) h = Ok (Some (length h), h')
      /\ length h < length h'
      /\ (forall a, a < length h -> h' !! a = h !! a)
      /\ repr h' t' /\ root t' = length h /\ similar k t'
      /\ Forall (fun b => length h <= b) (addrs t').

(** A template under the sentinel: the root is named [LabelAgent]; its
    children are a named node with content, an anonymous node with content
    and a named node that has a named child with content. *)
Definition labelStore : heap :=
  [ mkNode None "LabelAgent" noName [] "" (Some [Some 1; Some 2; Some 3]);
    mkNode (Some 0) "env" noName [] "prod" None;
    mkNode (Some 0) "" noName [] "x" None;
    mkNode (Some 0) "rules" noName [] "" (Some [Some 4]);
    mkNode (Some 3) "join" noName [] "a b" None ].

(** The store after the demotion of the content of [m]: a new anonymous
    node holding [content] is allocated, linked to [m] and appended to
    its children, and the content of [m] is cleared. *)
Definition demoted (h : heap) (m : addr) (md : Node) (content : string) : heap :=
  <[m := set_Content "" (set_Children (append (Children md) (Some (length h))) md)]>
    (h ++ [mkNode (Some m) "" noName [] content None]).


(** *** Regions of the store

    [W] is a set of addresses.  [kidsIn W h x]: every child of [x] lies in
    [W]; [closed W h]: [W] contains the children of its members.
    [stable W h h']: from [h] to [h'] the store keeps its size, a node
    gains children only from [W], and outside [W] the content is untouched.
    [confined W r s h h']: the same, except that the content of [r], when
    it was empty, may have become that of [s]. *)
Definition kidsIn (W : nat -> Prop) (h : heap) (x : nat) : Prop :=
  forall nd c, h !! x = Some nd -> In (Some c) (elems (Children nd)) -> W c.

Definition closed (W : nat -> Prop) (h : heap) : Prop :=
  forall x, W x -> kidsIn W h x.

Definition stable (W : nat -> Prop) (h h' : heap) : Prop :=
  length h' = length h /\
  forall x nd, h !! x = Some nd ->
    exists nd', h' !! x = Some nd'
      /\ (forall c, In (Some c) (elems (Children nd')) ->
                    In (Some c) (elems (Children nd)) \/ W c)
      /\ (~ W x -> Content nd' = Content nd).

Definition confined (W : nat -> Prop) (r : nat) (s : ptr) (h h' : heap) : Prop :=
  length h' = length h /\
  forall x nd, h !! x = Some nd ->
    exists nd', h' !! x = Some nd'
      /\ (forall c, In (Some c) (elems (Children nd')) ->
                    In (Some c) (elems (Children nd)) \/ W c)
      /\ (~ W x ->
          Content nd' = Content nd
          \/ (x = r /\ Content nd = ""
              /\ exists sd, deref h s = Ok sd /\ Content nd' = Content sd)).


(** The frame property of [Merge] proved by induction on the fuel. *)
Definition mergeFrame (W : nat -> Prop) (skipOverwrite : list string) (f : nat)
    : Prop :=
  forall h r s h',
    closed W h -> kidsIn W h r -> (forall c, s = Some c -> kidsIn W h c) ->
    Merge f (Some r) s skipOverwrite h = Ok (tt, h') ->
    confined W r s h h'.


(** A default template and a custom template.  The defaults (address 0)
    hold a [labels] group with the entry [tag = "a"]; the custom template
    (address 3) brings [tag = "b"] for the same group. *)
Definition labelsStore : heap :=
  [ mkNode None "defaults" noName [] "" (Some [Some 1]);
    mkNode (Some 0) "labels" noName [] "" (Some [Some 2]);
    mkNode (Some 1) "tag" noName [] "a" None;
    mkNode None "custom" noName [] "" (Some [Some 4]);
    mkNode (Some 3) "labels" noName [] "" (Some [Some 5]);
    mkNode (Some 4) "tag" noName [] "b" None ].


(** *** Anonymous children

    [absorb h kids cs] is the child list that results from offering the
    nodes [cs] one after the other to a parent whose children are [kids]:
    a node is appended when no child holds its content yet. *)
Definition cont (h : heap) (p : ptr) : string :=
  match deref h p with
  | Ok nd => GetContentS nd
  | _ => ""
  end.

Definition hasContent (h : heap) (x : string) (kids : list ptr) : bool :=
  existsb (contentIs h x) kids.


(** A pointer to a node of the store. *)
Definition valid (h : heap) (p : ptr) : Prop :=
  exists a nd, p = Some a /\ h !! a = Some nd.

(** The parent link of a node is nil or points to [r] or to [s]. *)
Definition parentAmong (r s : nat) (nd : Node) : Prop :=
  parent nd = None \/ parent nd = Some r \/ parent nd = Some s.

(** A child of the receiver [r]: valid, and when it is anonymous its
    parent link is nil, [r] or [s]. *)
Definition kidOK (h : heap) (r s : nat) (p : ptr) : Prop :=
  exists a nd, p = Some a /\ h !! a = Some nd
               /\ (GetName nd = "" -> parentAmong r s nd).

(** An anonymous child of the subtemplate [s]. *)
Definition anonOK (h : heap) (r s : nat) (p : ptr) : Prop :=
  exists a nd, p = Some a /\ h !! a = Some nd
               /\ GetName nd = "" /\ parentAmong r s nd.

(** A list of values held by the defaults (address 0) and a list brought
    by the custom template (address 3): anonymous entries. *)
Definition listStore : heap :=
  [ mkNode None "export_options" noName [] "" (Some [Some 1; Some 2]);
    mkNode (Some 0) "" noName [] "node" None;
    mkNode (Some 0) "" noName [] "aggr" None;
    mkNode None "export_options" noName [] "" (Some [Some 4; Some 5; Some 6]);
    mkNode (Some 3) "" noName [] "aggr" None;
    mkNode (Some 3) "" noName [] "svm" None;
    mkNode (Some 3) "" noName [] "svm" None ].


(** The same two templates with one more level: both [tag] entries have a
    child of their own. *)
Definition deepLabelsStore : heap :=
  [ mkNode None "defaults" noName [] "" (Some [Some 1]);
    mkNode (Some 0) "labels" noName [] "" (Some [Some 2]);
    mkNode (Some 1) "tag" noName [] "a" (Some [Some 3]);
    mkNode (Some 2) "unit" noName [] "s" None;
    mkNode None "custom" noName [] "" (Some [Some 5]);
    mkNode (Some 4) "labels" noName [] "" (Some [Some 6]);
    mkNode (Some 5) "tag" noName [] "b" (Some [Some 7]);
    mkNode (Some 6) "unit" noName [] "ms" None ].


(** *** Well-formed, levelled stores

    [wfHeap h]: every child pointer and every parent link that is not nil
    points into the store.  [levelled lv h]: the children of a node are one
    level below it and a linked parent is one level above; trees whose
    parent links point to the structural parent are levelled by their
    depth, and so are a base template and an override template side by
    side, before and after children of the one are adopted by the other.
    [good lv L h] adds that no level exceeds [L]. *)
Definition wfHeap (h : heap) : Prop :=
  forall x nd, h !! x = Some nd ->
    Forall (valid h) (elems (Children nd))
    /\ (parent nd = None \/ valid h (parent nd)).

Definition levelled (lv : nat -> nat) (h : heap) : Prop :=
  forall x nd, h !! x = Some nd ->
    (forall c, In (Some c) (elems (Children nd)) -> lv c = S (lv x))
    /\ (forall p, parent nd = Some p -> lv x = S (lv p)).

Definition good (lv : nat -> nat) (L : nat) (h : heap) : Prop :=
  wfHeap h /\ levelled lv h /\ (forall x nd, h !! x = Some nd -> lv x <= L).

(** What the induction on the fuel proves about the termination of
    [Merge]. *)
Definition mergeTotal (lv : nat -> nat) (L : nat) (skipOverwrite : list string)
    (f : nat) : Prop :=
  forall h r s ndr sds,
    good lv L h -> h !! r = Some ndr -> h !! s = Some sds ->
    lv r = lv s -> L - lv s < f ->
    exists h',
      Merge f (Some r) (Some s) skipOverwrite h = Ok (tt, h')
      /\ good lv L h' /\ length h' = length h.


(** ** Specification vocabulary for the properties below *)

(** The bytes of a string. *)
Fixpoint bytes (s : string) : list ascii :=
  match s with
  | EmptyString => []
  | String c r => c :: bytes r
  end.

(** [grows h h']: the store keeps its size; every node keeps its names,
    attributes and parent link, and its child list is the old one with
    children added at the end. *)
Definition grows (h h' : heap) : Prop :=
  length h' = length h /\
  forall x nd, h !! x = Some nd ->
    exists nd', h' !! x = Some nd'
      /\ name nd' = name nd /\ XMLName nd' = XMLName nd
      /\ Attrs nd' = Attrs nd /\ parent nd' = parent nd
      /\ exists more, elems (Children nd') = elems (Children nd) ++ more.

(** The vertices of a tree that have no children. *)
Fixpoint leaves (t : tree) : nat :=
  match t with
  | T _ _ ks =>
      match ks with
      | [] => 1
      | _ :: _ => fold_right (fun k m => leaves k + m) 0 ks
      end
  end.

(** The paths of [SearchContent]: the anchored name path of a vertex is
    one of the candidates. *)
Definition anchoredIn (p0 : string) (paths : list (list string))
    (e : addr * list string) : bool :=
  existsb (EqualStringSlice (anchor p0 (snd e))) paths.

(** A store for the attribute and child examples: a markup-qualified
    parent with two attributes of the same name and two children. *)
Definition attrStore : heap :=
  [ mkNode None "" (mkName "" "volume")
      [mkAttr (mkName "" "unit") "ms"; mkAttr (mkName "" "unit") "s"] ""
      (Some [Some 1; Some 2]);
    mkNode (Some 0) "" (mkName "" "name") [] "vol0" None;
    mkNode (Some 0) "" (mkName "" "size") [] "10" None ].

(** The node that [NewChild] allocates under the parent [nd] at address
    [a]: plain or markup-qualified as the parent is, linked back to the
    parent, with the given content. *)
Definition freshChild (nd : Node) (a : addr) (nm content : string) : Node :=
  set_Content content
    (set_parent (Some a)
       (if String.eqb (GetXMLNameS nd) "" then New nm else NewXML nm)).

(** Two parallel lists read as an association list: the value at the
    first position of the key, the empty string when the key is absent. *)
Fixpoint firstContent (nm : string) (names contents : list string) : string :=
  match names, contents with
  | k :: ks, c :: cs => if String.eqb k nm then c else firstContent nm ks cs
  | _, _ => ""
  end.

(** [key] of the node a pointer leads to, the empty string for a pointer
    that leads nowhere. *)
Definition keyAt (key : Node -> string) (h : heap) (p : ptr) : string :=
  match deref h p with
  | Ok nd => key nd
  | _ => ""
  end.



(** A function applied to every byte of a string. *)
Fixpoint mapBytes (f : ascii -> ascii) (s : string) : string :=
  match s with
  | EmptyString => EmptyString
  | String c r => String (f c) (mapBytes f r)
  end.

(** A blank and a hyphen become an underscore. *)
Definition underscored (c : ascii) : ascii :=
  if Ascii.eqb c " " || Ascii.eqb c "-" then "_"%char else c.

(** What the induction on the fuel proves about the termination of
    [Union]. *)
Definition unionTotal (lv : nat -> nat) (L : nat) (f : nat) : Prop :=
  forall h r s ndr sds,
    good lv L h -> h !! r = Some ndr -> h !! s = Some sds ->
    lv r = lv s -> L - lv s < f ->
    exists h',
      Union f (Some r) (Some s) h = Ok (tt, h')
      /\ good lv L h' /\ length h' = length h.

(** The node at [r] has a child node named [nm]. *)
Definition hasNamed (h : heap) (r : addr) (nm : string) : Prop :=
  exists ndr m md,
    h !! r = Some ndr /\ In (Some m) (elems (Children ndr))
    /\ h !! m = Some md /\ GetName md = nm.

(** [stableBut W r h h']: as [stable W h h'], except that the content of
    [r] may have changed. *)
Definition stableBut (W : nat -> Prop) (r : nat) (h h' : heap) : Prop :=
  length h' = length h /\
  forall x nd, h !! x = Some nd ->
    exists nd', h' !! x = Some nd'
      /\ (forall c, In (Some c) (elems (Children nd')) ->
                    In (Some c) (elems (Children nd)) \/ W c)
      /\ (~ W x -> x <> r -> Content nd' = Content nd).

(** The frame property of [Union] proved by induction on the fuel. *)
Definition unionFrame (W : nat -> Prop) (f : nat) : Prop :=
  forall h r s h',
    closed W h -> kidsIn W h r -> (forall c, s = Some c -> kidsIn W h c) ->
    Union f (Some r) s h = Ok (tt, h') ->
    stableBut W r h h'.

(** [demotion h h']: the store may have grown.  Every node of [h] keeps
    its names, attributes and parent link, its child list is the old one
    with children added at the end, its content is unchanged or has become
    empty, and it is untouched if it is anonymous; every node that is new
    in [h'] is an anonymous leaf without attributes. *)
Definition demotion (h h' : heap) : Prop :=
  length h <= length h'
  /\ (forall x nd, h !! x = Some nd ->
        exists nd', h' !! x = Some nd'
          /\ name nd' = name nd /\ XMLName nd' = XMLName nd
          /\ Attrs nd' = Attrs nd /\ parent nd' = parent nd
          /\ (exists more, elems (Children nd') = elems (Children nd) ++ more)
          /\ (Content nd' = Content nd \/ Content nd' = "")
          /\ (GetName nd = "" -> nd' = nd))
  /\ (forall x nd', length h <= x -> h' !! x = Some nd' ->
        GetName nd' = "" /\ Children nd' = None /\ Attrs nd' = []).

(** [tidy lv L h]: the store is well-formed and levelled, and no node
    with a name lies below level [L]. *)
Definition tidy (lv : nat -> nat) (L : nat) (h : heap) : Prop :=
  wfHeap h /\ levelled lv h
  /\ (forall x nd, h !! x = Some nd -> GetName nd <> "" -> lv x <= L).

(** The levels after a demotion at [m] in a store of size [n]: the new
    node lies one level below [m]. *)
Definition relevel (lv : nat -> nat) (n m : nat) : nat -> nat :=
  fun y => if Nat.eqb y n then S (lv m) else lv y.

(** What the induction on the fuel proves about the termination of
    [PreprocessTemplate]. *)
Definition preprocessTotal (L : nat) (f : nat) : Prop :=
  forall lv h n nd,
    tidy lv L h -> h !! n = Some nd -> L + (L - lv n) + 2 <= f ->
    exists h' lv',
      PreprocessTemplate f (Some n) h = Ok (tt, h')
      /\ tidy lv' L h' /\ length h <= length h'
      /\ (forall x, x < length h -> lv' x = lv x).


(* ================================================================== *)
(** * Properties *)
(* ================================================================== *)

(** ** Trees: induction and unfolding *)

Lemma tree_rect_nested (P : tree -> Prop) :
  (forall a nd ks, Forall P ks -> P (T a nd ks)) -> forall t, P t.
Proof.
  intros step. fix self 1. intros [a nd ks]. apply step.
  induction ks as [|k r IH]; constructor; [apply self | exact IH].
Qed.

Lemma repr_unfold h a nd ks :
  repr h (T a nd ks) <->
  h !! a = Some nd
  /\ elems (Children nd) = map (fun k => Some (root k)) ks
  /\ Forall (repr h) ks.
Proof.
  simpl. split; intros (H1 & H2 & H3); (split; [|split]); try assumption.
  - clear H2. induction ks as [|k r IH]; [constructor|].
    destruct H3 as [Hk Hr]. constructor; [exact Hk | apply IH; exact Hr].
  - clear H2. induction H3; simpl; auto.
Qed.

Lemma depth_unfold a nd ks :
  depth (T a nd ks) = S (fold_right (fun k m => Nat.max (depth k) m) 0 ks).
Proof. reflexivity. Qed.

Lemma depth_kids ks f :
  fold_right (fun k m => Nat.max (depth k) m) 0 ks <= f ->
  Forall (fun k => depth k <= f) ks.
Proof.
  induction ks as [|k r IH]; simpl; intros H; constructor.
  - lia.
  - apply IH. lia.
Qed.

Lemma depth_pos t : 1 <= depth t.
Proof. destruct t. simpl. lia. Qed.

Lemma repr_root h t : repr h t -> h !! root t = Some (label t).
Proof. destruct t. simpl. tauto. Qed.

Lemma deref_root h t : repr h t -> deref h (Some (root t)) = Ok (label t).
Proof. intros H. simpl. rewrite (repr_root _ _ H). reflexivity. Qed.

(** ** [FlatList] *)

Lemma foldRes_app {A B} (f : B -> A -> res B) xs ys acc :
  foldRes f (xs ++ ys) acc = let? acc' := foldRes f xs acc in foldRes f ys acc'.
Proof.
  revert acc. induction xs as [|x r IH]; intros acc; simpl; [reflexivity|].
  destruct (f acc x); simpl; auto.
Qed.

Lemma FlatList_kids f h p ks :
  Forall (fun k => forall out prefix,
            repr h k -> depth k <= f ->
            FlatList f h (Some (root k)) out prefix = Ok (out ++ flat k prefix)) ks ->
  Forall (repr h) ks ->
  Forall (fun k => depth k <= f) ks ->
  forall out,
    foldRes (fun acc child => FlatList f h child acc p)
            (map (fun k => Some (root k)) ks) out
    = Ok (out ++ concat (map (fun k => flat k p) ks)).
Proof.
  induction 1 as [|k r Hk _ IH]; intros Hr Hd out; simpl.
  - rewrite app_nil_r. reflexivity.
  - inversion Hr; subst. inversion Hd; subst.
    rewrite Hk by assumption. simpl. rewrite IH by assumption.
    rewrite app_assoc. reflexivity.
Qed.

Lemma FlatList_flat t :
  forall fuel h out prefix,
    repr h t -> depth t <= fuel ->
    FlatList fuel h (Some (root t)) out prefix = Ok (out ++ flat t prefix).
Proof.
  induction t as [a nd ks IH] using tree_rect_nested.
  intros fuel h out prefix Hr Hd.
  apply repr_unfold in Hr. destruct Hr as (Ha & Hc & Hks).
  rewrite depth_unfold in Hd. destruct fuel as [|f]; [lia|].
  cbn [FlatList root deref rbind]. rewrite Ha. cbn [rbind].
  rewrite Hc, length_map.
  destruct ks as [|k r]; [reflexivity|].
  cbn [length Nat.eqb].
  apply FlatList_kids with (f := f) (h := h)
    (p := extendPrefix prefix (GetNameS nd)) (out := out) in Hks.
  - exact Hks.
  - eapply Forall_impl; [exact IH|]. simpl. intros k0 Hk0 o p Hr0 Hd0.
    apply Hk0; assumption.
  - apply depth_kids. lia.
Qed.

(** C8. For a node whose children are [ks] in insertion order, the call
    [FlatList] appends to the list the entries that [FlatList] yields for
    each child alone, child after child from left to right, whatever the
    depths of the subtrees. *)
Theorem FlatList_left_to_right h a nd ks fuel out prefix :
  repr h (T a nd ks) -> ks <> [] -> depth (T a nd ks) <= fuel ->
  exists outs,
    Forall2 (fun k o =>
               FlatList fuel h (Some (root k)) []
                        (extendPrefix prefix (GetNameS nd)) = Ok o
               /\ o = flat k (extendPrefix prefix (GetNameS nd)))
            ks outs
    /\ FlatList fuel h (Some a) out prefix = Ok (out ++ concat outs).
Proof.
  intros Hr Hne Hd.
  exists (map (fun k => flat k (extendPrefix prefix (GetNameS nd))) ks).
  split.
  - apply repr_unfold in Hr. destruct Hr as (_ & _ & Hks).
    rewrite depth_unfold in Hd.
    assert (Hdk : Forall (fun k => depth k <= fuel) ks).
    { apply depth_kids. lia. }
    clear Hne Hd. induction Hks as [|k r Hk Hks IH]; simpl; constructor.
    + inversion Hdk; subst. split; [|reflexivity].
      rewrite (FlatList_flat k fuel h [] _ Hk) by assumption. reflexivity.
    + inversion Hdk; subst. apply IH. assumption.
  - pose proof (FlatList_flat (T a nd ks) fuel h out prefix Hr Hd) as E.
    cbn [root] in E. rewrite E.
    destruct ks; [congruence|]. reflexivity.
Qed.

(** ** [SearchChildren] *)

Lemma EqualStringSlice_eq a b : EqualStringSlice a b = true <-> a = b.
Proof.
  revert b. induction a as [|x a IH]; intros [|y b]; simpl;
    try (split; [discriminate|congruence]); [tauto|].
  rewrite andb_true_iff, String.eqb_eq, IH. split.
  - intros [-> ->]. reflexivity.
  - intros E. inversion E. auto.
Qed.

Lemma EqualStringSlice_length a b :
  EqualStringSlice a b = true -> length a = length b.
Proof. intros E. apply EqualStringSlice_eq in E. congruence. Qed.

(** The running path of [search] is the anchored form of the full path. *)
Lemma anchor_snoc p0 l x :
  anchor p0 (l ++ [x]) =
  if Nat.ltb 0 (length (anchor p0 l)) || String.eqb p0 x
  then anchor p0 l ++ [x] else anchor p0 l.
Proof.
  induction l as [|y l IH]; simpl.
  - destruct (String.eqb p0 x); reflexivity.
  - destruct (String.eqb p0 y); simpl; [reflexivity|exact IH].
Qed.

Lemma anchor_app_nonempty p0 l m :
  anchor p0 l <> [] -> anchor p0 (l ++ m) = anchor p0 l ++ m.
Proof.
  induction l as [|y l IH]; simpl; [congruence|].
  destruct (String.eqb p0 y); auto.
Qed.

Lemma walk_extends t :
  forall above e, In e (walk t above) ->
    exists more, more <> [] /\ snd e = above ++ more.
Proof.
  induction t as [a nd ks IH] using tree_rect_nested.
  intros above e. cbn [walk]. intros [<-|Hin].
  - exists [GetNameS nd]. split; [discriminate|reflexivity].
  - apply in_concat in Hin. destruct Hin as (l & Hl & He).
    apply in_map_iff in Hl. destruct Hl as (k & <- & Hk).
    rewrite Forall_forall in IH.
    destruct (IH k (proj2 (list_elem_of_In _ _) Hk) _ _ He) as (more & Hm & Hs).
    exists (GetNameS nd :: more). split; [discriminate|].
    rewrite Hs, <- app_assoc. reflexivity.
Qed.

(** Below a vertex whose running path is already as long as the target,
    nothing matches. *)
Lemma no_match_below path t above :
  path <> [] ->
  length path <= length (anchor (hd "" path) above) ->
  List.filter (anchoredAt path) (walk t above) = [].
Proof.
  intros Hne Hlen.
  destruct path as [|p0 rest]; [congruence|]. cbn [hd] in Hlen.
  assert (Hnz : anchor p0 above <> []).
  { intros E. rewrite E in Hlen. simpl in Hlen. lia. }
  generalize (walk_extends t above). intros Hx.
  assert (Hall : forall e, In e (walk t above) -> anchoredAt (p0 :: rest) e = false).
  { intros e0 He0. destruct (Hx e0 He0) as (more & Hm & Hs).
    unfold anchoredAt. rewrite Hs, anchor_app_nonempty by assumption.
    destruct (EqualStringSlice _ _) eqn:Eq; [|reflexivity].
    apply EqualStringSlice_length in Eq. rewrite length_app in Eq.
    destruct more; [congruence|]. simpl in Eq, Hlen. lia. }
  clear -Hall. induction (walk t above) as [|e l IH]; [reflexivity|].
  cbn [List.filter]. rewrite (Hall e (or_introl eq_refl)). apply IH.
  intros e0 He0. apply Hall. right. exact He0.
Qed.

Lemma filter_concat_nil {A B} (P : B -> bool) (f : A -> list B) ks :
  (forall k, In k ks -> List.filter P (f k) = []) ->
  List.filter P (concat (map f ks)) = [].
Proof.
  induction ks as [|k r IH]; intros H; simpl; [reflexivity|].
  rewrite List.filter_app, H by (left; reflexivity).
  apply IH. intros k0 Hk0. apply H. right. exact Hk0.
Qed.

Lemma search_kids f h path cur above' ks :
  Forall (fun k => forall matches,
            search f h path (Some (root k)) cur matches
            = Ok (matches ++ map (fun e => Some (fst e))
                                 (List.filter (anchoredAt path) (walk k above')))) ks ->
  forall matches,
    foldRes (fun acc child => search f h path child cur acc)
            (map (fun k => Some (root k)) ks) matches
    = Ok (matches ++ map (fun e => Some (fst e))
            (List.filter (anchoredAt path)
               (concat (map (fun k => walk k above') ks)))).
Proof.
  induction 1 as [|k r Hk _ IH]; intros matches; simpl.
  - rewrite app_nil_r. reflexivity.
  - rewrite Hk. simpl. rewrite IH, List.filter_app, map_app, app_assoc.
    reflexivity.
Qed.

Lemma search_walk t :
  forall fuel h p0 rest above matches,
    repr h t -> depth t <= fuel ->
    length (anchor p0 above) < length (p0 :: rest) ->
    search fuel h (p0 :: rest) (Some (root t)) (anchor p0 above) matches
    = Ok (matches ++ map (fun e => Some (fst e))
            (List.filter (anchoredAt (p0 :: rest)) (walk t above))).
Proof.
  induction t as [a nd ks IH] using tree_rect_nested.
  intros fuel h p0 rest above matches Hr Hd Hlen.
  apply repr_unfold in Hr. destruct Hr as (Ha & Hc & Hks).
  rewrite depth_unfold in Hd. destruct fuel as [|f]; [lia|].
  set (path := p0 :: rest) in *.
  set (cur := anchor p0 above) in *.
  set (above' := above ++ [GetNameS nd]).
  assert (Hnew : (if Nat.ltb 0 (length cur) || String.eqb p0 (GetNameS nd)
                  then cur ++ [GetNameS nd] else cur) = anchor p0 above').
  { unfold above', cur. rewrite anchor_snoc. reflexivity. }
  assert (Hstep : search (S f) h path (Some a) cur matches =
    if EqualStringSlice (anchor p0 above') path then Ok (matches ++ [Some a])
    else if Nat.ltb (length (anchor p0 above')) (length path)
         then foldRes (fun acc child => search f h path child (anchor p0 above') acc)
                      (elems (GetChildren nd)) matches
         else Ok matches).
  { cbn [search]. unfold path at 1. cbn [deref]. rewrite Ha. cbn [rbind].
    destruct (Nat.ltb 0 (length cur)) eqn:E0; cbn [rbind orb] in *;
      rewrite <- Hnew; reflexivity. }
  cbn [root]. rewrite Hstep. clear Hstep Hnew.
  cbn [walk]. fold above'. cbn [List.filter].
  change (anchoredAt path (a, above')) with
    (EqualStringSlice (anchor p0 above') path).
  destruct (EqualStringSlice (anchor p0 above') path) eqn:Eq.
  - rewrite filter_concat_nil; [reflexivity|].
    intros k _. apply no_match_below; [discriminate|].
    apply EqualStringSlice_length in Eq. unfold path. cbn [hd].
    fold path. lia.
  - destruct (Nat.ltb (length (anchor p0 above')) (length path)) eqn:El.
    + apply Nat.ltb_lt in El. unfold GetChildren. rewrite Hc.
      apply search_kids.
      assert (Hdk : Forall (fun k => depth k <= f) ks) by (apply depth_kids; lia).
      clear Hc Hd. induction IH as [|k r Hk _ IHr]; constructor.
      * intros m. inversion Hks; subst. inversion Hdk; subst.
        apply Hk; assumption.
      * inversion Hks; subst. inversion Hdk; subst. apply IHr; assumption.
    + apply Nat.ltb_ge in El.
      rewrite filter_concat_nil; [rewrite app_nil_r; reflexivity|].
      intros k _. apply no_match_below; [discriminate|].
      unfold path. cbn [hd]. fold path. exact El.
Qed.

(** C5 (amended). For a non-empty path, [SearchChildren] returns exactly
    the vertices whose anchored name path equals the path: the name path
    from the search root with the leading names that differ from the first
    segment dropped.  They are returned in pre-order. *)
Theorem SearchChildren_anchored h t fuel p0 rest :
  repr h t -> depth t <= fuel ->
  SearchChildren fuel h (Some (root t)) (p0 :: rest)
  = Ok (map (fun e => Some (fst e))
          (List.filter (anchoredAt (p0 :: rest)) (walk t []))).
Proof.
  intros Hr Hd. unfold SearchChildren.
  apply (search_walk t fuel h p0 rest [] [] Hr Hd). simpl. lia.
Qed.

(** ** Byte strings: append and reverse *)

Lemma sapp_nil_r s : s +:+ "" = s.
Proof. induction s; simpl; congruence. Qed.

Lemma sapp_assoc a b c : (a +:+ b) +:+ c = a +:+ (b +:+ c).
Proof. induction a; simpl; congruence. Qed.

Lemma sapp_length a b : String.length (a +:+ b) = String.length a + String.length b.
Proof. induction a as [|c a IH]; simpl; [reflexivity|rewrite IH; reflexivity]. Qed.

Lemma rev_app_spec s t : String.rev_app s t = String.rev s +:+ t.
Proof.
  revert t. induction s as [|a s IH]; intros t; [reflexivity|].
  unfold String.rev. simpl. rewrite (IH (String a t)), (IH (String a "")).
  rewrite sapp_assoc. reflexivity.
Qed.

Lemma srev_cons a s : String.rev (String a s) = String.rev s +:+ String a "".
Proof. unfold String.rev at 1. simpl. apply rev_app_spec. Qed.

Lemma srev_app s t : String.rev (s +:+ t) = String.rev t +:+ String.rev s.
Proof.
  induction s as [|a s IH]; simpl.
  - rewrite sapp_nil_r. reflexivity.
  - rewrite !srev_cons, IH, sapp_assoc. reflexivity.
Qed.

Lemma srev_involutive s : String.rev (String.rev s) = s.
Proof.
  induction s as [|a s IH]; [reflexivity|].
  rewrite srev_cons, srev_app, IH. reflexivity.
Qed.

Lemma srev_length s : String.length (String.rev s) = String.length s.
Proof.
  induction s as [|a s IH]; [reflexivity|].
  rewrite srev_cons, sapp_length, IH. simpl. lia.
Qed.

(** ** [TrimSpace] cuts exactly the white space at both ends *)

Section TrimFront.
Variable p1 : ascii -> bool.
Variable p2 : ascii -> ascii -> bool.
Variable p3 : ascii -> ascii -> ascii -> bool.

Local Abbreviation ok := (seqOK p1 p2 p3).
Local Abbreviation trim := (trimFront p1 p2 p3).

Lemma trimFront_split_n n :
  forall s, String.length s <= n ->
    exists l, s = l +:+ trim s /\ runs ok l.
Proof.
  induction n as [|n IH]; intros s Hn.
  - destruct s; [|simpl in Hn; lia]. exists "". split; [reflexivity|constructor].
  - destruct s as [|a r1]; [exists ""; split; [reflexivity|constructor]|].
    simpl in Hn. cbn [trimFront].
    destruct (p1 a) eqn:E1.
    { destruct (IH r1 ltac:(lia)) as (l & Hl & Hr).
      exists (String a "" +:+ l). split.
      - simpl. f_equal. exact Hl.
      - constructor; [exact E1|exact Hr]. }
    destruct r1 as [|b r2]; [exists ""; split; [reflexivity|constructor]|].
    simpl in Hn.
    destruct (p2 a b) eqn:E2.
    { destruct (IH r2 ltac:(lia)) as (l & Hl & Hr).
      exists (String a (String b "") +:+ l). split.
      - simpl. do 2 f_equal. exact Hl.
      - constructor; [exact E2|exact Hr]. }
    destruct r2 as [|c r3]; [exists ""; split; [reflexivity|constructor]|].
    simpl in Hn.
    destruct (p3 a b c) eqn:E3.
    { destruct (IH r3 ltac:(lia)) as (l & Hl & Hr).
      exists (String a (String b (String c "")) +:+ l). split.
      - simpl. do 3 f_equal. exact Hl.
      - constructor; [exact E3|exact Hr]. }
    exists "". split; [reflexivity|constructor].
Qed.

Lemma trimFront_split s : exists l, s = l +:+ trim s /\ runs ok l.
Proof. apply (trimFront_split_n (String.length s)). lia. Qed.

Lemma seqOK_prefix w r :
  ok w = true ->
  match w +:+ r with
  | String a r1 =>
      p1 a = true
      \/ match r1 with
         | String b r2 =>
             p2 a b = true
             \/ match r2 with
                | String c _ => p3 a b c = true
                | EmptyString => False
                end
         | EmptyString => False
         end
  | EmptyString => False
  end.
Proof.
  unfold seqOK.
  destruct w as [|a [|b [|c [|d w]]]]; try discriminate; simpl; auto.
Qed.

Lemma trimFront_noLeading_n n :
  forall s, String.length s <= n -> noLeading ok (trim s).
Proof.
  induction n as [|n IH]; intros s Hn.
  - destruct s; [|simpl in Hn; lia]. intros w r Hw E.
    apply (seqOK_prefix w r) in Hw. rewrite <- E in Hw. exact Hw.
  - destruct s as [|a r1].
    { intros w r Hw E. apply (seqOK_prefix w r) in Hw. rewrite <- E in Hw.
      exact Hw. }
    simpl in Hn. cbn [trimFront].
    destruct (p1 a) eqn:E1; [apply IH; lia|].
    destruct r1 as [|b r2].
    { intros w r Hw E. apply (seqOK_prefix w r) in Hw. rewrite <- E in Hw.
      destruct Hw as [Hw|[]]. congruence. }
    simpl in Hn.
    destruct (p2 a b) eqn:E2; [apply IH; lia|].
    destruct r2 as [|c r3].
    { intros w r Hw E. apply (seqOK_prefix w r) in Hw. rewrite <- E in Hw.
      destruct Hw as [Hw|[Hw|[]]]; congruence. }
    destruct (p3 a b c) eqn:E3; [apply IH; simpl in Hn; lia|].
    intros w r Hw E. apply (seqOK_prefix w r) in Hw. rewrite <- E in Hw.
    destruct Hw as [Hw|[Hw|Hw]]; congruence.
Qed.

Lemma trimFront_noLeading s : noLeading ok (trim s).
Proof. apply (trimFront_noLeading_n (String.length s)). lia. Qed.
End TrimFront.

Lemma runs_app ok a b : runs ok a -> runs ok b -> runs ok (a +:+ b).
Proof.
  induction 1 as [|w s Hw _ IH]; intros Hb; [exact Hb|].
  rewrite sapp_assoc. constructor; [exact Hw|apply IH; exact Hb].
Qed.

Lemma seqOK_length p1 p2 p3 w :
  seqOK p1 p2 p3 w = true -> 1 <= String.length w <= 3.
Proof.
  destruct w as [|a [|b [|c [|d w]]]]; simpl; try discriminate; lia.
Qed.

Lemma seqOK_rev p1 p2 p3 w :
  seqOK p1 (fun a b => p2 b a) (fun a b c => p3 c b a) w
  = seqOK p1 p2 p3 (String.rev w).
Proof.
  destruct w as [|a [|b [|c [|d w]]]]; try reflexivity.
  destruct (seqOK p1 p2 p3 (String.rev _)) eqn:E; [|reflexivity].
  apply seqOK_length in E. rewrite srev_length in E. simpl in E. lia.
Qed.

Lemma runs_rev p1 p2 p3 l :
  runs (seqOK p1 (fun a b => p2 b a) (fun a b c => p3 c b a)) l ->
  runs (seqOK p1 p2 p3) (String.rev l).
Proof.
  induction 1 as [|w s Hw _ IH]; [constructor|].
  rewrite srev_app. apply runs_app; [exact IH|].
  rewrite <- (sapp_nil_r (String.rev w)). constructor; [|constructor].
  rewrite <- seqOK_rev. exact Hw.
Qed.

Lemma TrimLeft_split s : exists l, s = l +:+ TrimLeft s /\ spaces l.
Proof. apply trimFront_split. Qed.

Lemma TrimLeft_noLeading s : noLeading spaceSeq (TrimLeft s).
Proof. apply trimFront_noLeading. Qed.

Lemma TrimRight_split s : exists r, s = TrimRight s +:+ r /\ spaces r.
Proof.
  destruct (trimFront_split isSpace1 (fun a b => isSpace2 b a)
              (fun a b c => isSpace3 c b a) (String.rev s)) as (l & Hl & Hr).
  exists (String.rev l). split.
  - rewrite <- (srev_involutive s) at 1. rewrite Hl, srev_app. reflexivity.
  - apply runs_rev. exact Hr.
Qed.

Lemma TrimRight_noTrailing s : noTrailing spaceSeq (TrimRight s).
Proof.
  intros w l Hw E.
  apply (trimFront_noLeading isSpace1 (fun a b => isSpace2 b a)
           (fun a b c => isSpace3 c b a) (String.rev s)
           (String.rev w) (String.rev l)).
  - rewrite seqOK_rev, srev_involutive. exact Hw.
  - unfold TrimRight, TrimLeftRev in E.
    rewrite <- srev_app, <- E, srev_involutive. reflexivity.
Qed.

Lemma TrimSpace_trimmed s : trimmed s (TrimSpace s).
Proof.
  destruct (TrimLeft_split s) as (l & Hl & Hls).
  destruct (TrimRight_split (TrimLeft s)) as (r & Hr & Hrs).
  exists l, r. repeat split.
  - rewrite Hl at 1. rewrite Hr at 1. reflexivity.
  - exact Hls.
  - exact Hrs.
  - intros w x Hw E. apply (TrimLeft_noLeading s w (x +:+ r) Hw).
    rewrite Hr. unfold TrimSpace in E. rewrite E, sapp_assoc. reflexivity.
  - apply TrimRight_noTrailing.
Qed.

(** ** Content accessors *)

Lemma GetContent_marker n :
  GetContent n =
  if startsWithMarker (TrimSpace (Content n)) then "" else TrimSpace (Content n).
Proof.
  unfold GetContent, startsWithMarker.
  destruct (TrimSpace (Content n)) as [|c r]; [reflexivity|].
  destruct (Ascii.eqb c "<"); reflexivity.
Qed.

Lemma GetChildS_GetChild h n nm : GetChildS h n nm = GetChild h n nm.
Proof. reflexivity. Qed.

(** C9. [GetContent] is the content with the white space cut at both ends,
    or empty when that begins with ['<']; [GetContentS] is the raw content;
    [GetChildContent] and [GetChildContentS] hand out the one and the other
    for the child found, and there are stores on which they differ. *)
Theorem GetContent_effective_vs_raw h n nm child cn :
  GetChild h n nm = Ok (Some child) -> h !! child = Some cn ->
  (exists t, trimmed (Content cn) t
             /\ GetContent cn = if startsWithMarker t then "" else t)
  /\ GetContentS cn = Content cn
  /\ GetChildContent h n nm = Ok (GetContent cn)
  /\ GetChildContentS h n nm = Ok (GetContentS cn)
  /\ (exists h' n' nm',
        GetChildContent h' n' nm' = Ok ""
        /\ GetChildContentS h' n' nm' = Ok "  <v>  ").
Proof.
  intros Hc Hn. repeat split.
  - exists (TrimSpace (Content cn)). split;
      [apply TrimSpace_trimmed|apply GetContent_marker].
  - unfold GetChildContent. rewrite Hc. simpl. rewrite Hn. reflexivity.
  - unfold GetChildContentS. rewrite GetChildS_GetChild, Hc. simpl.
    rewrite Hn. reflexivity.
  - exists markupStore, (Some 0), "k". split; reflexivity.
Qed.

Lemma GetContent_effective_vs_raw_witness :
  GetChildContent markupStore (Some 0) "k" = Ok ""
  /\ GetChildContentS markupStore (Some 0) "k" = Ok "  <v>  ".
Proof.
  destruct (GetContent_effective_vs_raw markupStore (Some 0) "k" 1
              (mkNode (Some 0) "k" noName [] "  <v>  " None)
              eq_refl eq_refl) as (_ & _ & H1 & H2 & _).
  split; [exact H1|exact H2].
Defined.

(** ** [PopChild] *)

Lemma findIndex_hit h nm (l1 : list ptr) (c : addr) cn (l2 : list ptr) i :
  Forall (otherChild h nm) l1 -> h !! c = Some cn -> GetName cn = nm ->
  findIndex h (l1 ++ Some c :: l2) nm i = Ok (Some (i + length l1)).
Proof.
  intros Hl1 Hc Hn. revert i.
  induction Hl1 as [|p r (x & xd & -> & Hx & Hne) _ IH]; intros i; simpl.
  - rewrite Hc. simpl. rewrite Hn, String.eqb_refl. f_equal. f_equal. lia.
  - rewrite Hx. simpl. apply String.eqb_neq in Hne. rewrite Hne.
    rewrite IH. f_equal. f_equal. lia.
Qed.

Lemma findIndex_miss h nm l i :
  Forall (otherChild h nm) l -> findIndex h l nm i = Ok None.
Proof.
  intros Hl. revert i.
  induction Hl as [|p r (x & xd & -> & Hx & Hne) _ IH]; intros i; simpl.
  - reflexivity.
  - rewrite Hx. simpl. apply String.eqb_neq in Hne. rewrite Hne. apply IH.
Qed.

(** C10. When the first child named [nm] is [c], with [l1] before it and
    [l2] after it, [PopChild] returns [c] and leaves [l1], then the last
    element of [l2] in the place of [c], then the rest of [l2] (so the
    last child overtakes the others); when no child is named [nm], it
    returns nil and the store is unchanged. *)
Theorem PopChild_moves_last h a nd nm :
  h !! a = Some nd ->
  (forall (l1 : list ptr) (c : addr) cn (l2 : list ptr),
      elems (Children nd) = l1 ++ Some c :: l2 ->
      Forall (otherChild h nm) l1 -> h !! c = Some cn -> GetName cn = nm ->
      PopChild (Some a) nm h
      = Ok (Some c,
            <[a := set_Children
                     (Some (l1 ++ match last l2 with
                                  | Some z => z :: take (length l2 - 1) l2
                                  | None => []
                                  end)) nd]> h))
  /\ (Forall (otherChild h nm) (elems (Children nd)) ->
      PopChild (Some a) nm h = Ok (None, h)).
Proof.
  intros Ha. split.
  - intros l1 c cn l2 Hsplit Hl1 Hc Hn.
    unfold PopChild, bind, read, ret, modify. simpl. rewrite Ha. simpl.
    rewrite Hsplit, (findIndex_hit h nm l1 c cn l2 0 Hl1 Hc Hn). simpl.
    rewrite list_lookup_middle by reflexivity.
    rewrite last_app_cons.
    assert (Hins : forall z, take (length (l1 ++ Some c :: l2) - 1)
                     (<[length l1 := z]> (l1 ++ Some c :: l2))
                   = l1 ++ take (length l2) (z :: l2)).
    { intros z. rewrite (insert_app_r_alt l1 (Some c :: l2) (length l1) z) by lia.
      rewrite Nat.sub_diag. simpl. rewrite length_app. simpl.
      rewrite take_app_ge by lia. f_equal. f_equal. lia. }
    destruct (last l2) as [z|] eqn:El.
    + assert (Hl : last (Some c :: l2) = Some z).
      { destruct l2; [discriminate|]. rewrite last_cons_cons. exact El. }
      rewrite Hl, Ha, Hins. do 4 f_equal.
      destruct l2; [discriminate|]. simpl. rewrite Nat.sub_0_r. reflexivity.
    + assert (l2 = []) as ->.
      { destruct l2 as [|y l2] using rev_ind; [reflexivity|].
        rewrite last_snoc in El. discriminate. }
      simpl. rewrite Ha, Hins. reflexivity.
  - intros Hall.
    unfold PopChild, bind, read, ret. simpl. rewrite Ha. simpl.
    rewrite (findIndex_miss h nm _ 0 Hall). reflexivity.
Qed.

Lemma PopChild_moves_last_witness :
  PopChild (Some 0) "A" abcStore
  = Ok (Some 1,
        [ mkNode None "p" noName [] "" (Some [Some 3; Some 2]);
          mkNode (Some 0) "A" noName [] "1" None;
          mkNode (Some 0) "B" noName [] "2" None;
          mkNode (Some 0) "C" noName [] "3" None ])
  /\ PopChild (Some 0) "Z" abcStore = Ok (None, abcStore).
Proof.
  destruct (PopChild_moves_last abcStore 0
              (mkNode None "p" noName [] "" (Some [Some 1; Some 2; Some 3]))
              "A" eq_refl) as [Hhit _].
  destruct (PopChild_moves_last abcStore 0
              (mkNode None "p" noName [] "" (Some [Some 1; Some 2; Some 3]))
              "Z" eq_refl) as [_ Hmiss].
  split.
  - apply (Hhit [] 1 (mkNode (Some 0) "A" noName [] "1" None) [Some 2; Some 3]);
      [reflexivity | constructor | reflexivity | reflexivity].
  - apply Hmiss. simpl. repeat constructor.
    + exists 1; eexists; repeat split; discriminate.
    + exists 2; eexists; repeat split; discriminate.
    + exists 3; eexists; repeat split; discriminate.
Defined.

Lemma FlatList_left_to_right_witness :
  exists outs,
    Forall2 (fun k o =>
               FlatList 4 xyzStore (Some (root k)) [] "root" = Ok o
               /\ o = flat k "root")
            [xTree; yTree; zTree] outs
    /\ FlatList 4 xyzStore (Some 0) [] ""
       = Ok ([] ++ concat outs).
Proof.
  apply (FlatList_left_to_right xyzStore 0 (xyzNode 0) [xTree; yTree; zTree]
           4 [] "").
  - simpl. repeat split.
  - discriminate.
  - simpl. lia.
Defined.

Example FlatList_xyz :
  FlatList 4 xyzStore (Some 0) [] "" = Ok ["root X x1"; "root y-val"; "root c z_1"].
Proof. reflexivity. Qed.

Lemma SearchChildren_anchored_witness :
  SearchChildren 4 xyzStore (Some 0) ["X"; "x"] = Ok [Some 4].
Proof.
  apply (SearchChildren_anchored xyzStore xyzTree 4 "X" ["x"]).
  - simpl. repeat split.
  - simpl. lia.
Defined.

(** C5, as stated, fails: the vertices returned need not have the path
    as their full name path from the search root.  In [xyzStore] the
    search for [X/x] from the root returns the vertex at address 4, whose
    full name path is [root/X/x]. *)
Lemma SearchChildren_full_path_fails :
  ~ (forall h t fuel path,
        repr h t -> depth t <= fuel ->
        SearchChildren fuel h (Some (root t)) path
        = Ok (map (fun e => Some (fst e))
                (List.filter (fullAt path) (walk t [])))).
Proof.
  intros H.
  specialize (H xyzStore xyzTree 4 ["X"; "x"]).
  assert (Hr : repr xyzStore xyzTree) by (simpl; repeat split).
  assert (Hd : depth xyzTree <= 4) by (simpl; lia).
  specialize (H Hr Hd). vm_compute in H. discriminate H.
Qed.

(** A search with an empty path reads [path[0]] at the root and panics. *)
Lemma SearchChildren_empty_path fuel h n :
  SearchChildren (S fuel) h n [] = Panic.
Proof. reflexivity. Qed.

(** ** [Merge] and [Union] on a nil argument *)

(** C2 (amended). [Merge] with a nil subtemplate returns at once and
    leaves the whole store, hence the receiver's name, content, attributes
    and children, as it was. *)
Theorem Merge_nil_noop fuel n skipOverwrite h :
  Merge fuel n None skipOverwrite h = Ok (tt, h).
Proof. destruct fuel; reflexivity. Qed.

(** C2, as stated, fails for [Union]: it reads the content or the
    children of its argument without a nil test, so a nil source panics,
    whether the receiver has content or not. *)
Lemma Union_nil_panics :
  ~ (forall fuel n h, exists h', Union (S fuel) n None h = Ok (tt, h') /\ h' = h).
Proof.
  intros H. destruct (H 0 (Some 0) [New "base"]) as (h' & E & _).
  vm_compute in E. discriminate E.
Qed.

Example Union_nil_with_content :
  Union 1 (Some 0) None [set_Content "kept" (New "base")] = Panic.
Proof. reflexivity. Qed.

(** ** [Union]: what happens on a name collision *)

Lemma findFirst_names h cs v : findFirst GetNameS h cs v = findFirst GetName h cs v.
Proof. reflexivity. Qed.

(** C1 (amended). When the receiver already has a child named like the
    source child, [Union] recurses into that receiver child exactly when
    the child slice of the SOURCE child is not nil; otherwise the raw
    content of the source child overwrites the content of the receiver
    child. *)
Theorem UnionChild_collision rec h n child cn m md :
  deref h child = Ok cn ->
  GetChild h n (GetName cn) = Ok (Some m) ->
  h !! m = Some md ->
  UnionChild rec n child h =
  match Children cn with
  | Some _ => rec (Some m) child h
  | None => Ok (tt, <[m := set_Content (Content cn) md]> h)
  end.
Proof.
  intros Hc Hm Hmd.
  unfold UnionChild, bind, read, HasChild. rewrite Hc, Hm. simpl.
  unfold GetChildren. destruct (Children cn) as [ks|].
  - rewrite Hm. reflexivity.
  - unfold SetChildContentS, bind, read. rewrite GetChildS_GetChild.
    change (GetNameS cn) with (GetName cn). rewrite Hm.
    unfold SetContentS, SetContent, modify. rewrite Hmd. reflexivity.
Qed.

Lemma UnionChild_collision_witness :
  UnionChild (Union 2) (Some 0) (Some 5) unionStore
  = Ok (tt, <[1 := mkNode (Some 0) "A" noName [] "2" (Some [Some 2])]> unionStore)
  /\ UnionChild (Union 2) (Some 0) (Some 6) unionStore
     = Union 2 (Some 3) (Some 6) unionStore.
Proof.
  split.
  - apply (UnionChild_collision (Union 2) unionStore (Some 0) (Some 5)
             (mkNode (Some 4) "A" noName [] "2" None) 1
             (mkNode (Some 0) "A" noName [] "1" (Some [Some 2])));
      reflexivity.
  - apply (UnionChild_collision (Union 2) unionStore (Some 0) (Some 6)
             (mkNode (Some 4) "B" noName [] "c" (Some [Some 7])) 3
             (mkNode (Some 0) "B" noName [] "b" None));
      reflexivity.
Defined.

(** C1, as stated, fails: the test is not on the receiver's child.  In
    [unionStore] the receiver's [A] has a child, yet its content is
    overwritten by the source's leaf [A] and there is no recursion. *)
Lemma UnionChild_receiver_test_fails :
  ~ (forall rec h n child cn m md,
        deref h child = Ok cn ->
        GetChild h n (GetName cn) = Ok (Some m) ->
        h !! m = Some md ->
        UnionChild rec n child h =
        if hasChildren md then rec (Some m) child h
        else Ok (tt, <[m := set_Content (Content cn) md]> h)).
Proof.
  intros H.
  specialize (H (fun _ _ _ => Panic) unionStore (Some 0) (Some 5)
                (mkNode (Some 4) "A" noName [] "2" None) 1
                (mkNode (Some 0) "A" noName [] "1" (Some [Some 2]))
                eq_refl eq_refl eq_refl).
  vm_compute in H. discriminate H.
Qed.

Example Union_unionStore :
  Union 3 (Some 0) (Some 4) unionStore
  = Ok (tt,
        [ mkNode None "base" noName [] "" (Some [Some 1; Some 3]);
          mkNode (Some 0) "A" noName [] "2" (Some [Some 2]);
          mkNode (Some 1) "a1" noName [] "x" None;
          mkNode (Some 0) "B" noName [] "b" (Some [Some 7]);
          mkNode None "src" noName [] "" (Some [Some 5; Some 6]);
          mkNode (Some 4) "A" noName [] "2" None;
          mkNode (Some 4) "B" noName [] "c" (Some [Some 7]);
          mkNode (Some 6) "b1" noName [] "y" None ]).
Proof. reflexivity. Qed.

(** ** [Copy] *)

Lemma similar_unfold a nd ks a' nd' ks' :
  similar (T a nd ks) (T a' nd' ks') <->
  GetName nd' = GetName nd /\ Content nd' = GetContent nd
  /\ Attrs nd' = [] /\ parent nd' = None /\ Forall2 similar ks ks'.
Proof.
  simpl. split; intros (H1 & H2 & H3 & H4 & H5); repeat (split; [assumption|]).
  - revert ks' H5. induction ks as [|k r IH]; intros [|k' r'] H5;
      try contradiction; constructor; destruct H5; auto.
  - induction H5; simpl; auto.
Qed.

Lemma repr_agree h h' t :
  repr h t -> (forall b, In b (addrs t) -> h' !! b = h !! b) -> repr h' t.
Proof.
  induction t as [a nd ks IH] using tree_rect_nested.
  intros Hr Hag. apply repr_unfold in Hr. destruct Hr as (Ha & Hc & Hks).
  apply repr_unfold. repeat split.
  - rewrite Hag; [exact Ha|]. simpl. left. reflexivity.
  - exact Hc.
  - assert (Hag' : forall b, In b (concat (map addrs ks)) -> h' !! b = h !! b).
    { intros b Hb. apply Hag. simpl. right. exact Hb. }
    clear Hag Hc Ha. induction IH as [|k r Hk _ IHr]; constructor.
    + inversion Hks; subst. apply Hk; [assumption|].
      intros b Hb. apply Hag'. simpl. apply in_or_app. left. exact Hb.
    + inversion Hks; subst. apply IHr; [assumption|].
      intros b Hb. apply Hag'. simpl. apply in_or_app. right. exact Hb.
Qed.

Lemma repr_addrs_lt h t : repr h t -> Forall (fun b => b < length h) (addrs t).
Proof.
  induction t as [a nd ks IH] using tree_rect_nested.
  intros Hr. apply repr_unfold in Hr. destruct Hr as (Ha & _ & Hks).
  simpl. constructor; [eapply lookup_lt_Some; exact Ha|].
  clear Ha. induction IH as [|k r Hk _ IHr]; simpl; [constructor|].
  inversion Hks; subst. apply Forall_app. split; auto.
Qed.

Lemma heap_extends (h h' : heap) :
  length h <= length h' -> (forall a, a < length h -> h' !! a = h !! a) ->
  h' = h ++ drop (length h) h'.
Proof.
  intros Hl Hag. rewrite <- (take_drop (length h) h') at 1. f_equal.
  apply list_eq. intros i. destruct (decide (i < length h)) as [Hi|Hi].
  - rewrite lookup_take_lt by exact Hi. apply Hag. exact Hi.
  - rewrite lookup_take_ge by lia. symmetry. apply lookup_ge_None. lia.
Qed.

Lemma GetName_clone nd :
  GetName (if String.eqb (GetXMLNameS nd) "" then New (GetName nd)
           else NewXML (GetName nd)) = GetName nd.
Proof.
  destruct (String.eqb (GetXMLNameS nd) "") eqn:E.
  - reflexivity.
  - unfold GetName at 1. unfold GetXMLNameS at 1. simpl.
    unfold GetName. rewrite E, E. reflexivity.
Qed.

(** Stepping through the monad. *)
Lemma bind_ok {A B} (m : M A) (k : A -> M B) h a h' :
  m h = Ok (a, h') -> bind m k h = k a h'.
Proof. unfold bind. intros ->. reflexivity. Qed.

Lemma read_ok {A} (f : heap -> res A) h a : f h = Ok a -> read f h = Ok (a, h).
Proof. unfold read. intros ->. reflexivity. Qed.

Lemma modify_ok a g (h : heap) n :
  h !! a = Some n -> modify (Some a) g h = Ok (tt, <[a := g n]> h).
Proof. unfold modify. intros ->. reflexivity. Qed.

Lemma deref_ok (h : heap) a n : h !! a = Some n -> deref h (Some a) = Ok n.
Proof. unfold deref. intros ->. reflexivity. Qed.

Lemma Copy_kids f c ks :
  Forall (copySpec f) ks ->
  forall hi cl,
    c < length hi -> hi !! c = Some cl ->
    Forall (repr hi) ks ->
    Forall (fun k => Forall (fun b => b < c) (addrs k)) ks ->
    Forall (fun k => depth k <= f) ks ->
    exists h' ts' cs',
      forM (map (fun k => Some (root k)) ks)
           (fun child =>
              let* x := Copy f child in
              modify (Some c) (fun cl => set_Children (append (Children cl) x) cl))
           hi = Ok (tt, h')
      /\ length hi <= length h'
      /\ (forall a, a < length hi -> a <> c -> h' !! a = hi !! a)
      /\ h' !! c = Some (set_Children cs' cl)
      /\ elems cs' = elems (Children cl) ++ map (fun t' => Some (root t')) ts'
      /\ Forall (repr h') ts'
      /\ Forall (fun t' => Forall (fun b => length hi <= b) (addrs t')) ts'
      /\ Forall2 similar ks ts'.
Proof.
  induction 1 as [|k r Hk _ IH]; intros hi cl Hc Hcl Hrep Hbel Hdep.
  - exists hi, [], (Children cl). simpl. repeat split; auto.
    + rewrite Hcl. destruct cl; reflexivity.
    + rewrite app_nil_r. reflexivity.
  - inversion Hrep as [|? ? Hrk Hrr]; subst.
    inversion Hbel as [|? ? Hbk Hbr]; subst.
    inversion Hdep as [|? ? Hdk Hdr]; subst.
    destruct (Hk hi Hrk Hdk) as (h1 & tk & Ecopy & Hlen1 & Hag1 & Hrtk & Hroot & Hsim & Hfresh).
    set (cl1 := set_Children (append (Children cl) (Some (length hi))) cl).
    assert (Hc1 : h1 !! c = Some cl) by (rewrite Hag1 by exact Hc; exact Hcl).
    set (h2 := <[c := cl1]> h1).
    assert (Hlen2 : length h2 = length h1) by apply length_insert.
    destruct (IH h2 cl1) as (h' & ts' & cs' & Eloop & Hlen' & Hag' & Hcl' & Hel & Hrts & Hfr & Hsims).
    { lia. }
    { unfold h2. apply list_lookup_insert_eq. lia. }
    { rewrite Forall_forall in Hrr, Hbr |- *. intros k0 Hk0.
      apply (repr_agree hi); [apply Hrr; exact Hk0|].
      intros b Hb. specialize (Hbr k0 Hk0). rewrite Forall_forall in Hbr.
      assert (b < c) by (apply Hbr; apply list_elem_of_In; exact Hb).
      unfold h2. rewrite list_lookup_insert_ne by lia. apply Hag1. lia. }
    { exact Hbr. }
    { exact Hdr. }
    exists h', (tk :: ts'), cs'. repeat split.
    + cbn [map forM]. erewrite bind_ok.
      2:{ erewrite bind_ok; [|exact Ecopy]. apply modify_ok. exact Hc1. }
      exact Eloop.
    + lia.
    + intros a Ha Hne. rewrite Hag' by lia. unfold h2.
      rewrite list_lookup_insert_ne by lia. apply Hag1. exact Ha.
    + rewrite Hcl'. reflexivity.
    + rewrite Hel. unfold cl1. simpl. rewrite Hroot, <- app_assoc. reflexivity.
    + constructor; [|exact Hrts].
      apply (repr_agree h1); [exact Hrtk|]. intros b Hb.
      pose proof (repr_addrs_lt _ _ Hrtk) as Hlt.
      rewrite Forall_forall in Hlt, Hfresh.
      apply list_elem_of_In in Hb.
      specialize (Hlt b Hb). specialize (Hfresh b Hb). simpl in Hlt, Hfresh.
      rewrite Hag' by lia. unfold h2. apply list_lookup_insert_ne. lia.
    + constructor; [exact Hfresh|].
      eapply Forall_impl; [exact Hfr|]. simpl. intros t0 Ht0.
      eapply Forall_impl; [exact Ht0|]. simpl. intros b Hb. lia.
    + constructor; assumption.
Qed.

Lemma Copy_spec t : forall fuel, copySpec fuel t.
Proof.
  induction t as [a nd ks IH] using tree_rect_nested.
  intros fuel h Hr Hd.
  pose proof (repr_addrs_lt _ _ Hr) as Hlt.
  apply repr_unfold in Hr. destruct Hr as (Ha & Hc & Hks).
  rewrite depth_unfold in Hd. destruct fuel as [|f]; [lia|].
  set (c := length h).
  set (cl0 := if String.eqb (GetXMLNameS nd) "" then New (GetName nd)
              else NewXML (GetName nd)).
  set (cl1 := set_Content (GetContent nd) cl0).
  set (h1 := <[c := cl1]> (h ++ [cl0])).
  assert (Hlen1 : length h1 = S (length h)).
  { unfold h1. rewrite length_insert, length_app. simpl. lia. }
  assert (Hag1 : forall b, b < length h -> h1 !! b = h !! b).
  { intros b Hb. unfold h1, c. rewrite list_lookup_insert_ne by lia.
    apply lookup_app_l. exact Hb. }
  assert (Hbelow : Forall (fun k => Forall (fun b => b < c) (addrs k)) ks).
  { simpl in Hlt. inversion Hlt as [|? ? _ Hrest]; subst.
    clear -Hrest. induction ks as [|k r IHr]; constructor; simpl in Hrest;
      apply Forall_app in Hrest; destruct Hrest; auto. }
  destruct (Copy_kids f c ks) with (hi := h1) (cl := cl1)
    as (h' & ts' & cs' & Eloop & Hlen' & Hag' & Hcl' & Hel & Hrts & Hfr & Hsims).
  { eapply Forall_impl; [exact IH|]. intros k Hk. apply Hk. }
  { unfold c. lia. }
  { unfold h1. apply list_lookup_insert_eq. rewrite length_app. simpl.
    unfold c. lia. }
  { rewrite Forall_forall in Hks, Hbelow |- *. intros k Hk.
    apply (repr_agree h); [apply Hks; exact Hk|]. intros b Hb.
    apply Hag1. specialize (Hbelow k Hk). rewrite Forall_forall in Hbelow.
    apply Hbelow. apply list_elem_of_In. exact Hb. }
  { exact Hbelow. }
  { apply depth_kids. lia. }
  exists h', (T c (set_Children cs' cl1) ts').
  split; [|split; [|split; [|split; [|split; [|split]]]]].
  - cbn [Copy root]. erewrite bind_ok; [|apply read_ok, deref_ok; exact Ha].
    unfold bind at 1. unfold alloc. fold c. fold cl0.
    erewrite bind_ok.
    2:{ unfold SetContent. apply modify_ok. unfold c.
        apply list_lookup_middle. reflexivity. }
    fold cl1. fold h1. rewrite Hc. erewrite bind_ok; [|exact Eloop].
    reflexivity.
  - lia.
  - intros b Hb. rewrite Hag' by (unfold c; lia). apply Hag1. exact Hb.
  - apply repr_unfold. split; [exact Hcl'|split; [|exact Hrts]].
    simpl. rewrite Hel. unfold cl1, cl0.
    destruct (String.eqb (GetXMLNameS nd) ""); reflexivity.
  - reflexivity.
  - apply similar_unfold. split; [|split; [|split; [|split]]].
    + transitivity (GetName cl0); [reflexivity|apply GetName_clone].
    + unfold cl0. destruct (String.eqb (GetXMLNameS nd) ""); reflexivity.
    + unfold cl0. destruct (String.eqb (GetXMLNameS nd) ""); reflexivity.
    + unfold cl0. destruct (String.eqb (GetXMLNameS nd) ""); reflexivity.
    + exact Hsims.
  - simpl. constructor; [unfold c; lia|].
    clear -Hfr Hlen1. induction Hfr as [|t0 r Ht0 _ IHr]; simpl; [constructor|].
    apply Forall_app. split; [|exact IHr].
    eapply Forall_impl; [exact Ht0|]. simpl. intros b Hb. lia.
Qed.

(** C6 (amended). [Copy] builds, at fresh addresses only, a tree of the
    same shape and the same names as the source, whose vertices hold the
    EFFECTIVE content of their originals (trimmed, empty for markup) and
    neither attributes nor parent links; the source's part of the store is
    untouched, and overwriting any vertex of the copy leaves the source
    tree as it was. *)
Theorem Copy_fresh_similar h t fuel :
  repr h t -> depth t <= fuel ->
  exists ext t',
    Copy fuel (Some (root t)) h = Ok (Some (length h), h ++ ext)
    /\ repr (h ++ ext) t' /\ root t' = length h /\ similar t t'
    /\ Forall (fun b => length h <= b) (addrs t')
    /\ Forall (fun b => b < length h) (addrs t)
    /\ forall b x, In b (addrs t') -> repr (<[b := x]> (h ++ ext)) t.
Proof.
  intros Hr Hd.
  destruct (Copy_spec t fuel h Hr Hd)
    as (h' & t' & Ecopy & Hlen & Hag & Hr' & Hroot & Hsim & Hfresh).
  pose proof (heap_extends h h' ltac:(lia) Hag) as Eh.
  pose proof (repr_addrs_lt _ _ Hr) as Hlt.
  exists (drop (length h) h'), t'. rewrite <- Eh.
  split; [exact Ecopy|]. split; [exact Hr'|]. split; [exact Hroot|].
  split; [exact Hsim|]. split; [exact Hfresh|]. split; [exact Hlt|].
  intros b x Hb. apply (repr_agree h); [exact Hr|]. intros a Ha.
  rewrite Forall_forall in Hlt, Hfresh.
  apply list_elem_of_In in Ha, Hb.
  specialize (Hlt a Ha). specialize (Hfresh b Hb). simpl in Hlt, Hfresh.
  rewrite list_lookup_insert_ne by lia. apply Hag. exact Hlt.
Qed.

Lemma Copy_fresh_similar_witness :
  exists ext t',
    Copy 2 (Some 0) copyStore = Ok (Some 2, copyStore ++ ext)
    /\ repr (copyStore ++ ext) t' /\ root t' = 2 /\ similar copyTree t'
    /\ Forall (fun b => 2 <= b) (addrs t')
    /\ Forall (fun b => b < 2) (addrs copyTree)
    /\ forall b x, In b (addrs t') -> repr (<[b := x]> (copyStore ++ ext)) copyTree.
Proof.
  apply (Copy_fresh_similar copyStore copyTree 2).
  - simpl. repeat split.
  - simpl. lia.
Defined.

Example Copy_copyStore :
  Copy 2 (Some 0) copyStore
  = Ok (Some 2,
        copyStore ++
        [ mkNode None "n" noName [] "a" (Some [Some 3]);
          mkNode None "" (mkName "" "k") [] "" None ]).
Proof. reflexivity. Qed.

(** C6, as stated, fails: the content of the copy is not the content of
    the source.  The copy of [copyStore]'s root holds ["a"] where the
    source holds ["  a "], and the copy of the child holds nothing where
    the source holds markup. *)
Lemma Copy_content_not_identical :
  ~ (forall h t fuel,
        repr h t -> depth t <= fuel ->
        exists h' t',
          Copy fuel (Some (root t)) h = Ok (Some (root t'), h')
          /\ repr h' t' /\ identical t t').
Proof.
  intros H.
  destruct (H copyStore copyTree 2) as (h' & t' & E & Hr & Hid).
  - simpl. repeat split.
  - simpl. lia.
  - change (Some (root copyTree)) with (Some 0) in E.
    rewrite Copy_copyStore in E. injection E as Eroot Eh.
    destruct t' as [a' nd' ks']. simpl in Eroot. subst a' h'.
    apply repr_unfold in Hr. destruct Hr as (Hl & _ & _).
    simpl in Hl. injection Hl as <-.
    simpl in Hid. destruct Hid as (_ & Hcontent & _). discriminate Hcontent.
Qed.

(** ** [PreprocessTemplate] *)

Lemma searchAncestor_ancestry h s a b k :
  ancestry h s a b k ->
  forall fuel, k <= fuel ->
    exists r, searchAncestor fuel h (Some a) s = Ok r /\ isNil r = negb b.
Proof.
  induction 1 as [a nd Ha Hp | a nd pa pd Ha Hp Hpa Hn
                 | a nd pa pd b k Ha Hp Hpa Hn _ IH];
    intros fuel Hk; (destruct fuel as [|f]; [lia|]);
    cbn [searchAncestor deref rbind]; rewrite Ha; cbn [rbind];
    unfold GetParent; rewrite Hp.
  - exists None. split; reflexivity.
  - cbn [rbind deref]. rewrite Hpa. cbn [rbind].
    apply String.eqb_eq in Hn. rewrite Hn. exists (Some a). split; reflexivity.
  - cbn [rbind deref]. rewrite Hpa. cbn [rbind].
    apply String.eqb_neq in Hn. rewrite Hn. apply IH. lia.
Qed.

Lemma NewChildS_ok (h : heap) m md content :
  h !! m = Some md ->
  NewChildS (Some m) "" content h
  = Ok (Some (length h),
        <[m := set_Children (append (Children md) (Some (length h))) md]>
          (h ++ [mkNode (Some m) "" noName [] content None])).
Proof.
  intros Hm. pose proof (lookup_lt_Some _ _ _ Hm) as Hlt.
  unfold NewChildS, NewChild.
  erewrite bind_ok; [|apply read_ok, deref_ok; exact Hm].
  unfold bind at 1, alloc.
  set (fresh := if String.eqb (GetXMLNameS md) "" then New "" else NewXML "").
  assert (Hfresh : fresh = New "").
  { unfold fresh. destruct (String.eqb (GetXMLNameS md) ""); reflexivity. }
  erewrite bind_ok.
  2:{ apply modify_ok. apply list_lookup_middle. reflexivity. }
  erewrite bind_ok.
  2:{ apply modify_ok. apply list_lookup_insert_eq. rewrite length_app. simpl. lia. }
  erewrite bind_ok.
  2:{ unfold AddChild. apply modify_ok.
      rewrite !list_lookup_insert_ne by lia. apply lookup_app_l_Some. exact Hm. }
  unfold ret. do 2 f_equal.
  rewrite list_insert_insert_eq. f_equal.
  rewrite <- (Nat.add_0_r (length h)).
  rewrite insert_app_r. rewrite Hfresh. reflexivity.
Qed.

Lemma demote_ok fuel (h : heap) m md child cn b k :
  h !! m = Some md -> deref h child = Ok cn ->
  ancestry h sentinel m b k -> k <= fuel ->
  demote fuel (Some m) child h
  = Ok (tt, if b && negb (String.eqb (Content md) "")
            then demoted h m md (Content cn) else h).
Proof.
  intros Hm Hc Hanc Hk.
  destruct (searchAncestor_ancestry _ _ _ _ _ Hanc fuel Hk) as (r & Er & Hr).
  unfold demote. erewrite bind_ok; [|apply read_ok; exact Er].
  rewrite Hr. destruct b; simpl; [|reflexivity].
  erewrite bind_ok; [|apply read_ok, deref_ok; exact Hm].
  unfold GetContentS. destruct (Content md) as [|c0 rest] eqn:Ec; simpl;
    [reflexivity|].
  erewrite bind_ok; [|apply read_ok; exact Hc].
  erewrite bind_ok; [|apply NewChildS_ok; exact Hm].
  unfold SetContentS, SetContent.
  erewrite modify_ok.
  2:{ apply list_lookup_insert_eq. rewrite length_app.
      pose proof (lookup_lt_Some _ _ _ Hm). lia. }
  unfold demoted. rewrite list_insert_insert_eq. reflexivity.
Qed.

(** C7 (amended). For a child with a NON-EMPTY name, whose first
    same-named sibling is [m]: when [m] has an ancestor named by the
    sentinel on its parent chain and holds content, the content of the
    child (that of [m] itself when the child is [m]) goes into a new
    anonymous child of [m] and the content of [m] is cleared; else the
    store stays as it is; either way [PreprocessTemplate] then recurses
    into [m].  A child with an empty name is skipped. *)
Theorem PreprocessChild_demotes fuel rec h n child cn m md b k :
  deref h child = Ok cn ->
  GetChild h n (GetName cn) = Ok (Some m) ->
  h !! m = Some md ->
  ancestry h sentinel m b k -> k <= fuel ->
  (GetName cn <> "" ->
   PreprocessChild fuel rec n child h
   = rec (Some m) (if b && negb (String.eqb (Content md) "")
                   then demoted h m md (Content cn) else h))
  /\ (GetName cn = "" -> PreprocessChild fuel rec n child h = Ok (tt, h))
  /\ (child = Some m -> Content cn = Content md).
Proof.
  intros Hc Hm Hmd Hanc Hk. split; [|split].
  - intros Hne. unfold PreprocessChild.
    erewrite bind_ok; [|apply read_ok; exact Hc].
    erewrite bind_ok; [|apply read_ok; exact Hm].
    assert (Hlen : Nat.ltb 0 (len (GetName cn)) = true).
    { destruct (GetName cn); [congruence|reflexivity]. }
    rewrite Hlen. simpl.
    erewrite bind_ok; [reflexivity|].
    eapply demote_ok; eassumption.
  - intros He. unfold PreprocessChild.
    erewrite bind_ok; [|apply read_ok; exact Hc].
    erewrite bind_ok; [|apply read_ok; exact Hm].
    rewrite He. reflexivity.
  - intros ->. simpl in Hc. rewrite Hmd in Hc. injection Hc as ->. reflexivity.
Qed.

Lemma PreprocessChild_demotes_witness :
  PreprocessChild 2 (PreprocessTemplate 2) (Some 0) (Some 1) labelStore
  = PreprocessTemplate 2 (Some 1)
      (demoted labelStore 1 (mkNode (Some 0) "env" noName [] "prod" None) "prod")
  /\ PreprocessChild 2 (PreprocessTemplate 2) (Some 0) (Some 2) labelStore
     = Ok (tt, labelStore).
Proof.
  split.
  - refine (proj1 (PreprocessChild_demotes 2 (PreprocessTemplate 2) labelStore
             (Some 0) (Some 1) (mkNode (Some 0) "env" noName [] "prod" None) 1
             (mkNode (Some 0) "env" noName [] "prod" None) true 1
             eq_refl eq_refl eq_refl _ _) _).
    + eapply ancestry_hit; reflexivity.
    + lia.
    + discriminate.
  - refine (proj1 (proj2 (PreprocessChild_demotes 2 (PreprocessTemplate 2)
             labelStore (Some 0) (Some 2)
             (mkNode (Some 0) "" noName [] "x" None) 2
             (mkNode (Some 0) "" noName [] "x" None) true 1
             eq_refl eq_refl eq_refl _ _)) _).
    + eapply ancestry_hit; reflexivity.
    + lia.
    + reflexivity.
Defined.

(** C7, as stated, fails for a child without a name: in [labelStore] the
    anonymous child of [LabelAgent] holds content and has the sentinel as
    an ancestor, yet its content is not demoted and there is no
    recursion. *)
Lemma PreprocessChild_anonymous_skipped :
  ~ (forall fuel rec h n child cn m md b k,
        deref h child = Ok cn ->
        GetChild h n (GetName cn) = Ok (Some m) ->
        h !! m = Some md ->
        ancestry h sentinel m b k -> k <= fuel ->
        PreprocessChild fuel rec n child h
        = rec (Some m) (if b && negb (String.eqb (Content md) "")
                        then demoted h m md (Content md) else h)).
Proof.
  intros H.
  specialize (H 2 (fun _ _ => Panic) labelStore (Some 0) (Some 2)
                (mkNode (Some 0) "" noName [] "x" None) 2
                (mkNode (Some 0) "" noName [] "x" None) true 1
                eq_refl eq_refl eq_refl).
  assert (Ha : ancestry labelStore sentinel 2 true 1)
    by (eapply ancestry_hit; reflexivity).
  specialize (H Ha (le_S _ _ (le_n 1))). vm_compute in H. discriminate H.
Qed.

Example PreprocessTemplate_labelStore :
  PreprocessTemplate 4 (Some 0) labelStore
  = Ok (tt,
        [ mkNode None "LabelAgent" noName [] "" (Some [Some 1; Some 2; Some 3]);
          mkNode (Some 0) "env" noName [] "" (Some [Some 5]);
          mkNode (Some 0) "" noName [] "x" None;
          mkNode (Some 0) "rules" noName [] "" (Some [Some 4]);
          mkNode (Some 3) "join" noName [] "" (Some [Some 6]);
          mkNode (Some 1) "" noName [] "prod" None;
          mkNode (Some 4) "" noName [] "a b" None ]).
Proof. reflexivity. Qed.

(** ** [Merge]: which nodes a merge can touch *)

Lemma bind_inv {A B} (m : M A) (k : A -> M B) h r :
  bind m k h = Ok r -> exists a h1, m h = Ok (a, h1) /\ k a h1 = Ok r.
Proof.
  unfold bind. destruct (m h) as [[a h1]| |]; try discriminate.
  intros E. exists a, h1. split; [reflexivity|exact E].
Qed.

Lemma read_inv {A} (f : heap -> res A) h a h1 :
  read f h = Ok (a, h1) -> f h = Ok a /\ h1 = h.
Proof.
  unfold read. destruct (f h); try discriminate.
  intros E. injection E as -> ->. split; reflexivity.
Qed.

Lemma modify_inv p g (h : heap) u h1 :
  modify p g h = Ok (u, h1) ->
  exists a n, p = Some a /\ h !! a = Some n /\ h1 = <[a := g n]> h.
Proof.
  unfold modify. destruct p as [a|]; [|discriminate].
  destruct (h !! a) as [n|] eqn:E; [|discriminate].
  intros E1. injection E1 as _ <-. exists a, n. auto.
Qed.

Lemma deref_inv (h : heap) p n :
  deref h p = Ok n -> exists a, p = Some a /\ h !! a = Some n.
Proof.
  unfold deref. destruct p as [a|]; [|discriminate].
  destruct (h !! a) eqn:E; [|discriminate].
  intros E1. injection E1 as ->. exists a. auto.
Qed.

Lemma findFirst_In key h cs v m :
  findFirst key h cs v = Ok (Some m) -> In (Some m) cs.
Proof.
  induction cs as [|c r IH]; simpl; [discriminate|].
  destruct (deref h c) as [cn| |]; simpl; try discriminate.
  destruct (String.eqb (key cn) v).
  - intros E. injection E as ->. left. reflexivity.
  - intros E. right. apply IH. exact E.
Qed.

Lemma GetChild_kidsIn W h r nm m :
  kidsIn W h r -> GetChild h (Some r) nm = Ok (Some m) -> W m.
Proof.
  intros Hk. unfold GetChild. simpl.
  destruct (h !! r) as [nd|] eqn:E; simpl; [|discriminate].
  intros Hf. apply findFirst_In in Hf. exact (Hk nd m E Hf).
Qed.

Lemma stable_refl W h : stable W h h.
Proof. split; [reflexivity|]. intros x nd Hx. exists nd. auto. Qed.

Lemma stable_trans W h1 h2 h3 :
  stable W h1 h2 -> stable W h2 h3 -> stable W h1 h3.
Proof.
  intros [L12 H12] [L23 H23]. split; [congruence|]. intros x nd Hx.
  destruct (H12 x nd Hx) as (nd2 & Hx2 & Hk2 & Hc2).
  destruct (H23 x nd2 Hx2) as (nd3 & Hx3 & Hk3 & Hc3).
  exists nd3. split; [exact Hx3|]. split.
  - intros c Hc. destruct (Hk3 c Hc) as [H|H]; [apply Hk2; exact H|right; exact H].
  - intros Hn. rewrite Hc3, Hc2 by exact Hn. reflexivity.
Qed.

Lemma stable_kidsIn W h h' x :
  stable W h h' -> kidsIn W h x -> kidsIn W h' x.
Proof.
  intros [Hl Hs] Hk nd' c Hx Hin.
  destruct (h !! x) as [nd|] eqn:E.
  - destruct (Hs x nd E) as (nd2 & Hx2 & Hk2 & _).
    rewrite Hx in Hx2. injection Hx2 as <-.
    destruct (Hk2 c Hin) as [H|H]; [exact (Hk nd c E H)|exact H].
  - exfalso. apply lookup_ge_None in E.
    pose proof (lookup_lt_Some _ _ _ Hx) as Hlt. lia.
Qed.

Lemma stable_closed W h h' : stable W h h' -> closed W h -> closed W h'.
Proof.
  intros Hs Hc x Hx. apply (stable_kidsIn W h h' x Hs). apply Hc. exact Hx.
Qed.

Lemma confined_stable W r s h h' : W r -> confined W r s h h' -> stable W h h'.
Proof.
  intros Hr [Hl Hc]. split; [exact Hl|]. intros x nd Hx.
  destruct (Hc x nd Hx) as (nd' & Hx' & Hk & Hcont).
  exists nd'. split; [exact Hx'|]. split; [exact Hk|].
  intros Hn. destruct (Hcont Hn) as [H|(-> & _)]; [exact H|contradiction].
Qed.

(** The two writes of [Merge]. *)
Lemma stable_AddChild W (h : heap) t nd c :
  h !! t = Some nd -> W c ->
  stable W h (<[t := set_Children (append (Children nd) (Some c)) nd]> h).
Proof.
  intros Ht Hc. split; [apply length_insert|]. intros x ndx Hx.
  destruct (decide (x = t)) as [->|Hne].
  - rewrite Ht in Hx. injection Hx as <-.
    eexists. split; [apply list_lookup_insert_eq; eapply lookup_lt_Some; exact Ht|].
    split; [|reflexivity].
    intros c0 Hin. simpl in Hin. apply in_app_or in Hin.
    destruct Hin as [H|[H|[]]]; [left; exact H|].
    injection H as <-. right. exact Hc.
  - exists ndx. split; [rewrite list_lookup_insert_ne by congruence; exact Hx|].
    auto.
Qed.

Lemma stable_set_Content W (h : heap) m nd v :
  h !! m = Some nd -> W m -> stable W h (<[m := set_Content v nd]> h).
Proof.
  intros Hm HW. split; [apply length_insert|]. intros x ndx Hx.
  destruct (decide (x = m)) as [->|Hne].
  - rewrite Hm in Hx. injection Hx as <-.
    eexists. split; [apply list_lookup_insert_eq; eapply lookup_lt_Some; exact Hm|].
    split; [auto|]. intros Hn. contradiction.
  - exists ndx. split; [rewrite list_lookup_insert_ne by congruence; exact Hx|].
    auto.
Qed.

Ltac inv_bind H x h :=
  apply bind_inv in H; destruct H as (x & h & ? & H).

Ltac inv_read H x h Hx :=
  let E := fresh in
  apply bind_inv in H; destruct H as (x & h & E & H);
  apply read_inv in E; destruct E as [Hx ->].

Section MergeFrame.
Variable W : nat -> Prop.
Variable skipOverwrite : list string.

Lemma AddChild_stable (h : heap) t child u h1 :
  (forall c, child = Some c -> W c) ->
  AddChild t child h = Ok (u, h1) -> stable W h h1.
Proof.
  intros HW H. unfold AddChild in H. apply modify_inv in H.
  destruct H as (a & n & -> & Ha & ->).
  destruct child as [c|].
  - apply stable_AddChild; [exact Ha|apply HW; reflexivity].
  - split; [apply length_insert|]. intros x ndx Hx.
    destruct (decide (x = a)) as [->|Hne].
    + rewrite Ha in Hx. injection Hx as <-.
      eexists. split; [apply list_lookup_insert_eq; eapply lookup_lt_Some; exact Ha|].
      split; [|reflexivity]. intros c0 Hin. simpl in Hin.
      apply in_app_or in Hin. destruct Hin as [H|[H|[]]]; [left; exact H|discriminate].
    + exists ndx. split; [rewrite list_lookup_insert_ne by congruence; exact Hx|].
      auto.
Qed.

Lemma collide_stable (h : heap) m child u h1 :
  W m -> collide skipOverwrite (Some m) child h = Ok (u, h1) -> stable W h h1.
Proof.
  intros HW H. unfold collide in H.
  inv_read H md h0 Hmd. inv_read H keep h0 Hkeep. inv_read H cd h0 Hcd.
  apply deref_inv in Hmd. destruct Hmd as (a & Ea & Hmd). injection Ea as <-.
  unfold SetContentS, SetContent in H.
  destruct keep; apply modify_inv in H; destruct H as (a & n & Ea & Ha & ->);
    injection Ea as <-; apply stable_set_Content; assumption.
Qed.

Lemma MergeChild_stable f r child h u h1 :
  mergeFrame W skipOverwrite f ->
  (forall c, child = Some c -> W c) -> closed W h -> kidsIn W h r ->
  MergeChild (fun m c => Merge f m c skipOverwrite) skipOverwrite (Some r) child h
  = Ok (u, h1) ->
  stable W h h1.
Proof.
  intros IHf HWc Hcl Hkr H. unfold MergeChild in H.
  inv_read H cn h0 Hcn. inv_read H mine h0 Hmine.
  destruct (Nat.eqb (len (GetName cn)) 0).
  - inv_read H target h0 Htarget. destruct target as [t|].
    + eapply AddChild_stable; eassumption.
    + injection H as _ <-. apply stable_refl.
  - destruct mine as [m|]; cbn [isNil] in H.
    + assert (HWm : W m) by (eapply GetChild_kidsIn; eassumption).
      inv_bind H u1 hc. rename H0 into Hcol.
      apply collide_stable in Hcol; [|exact HWm].
      apply (stable_trans W h hc h1 Hcol).
      destruct u. apply (confined_stable W m child); [exact HWm|].
      apply IHf.
      * apply (stable_closed W h hc Hcol Hcl).
      * apply (stable_closed W h hc Hcol Hcl). exact HWm.
      * intros c Ec. apply (stable_closed W h hc Hcol Hcl). apply HWc. exact Ec.
      * exact H.
    + eapply AddChild_stable; eassumption.
Qed.

Lemma Merge_loop_stable f r cs :
  mergeFrame W skipOverwrite f ->
  (forall c, In (Some c) cs -> W c) ->
  forall h h' u,
    closed W h -> kidsIn W h r ->
    forM cs (MergeChild (fun m c => Merge f m c skipOverwrite) skipOverwrite (Some r)) h
    = Ok (u, h') ->
    stable W h h'.
Proof.
  intros IHf. induction cs as [|child cs IH]; intros HW h h' u Hcl Hkr H.
  - simpl in H. injection H as _ <-. apply stable_refl.
  - cbn [forM] in H. inv_bind H u1 h1. rename H0 into Hstep.
    assert (Hs1 : stable W h h1).
    { eapply MergeChild_stable; try eassumption.
      intros c ->. apply HW. left. reflexivity. }
    apply (stable_trans W h h1 h' Hs1).
    apply (IH (fun c Hc => HW c (or_intror Hc)) h1 h' u).
    + apply (stable_closed W h h1 Hs1 Hcl).
    + apply (stable_kidsIn W h h1 r Hs1 Hkr).
    + exact H.
Qed.

Lemma Merge_confined f : mergeFrame W skipOverwrite f.
Proof.
  induction f as [|f IHf]; intros h r s h' Hcl Hkr Hks H.
  - destruct s; simpl in H; [discriminate|].
    injection H as <-.
    split; [reflexivity|]. intros x nd Hx. exists nd. auto.
  - destruct s as [s|]; cbn [Merge] in H.
    2:{ injection H as <-. split; [reflexivity|]. intros x nd Hx. exists nd. auto. }
    inv_read H nd h0 Hnd.
    apply deref_inv in Hnd. destruct Hnd as (a & Ea & Hnd). injection Ea as <-.
    inv_bind H u0 h0. rename H0 into Hcontent.
    inv_read H sd' h1 Hsd'.
    apply deref_inv in Hsd'. destruct Hsd' as (a & Ea & Hsd'). injection Ea as <-.
    assert (Hmid : length h0 = length h
      /\ (forall x ndx, h !! x = Some ndx ->
            exists nd0, h0 !! x = Some nd0 /\ Children nd0 = Children ndx
              /\ (Content nd0 = Content ndx
                  \/ (x = r /\ Content ndx = ""
                      /\ exists sd, deref h (Some s) = Ok sd
                                    /\ Content nd0 = Content sd)))).
    { destruct (Nat.eqb (len (Content nd)) 0) eqn:El.
      - inv_read Hcontent sd h2 Hsd. apply modify_inv in Hcontent.
        destruct Hcontent as (a & n & Ea & Ha & ->). injection Ea as <-.
        rewrite Hnd in Ha. injection Ha as <-.
        split; [apply length_insert|]. intros x ndx Hx.
        destruct (decide (x = r)) as [->|Hne].
        + rewrite Hnd in Hx. injection Hx as <-.
          eexists. split; [apply list_lookup_insert_eq; eapply lookup_lt_Some; exact Hnd|].
          split; [reflexivity|]. right. split; [reflexivity|]. split.
          * destruct (Content nd); [reflexivity|discriminate].
          * exists sd. split; [exact Hsd|reflexivity].
        + exists ndx. split; [rewrite list_lookup_insert_ne by congruence; exact Hx|].
          auto.
      - injection Hcontent as _ <-. split; [reflexivity|].
        intros x ndx Hx. exists ndx. auto. }
    destruct Hmid as [Hlen0 Hmid].
    assert (Hcl0 : closed W h0).
    { intros x Hx nd0 c Hl Hin. destruct (h !! x) as [ndx|] eqn:E.
      - destruct (Hmid x ndx E) as (nd1 & Hl1 & Hk1 & _).
        rewrite Hl in Hl1. injection Hl1 as <-. rewrite Hk1 in Hin.
        exact (Hcl x Hx ndx c E Hin).
      - apply lookup_ge_None in E. pose proof (lookup_lt_Some _ _ _ Hl). lia. }
    assert (Hkin0 : forall x, kidsIn W h x -> kidsIn W h0 x).
    { intros x Hk nd0 c Hl Hin. destruct (h !! x) as [ndx|] eqn:E.
      - destruct (Hmid x ndx E) as (nd1 & Hl1 & Hk1 & _).
        rewrite Hl in Hl1. injection Hl1 as <-. rewrite Hk1 in Hin.
        exact (Hk ndx c E Hin).
      - apply lookup_ge_None in E. pose proof (lookup_lt_Some _ _ _ Hl). lia. }
    destruct u0.
    apply (Merge_loop_stable f r (elems (Children sd')) IHf) in H.
    + destruct H as [Hlen' Hst]. split; [congruence|]. intros x ndx Hx.
      destruct (Hmid x ndx Hx) as (nd0 & Hl0 & Hk0 & Hc0).
      destruct (Hst x nd0 Hl0) as (nd' & Hl' & Hk' & Hc').
      exists nd'. split; [exact Hl'|]. split.
      * intros c Hin. rewrite <- Hk0. apply Hk'. exact Hin.
      * intros Hn. rewrite (Hc' Hn). exact Hc0.
    + intros c Hin. exact (Hkin0 s (Hks s eq_refl) sd' c Hsd' Hin).
    + exact Hcl0.
    + apply Hkin0. exact Hkr.
Qed.
End MergeFrame.

(** ** [Merge]: anonymous children are deduplicated by content *)

Lemma findFirst_valid key h l v :
  Forall (valid h) l ->
  exists res,
    findFirst key h l v = Ok res
    /\ isNil res
       = negb (existsb (fun p => match deref h p with
                                 | Ok nd => String.eqb (key nd) v
                                 | _ => false
                                 end) l)
    /\ (forall m, res = Some m ->
          In (Some m) l /\ exists md, h !! m = Some md /\ key md = v).
Proof.
  induction 1 as [|p l (a & nd & -> & Ha) _ (res & E & Hn & Hin)]; simpl.
  - exists None. split; [reflexivity|]. split; [reflexivity|]. discriminate.
  - rewrite Ha. simpl. destruct (String.eqb (key nd) v) eqn:Ek.
    + exists (Some a). split; [reflexivity|]. split; [reflexivity|].
      intros m Em. injection Em as <-. split; [left; reflexivity|].
      exists nd. split; [exact Ha|]. apply String.eqb_eq. exact Ek.
    + exists res. split; [exact E|]. split; [exact Hn|].
      intros m Em. destruct (Hin m Em) as [H1 H2]. split; [right; exact H1|exact H2].
Qed.


Lemma GetChildByContent_valid h x nd v :
  h !! x = Some nd -> Forall (valid h) (elems (Children nd)) ->
  exists res, GetChildByContent h (Some x) v = Ok res
              /\ isNil res = negb (hasContent h v (elems (Children nd))).
Proof.
  intros Hx Hv. destruct (findFirst_valid GetContentS h _ v Hv) as (res & E & Hn & _).
  exists res. split; [|exact Hn].
  unfold GetChildByContent. rewrite (deref_ok _ _ _ Hx). exact E.
Qed.


Section AnonStep.
Variables r s : nat.
Variable h : list Node.
Variables ndr sds : Node.
Hypothesis Hr : h !! r = Some ndr.
Hypothesis Hs : h !! s = Some sds.
Hypothesis Hkids : Forall (kidOK h r s) (elems (Children ndr)).
Hypothesis Hsubs : Forall (valid h) (elems (Children sds)).


End AnonStep.

(** Replacing the record of [r] by one of the same name and parent. *)
Section Update.
Variable h : list Node.
Variable r : nat.
Variables ndr nd1 : Node.
Hypothesis Hr : h !! r = Some ndr.
Hypothesis Hname : GetName nd1 = GetName ndr.
Hypothesis Hparent : parent nd1 = parent ndr.






End Update.












Lemma anonOK_kidOK h r s p : anonOK h r s p -> kidOK h r s p.
Proof. intros (a & nd & -> & Ha & _ & Hp). exists a, nd. auto. Qed.



Example Merge_listStore :
  Merge 1 (Some 0) (Some 3) [] listStore
  = Ok (tt, <[0 := mkNode None "export_options" noName [] ""
                          (Some [Some 1; Some 2; Some 5])]> listStore).
Proof. reflexivity. Qed.

Example Merge_listStore_counts :
  forall h', Merge 1 (Some 0) (Some 3) [] listStore = Ok (tt, h') ->
    countContent h' (Some 0) "aggr" = 1
    /\ countContent h' (Some 0) "svm" = 1
    /\ countContent h' (Some 0) "node" = 1.
Proof.
  intros h' E. rewrite Merge_listStore in E. injection E as <-.
  repeat split.
Qed.

(** Whatever the parent links are, the anonymous branch appends the child
    to at most one node, and only to a node none of whose children holds
    the child's content. *)
Lemma anonTarget_absent h n mine child cn t :
  deref h child = Ok cn ->
  anonTarget h n mine child = Ok (Some t) ->
  GetChildByContent h (Some t) (Content cn) = Ok None.
Proof.
  intros Hc. unfold anonTarget. rewrite Hc. cbn [rbind]. unfold GetContentS.
  assert (Hsecond :
    (let? found := GetChildByContent h n (Content cn) in
     Ok (if isNil found then n else None)) = Ok (Some t) ->
    GetChildByContent h (Some t) (Content cn) = Ok None).
  { destruct (GetChildByContent h n (Content cn)) as [[f|]| |] eqn:E;
      cbn [rbind isNil]; try discriminate.
    intros En. injection En as ->. exact E. }
  destruct mine as [m|]; [|exact Hsecond].
  destruct (deref h (Some m)) as [md| |]; cbn [rbind]; try discriminate.
  destruct (GetParent md) as [pa|]; [|exact Hsecond].
  destruct (GetChildByContent h (Some pa) (Content cn)) as [[f|]| |] eqn:E;
    cbn [rbind isNil]; try discriminate.
  - exact Hsecond.
  - intros Et. injection Et as <-. exact E.
Qed.

Lemma MergeChild_anon_appends_once rec skipOverwrite h n child cn u h' :
  deref h child = Ok cn -> GetName cn = "" ->
  MergeChild rec skipOverwrite n child h = Ok (u, h') ->
  h' = h
  \/ exists t nd,
       h !! t = Some nd
       /\ GetChildByContent h (Some t) (Content cn) = Ok None
       /\ h' = <[t := set_Children (append (Children nd) child) nd]> h.
Proof.
  intros Hc Hanon H. unfold MergeChild in H.
  inv_read H cn' h0 Hcn'. rewrite Hc in Hcn'. injection Hcn' as <-.
  inv_read H mine h0 Hmine. rewrite Hanon in H. cbn [len String.length Nat.eqb] in H.
  inv_read H target h0 Htarget. destruct target as [t|].
  - right. unfold AddChild in H. apply modify_inv in H.
    destruct H as (a & nd & Ea & Ha & ->). injection Ea as <-.
    exists t, nd. split; [exact Ha|]. split; [|reflexivity].
    eapply anonTarget_absent; eassumption.
  - left. injection H as _ <-. reflexivity.
Qed.

(** ** [Merge] returns on levelled stores *)

Lemma valid_same_length (h h' : heap) p :
  length h' = length h -> valid h p -> valid h' p.
Proof.
  intros Hl (a & nd & -> & Ha).
  assert (Hlt : a < length h') by (rewrite Hl; eapply lookup_lt_Some; exact Ha).
  destruct (lookup_lt_is_Some_2 h' a Hlt) as [nd' Hnd']. exists a, nd'. auto.
Qed.

Section Good.
Variable lv : nat -> nat.
Variable L : nat.

Lemma good_replace (h : heap) x nd nd' :
  h !! x = Some nd ->
  parent nd' = parent nd ->
  (forall c, In (Some c) (elems (Children nd')) ->
             In (Some c) (elems (Children nd)) \/ lv c = S (lv x)) ->
  Forall (valid h) (elems (Children nd')) ->
  good lv L h -> good lv L (<[x := nd']> h).
Proof.
  intros Hx Hpar Hkids Hval (Hwf & Hlev & Hb).
  assert (Hlen : length (<[x := nd']> h) = length h) by apply length_insert.
  assert (Hlook : forall y ndy, <[x := nd']> h !! y = Some ndy ->
            (y = x /\ ndy = nd') \/ (y <> x /\ h !! y = Some ndy)).
  { intros y ndy Hy. destruct (decide (y = x)) as [->|Hne].
    - rewrite list_lookup_insert_eq in Hy by (eapply lookup_lt_Some; exact Hx).
      injection Hy as <-. left. auto.
    - rewrite list_lookup_insert_ne in Hy by congruence. right. auto. }
  split; [|split].
  - intros y ndy Hy. destruct (Hlook y ndy Hy) as [[-> ->]|[Hne Hy']].
    + split.
      * eapply Forall_impl; [exact Hval|]. intros p.
        apply valid_same_length. exact Hlen.
      * rewrite Hpar. destruct (Hwf x nd Hx) as [_ [Hp|Hp]]; [left; exact Hp|].
        right. apply (valid_same_length h); [exact Hlen|exact Hp].
    + destruct (Hwf y ndy Hy') as [Hk Hp]. split.
      * eapply Forall_impl; [exact Hk|]. intros p.
        apply valid_same_length. exact Hlen.
      * destruct Hp as [Hp|Hp]; [left; exact Hp|].
        right. apply (valid_same_length h); [exact Hlen|exact Hp].
  - intros y ndy Hy. destruct (Hlook y ndy Hy) as [[-> ->]|[Hne Hy']].
    + destruct (Hlev x nd Hx) as [Hk Hp]. split.
      * intros c Hc. destruct (Hkids c Hc) as [H|H]; [apply Hk; exact H|exact H].
      * intros p Hp'. apply Hp. rewrite <- Hpar. exact Hp'.
    + exact (Hlev y ndy Hy').
  - intros y ndy Hy. destruct (Hlook y ndy Hy) as [[-> ->]|[Hne Hy']].
    + exact (Hb x nd Hx).
    + exact (Hb y ndy Hy').
Qed.

Lemma good_set_Content (h : heap) m md v :
  h !! m = Some md -> good lv L h -> good lv L (<[m := set_Content v md]> h).
Proof.
  intros Hm Hg. apply (good_replace h m md); auto.
  destruct Hg as (Hwf & _). exact (proj1 (Hwf m md Hm)).
Qed.

Lemma good_AddChild (h : heap) t nd c cn :
  h !! t = Some nd -> h !! c = Some cn -> lv c = S (lv t) ->
  good lv L h ->
  good lv L (<[t := set_Children (append (Children nd) (Some c)) nd]> h).
Proof.
  intros Ht Hc Hl Hg. apply (good_replace h t nd); auto.
  - intros c0 Hin. simpl in Hin. apply in_app_or in Hin.
    destruct Hin as [H|[H|[]]]; [left; exact H|].
    injection H as <-. right. exact Hl.
  - simpl. apply Forall_app. split.
    + destruct Hg as (Hwf & _). exact (proj1 (Hwf t nd Ht)).
    + constructor; [|constructor]. exists c, cn. auto.
Qed.

Lemma good_kids_valid (h : heap) x nd :
  good lv L h -> h !! x = Some nd -> Forall (valid h) (elems (Children nd)).
Proof. intros (Hwf & _) Hx. exact (proj1 (Hwf x nd Hx)). Qed.
End Good.

Section MergeTotal.
Variable lv : nat -> nat.
Variable L : nat.
Variable skipOverwrite : list string.

Lemma anonTarget_total (h : heap) r ndr mine c cn :
  good lv L h -> h !! r = Some ndr -> h !! c = Some cn ->
  (forall m, mine = Some m -> In (Some m) (elems (Children ndr))) ->
  exists target,
    anonTarget h (Some r) mine (Some c) = Ok target
    /\ forall t, target = Some t ->
         (exists nd, h !! t = Some nd)
         /\ (t = r \/ exists m md, In (Some m) (elems (Children ndr))
                                  /\ h !! m = Some md /\ parent md = Some t).
Proof.
  intros Hg Hr Hc Hmine.
  pose proof (good_kids_valid lv L h r ndr Hg Hr) as Hvk.
  destruct (GetChildByContent_valid h r ndr (Content cn) Hr Hvk) as (rr & Err & _).
  assert (Hsecond : exists target,
    (let? found := GetChildByContent h (Some r) (GetContentS cn) in
     Ok (if isNil found then Some r else None)) = Ok target
    /\ forall t, target = Some t ->
         (exists nd, h !! t = Some nd)
         /\ (t = r \/ exists m md, In (Some m) (elems (Children ndr))
                                  /\ h !! m = Some md /\ parent md = Some t)).
  { unfold GetContentS. rewrite Err. cbn [rbind].
    eexists. split; [reflexivity|]. intros t Et.
    destruct (isNil rr); [|discriminate Et]. injection Et as <-.
    split; [exists ndr; exact Hr|left; reflexivity]. }
  unfold anonTarget. rewrite (deref_ok _ _ _ Hc). cbn [rbind].
  destruct mine as [m|]; [|exact Hsecond].
  pose proof (Hmine m eq_refl) as Hin.
  rewrite Forall_forall in Hvk.
  destruct (Hvk (Some m) (proj2 (list_elem_of_In _ _) Hin)) as (a & md & Ea & Hm).
  injection Ea as <-.
  rewrite (deref_ok _ _ _ Hm). cbn [rbind]. unfold GetParent.
  destruct (parent md) as [pa|] eqn:Hp; [|exact Hsecond].
  destruct Hg as (Hwf & Hrest).
  destruct (Hwf m md Hm) as [_ [Hnone|(a & ndpa & Ea & Hpa)]]; [congruence|].
  rewrite Hp in Ea. injection Ea as <-.
  destruct (GetChildByContent_valid h pa ndpa (Content cn) Hpa
              (proj1 (Hwf pa ndpa Hpa))) as (rp & Erp & _).
  unfold GetContentS at 1. rewrite Erp. cbn [rbind].
  destruct (isNil rp); [|exact Hsecond].
  eexists. split; [reflexivity|]. intros t Et. injection Et as <-.
  split; [exists ndpa; exact Hpa|]. right. exists m, md. auto.
Qed.

Lemma collide_total (h : heap) m md child cn :
  good lv L h -> h !! m = Some md -> deref h child = Ok cn ->
  exists v, collide skipOverwrite (Some m) child h
            = Ok (tt, <[m := set_Content v md]> h).
Proof.
  intros (Hwf & _) Hm Hc. unfold collide.
  erewrite bind_ok; [|apply read_ok, deref_ok; exact Hm].
  assert (Hkeep : exists keep,
    match GetParent md with
    | None => Ok false
    | Some pa => let? pd := deref h (Some pa) in
                 Ok (Contains skipOverwrite (GetNameS pd))
    end = Ok keep).
  { unfold GetParent. destruct (parent md) as [pa|] eqn:Hp; [|eauto].
    destruct (Hwf m md Hm) as [_ [Hnone|(a & ndpa & Ea & Hpa)]]; [congruence|].
    rewrite Hp in Ea. injection Ea as <-.
    rewrite (deref_ok _ _ _ Hpa). cbn [rbind]. eauto. }
  destruct Hkeep as (keep & Hkeep).
  erewrite bind_ok; [|apply read_ok; exact Hkeep].
  erewrite bind_ok; [|apply read_ok; exact Hc].
  unfold SetContentS, SetContent.
  destruct keep; eexists; apply modify_ok; exact Hm.
Qed.

Lemma MergeChild_total f (h : heap) r c ndr cn :
  mergeTotal lv L skipOverwrite f ->
  good lv L h -> h !! r = Some ndr -> h !! c = Some cn ->
  lv c = S (lv r) -> L - lv r < S f ->
  exists h1,
    MergeChild (fun m c => Merge f m c skipOverwrite) skipOverwrite (Some r) (Some c) h
    = Ok (tt, h1)
    /\ good lv L h1 /\ length h1 = length h.
Proof.
  intros IHf Hg Hr Hc Hlc Hfuel.
  pose proof (good_kids_valid lv L h r ndr Hg Hr) as Hvk.
  destruct (findFirst_valid GetName h _ (GetName cn) Hvk) as (mine & Emine & _ & Hmine).
  assert (Eget : GetChild h (Some r) (GetName cn) = Ok mine).
  { unfold GetChild. rewrite (deref_ok _ _ _ Hr). exact Emine. }
  unfold MergeChild.
  erewrite bind_ok; [|apply read_ok, deref_ok; exact Hc].
  erewrite bind_ok; [|apply read_ok; exact Eget].
  destruct (Nat.eqb (len (GetName cn)) 0).
  - destruct (anonTarget_total h r ndr mine c cn Hg Hr Hc) as (target & Et & Ht).
    { intros m Em. exact (proj1 (Hmine m Em)). }
    erewrite bind_ok; [|apply read_ok; exact Et].
    destruct target as [t|].
    + destruct (Ht t eq_refl) as ((nd & Hnd) & Hwhere).
      exists (<[t := set_Children (append (Children nd) (Some c)) nd]> h).
      split; [|split; [|apply length_insert]].
      * unfold AddChild.
        exact (modify_ok t (fun nd => set_Children (append (Children nd) (Some c)) nd)
                 h nd Hnd).
      * apply (good_AddChild lv L h t nd c cn Hnd Hc); [|exact Hg].
        destruct Hwhere as [->|(m & md & Hin & Hm & Hp)]; [exact Hlc|].
        destruct Hg as (_ & Hlev & _).
        pose proof (proj1 (Hlev r ndr Hr) m Hin) as H1.
        pose proof (proj2 (Hlev m md Hm) t Hp) as H2. lia.
    + exists h. split; [reflexivity|]. split; [exact Hg|reflexivity].
  - destruct mine as [m|]; cbn [isNil].
    + destruct (Hmine m eq_refl) as (Hin & md & Hm & _).
      destruct (collide_total h m md (Some c) cn Hg Hm (deref_ok _ _ _ Hc))
        as (v & Ecol).
      set (hc := <[m := set_Content v md]> h) in *.
      assert (Hgc : good lv L hc) by (apply good_set_Content; assumption).
      assert (Hlenc : length hc = length h) by apply length_insert.
      assert (Hmc : exists mdc, hc !! m = Some mdc).
      { apply lookup_lt_is_Some_2. rewrite Hlenc. eapply lookup_lt_Some; exact Hm. }
      assert (Hcc : exists cnc, hc !! c = Some cnc).
      { apply lookup_lt_is_Some_2. rewrite Hlenc. eapply lookup_lt_Some; exact Hc. }
      destruct Hmc as (mdc & Hmc). destruct Hcc as (cnc & Hcc).
      destruct Hg as (Hwf & Hlev & Hb).
      pose proof (proj1 (Hlev r ndr Hr) m Hin) as Hlm.
      pose proof (Hb c cn Hc) as Hbc.
      destruct (IHf hc m c mdc cnc Hgc Hmc Hcc) as (h1 & E1 & Hg1 & Hl1);
        [lia|lia|].
      exists h1. split; [|split; [exact Hg1|congruence]].
      erewrite bind_ok; [|exact Ecol]. exact E1.
    + exists (<[r := set_Children (append (Children ndr) (Some c)) ndr]> h).
      split; [|split; [|apply length_insert]].
      * unfold AddChild.
        exact (modify_ok r (fun nd => set_Children (append (Children nd) (Some c)) nd)
                 h ndr Hr).
      * apply (good_AddChild lv L h r ndr c cn Hr Hc Hlc Hg).
Qed.

Lemma Merge_loop_total f r cs :
  mergeTotal lv L skipOverwrite f ->
  L - lv r < S f ->
  Forall (fun p => exists c, p = Some c /\ lv c = S (lv r)) cs ->
  forall (h : heap) ndr,
    good lv L h -> h !! r = Some ndr -> Forall (valid h) cs ->
    exists h',
      forM cs (MergeChild (fun m c => Merge f m c skipOverwrite) skipOverwrite (Some r)) h
      = Ok (tt, h')
      /\ good lv L h' /\ length h' = length h.
Proof.
  intros IHf Hfuel. induction 1 as [|p cs (c & -> & Hlc) _ IH];
    intros h ndr Hg Hr Hval.
  - exists h. split; [reflexivity|]. split; [exact Hg|reflexivity].
  - inversion Hval as [|? ? (a & cn & Ea & Hc) Hval']; subst. injection Ea as <-.
    destruct (MergeChild_total f h r c ndr cn IHf Hg Hr Hc Hlc Hfuel)
      as (h1 & E1 & Hg1 & Hl1).
    assert (Hr1 : exists ndr1, h1 !! r = Some ndr1).
    { apply lookup_lt_is_Some_2. rewrite Hl1. eapply lookup_lt_Some; exact Hr. }
    destruct Hr1 as (ndr1 & Hr1).
    destruct (IH h1 ndr1 Hg1 Hr1) as (h' & E' & Hg' & Hl').
    { eapply Forall_impl; [exact Hval'|]. intros p.
      apply valid_same_length. exact Hl1. }
    exists h'. split; [|split; [exact Hg'|congruence]].
    cbn [forM]. erewrite bind_ok; [|exact E1]. exact E'.
Qed.

Lemma Merge_total f : mergeTotal lv L skipOverwrite f.
Proof.
  induction f as [|f IHf]; intros h r s ndr sds Hg Hr Hs Hlv Hfuel; [lia|].
  set (nd0 := if Nat.eqb (len (Content ndr)) 0
              then set_Content (Content sds) ndr else ndr).
  set (h0 := <[r := nd0]> h).
  assert (Hstep0 :
    (if Nat.eqb (len (Content ndr)) 0
     then let* sd := read (fun h => deref h (Some s)) in
          modify (Some r) (set_Content (Content sd))
     else ret tt) h = Ok (tt, h0)).
  { unfold h0, nd0. destruct (Nat.eqb (len (Content ndr)) 0).
    - erewrite bind_ok; [|apply read_ok, deref_ok; exact Hs].
      apply modify_ok. exact Hr.
    - rewrite list_insert_id by exact Hr. reflexivity. }
  assert (Hg0 : good lv L h0).
  { unfold h0, nd0. destruct (Nat.eqb (len (Content ndr)) 0).
    - apply good_set_Content; assumption.
    - rewrite list_insert_id by exact Hr. exact Hg. }
  assert (Hl0 : length h0 = length h) by apply length_insert.
  assert (Hr0 : exists ndr0, h0 !! r = Some ndr0).
  { apply lookup_lt_is_Some_2. rewrite Hl0. eapply lookup_lt_Some; exact Hr. }
  assert (Hs0 : exists sds0, h0 !! s = Some sds0).
  { apply lookup_lt_is_Some_2. rewrite Hl0. eapply lookup_lt_Some; exact Hs. }
  destruct Hr0 as (ndr0 & Hr0). destruct Hs0 as (sds0 & Hs0).
  pose proof (good_kids_valid lv L h0 s sds0 Hg0 Hs0) as Hval.
  destruct (Merge_loop_total f r (elems (Children sds0)) IHf) with (h := h0) (ndr := ndr0)
    as (h' & E' & Hg' & Hl'); try assumption.
  { lia. }
  { destruct Hg0 as (_ & Hlev0 & _).
    rewrite Forall_forall in Hval |- *. intros p Hp.
    destruct (Hval p Hp) as (c & cn & -> & Hc). exists c. split; [reflexivity|].
    rewrite Hlv. apply (proj1 (Hlev0 s sds0 Hs0)).
    apply list_elem_of_In. exact Hp. }
  exists h'. split; [|split; [exact Hg'|congruence]].
  cbn [Merge].
  erewrite bind_ok; [|apply read_ok, deref_ok; exact Hr].
  erewrite bind_ok; [|exact Hstep0].
  erewrite bind_ok; [|apply read_ok, deref_ok; exact Hs0].
  exact E'.
Qed.
End MergeTotal.

(** ** [Merge]: overwrite or accumulate *)

Lemma Contains_In l s : Contains l s = true <-> In s l.
Proof.
  unfold Contains. rewrite existsb_exists. split.
  - intros (x & Hx & E). apply String.eqb_eq in E. subst. exact Hx.
  - intros H. exists s. split; [exact H|apply String.eqb_refl].
Qed.

Lemma kidsIn_set_Content W (h : heap) m md v x :
  h !! m = Some md -> kidsIn W h x -> kidsIn W (<[m := set_Content v md]> h) x.
Proof.
  intros Hm Hk nd c Hl Hin. destruct (decide (x = m)) as [->|Hne].
  - rewrite list_lookup_insert_eq in Hl by (eapply lookup_lt_Some; exact Hm).
    injection Hl as <-. exact (Hk md c Hm Hin).
  - rewrite list_lookup_insert_ne in Hl by congruence. exact (Hk nd c Hl Hin).
Qed.

Lemma sapp_comma_nonempty a b : a +:+ "," +:+ b <> "".
Proof. destruct a; discriminate. Qed.

(** C3. A base child [m] whose parent is named [labels] is found for an
    override child of the same, non-empty name: [Merge] sets the content
    of [m] to the old content, a comma and the override content when
    [labels] is in the skip-overwrite list (["a,b"] for ["a"] and ["b"]),
    and to the override content (["b"]) when it is not; it then merges the
    override child into [m], which ends at once for an override leaf and
    in any case leaves that content in place as long as [m] is not among
    its own descendants or those of the override child; on a well-formed
    levelled store (trees side by side) the merge returns for every
    override child, given fuel for the levels below it. *)
Theorem MergeChild_skip_overwrite f skipOverwrite h n child cn m md p pd :
  deref h child = Ok cn -> GetName cn <> "" ->
  GetChild h n (GetName cn) = Ok (Some m) -> h !! m = Some md ->
  parent md = Some p -> h !! p = Some pd -> GetNameS pd = "labels" ->
  let new := if Contains skipOverwrite "labels"
             then Content md +:+ "," +:+ Content cn else Content cn in
  let h1 := <[m := set_Content new md]> h in
  MergeChild (fun m c => Merge f m c skipOverwrite) skipOverwrite n child h
  = Merge f (Some m) child skipOverwrite h1
  /\ (elems (Children cn) = [] -> 1 <= f ->
      Merge f (Some m) child skipOverwrite h1 = Ok (tt, h1))
  /\ (forall (W : nat -> Prop) h2,
        closed W h -> kidsIn W h m -> (forall c, child = Some c -> kidsIn W h c) ->
        ~ W m ->
        Merge f (Some m) child skipOverwrite h1 = Ok (tt, h2) ->
        exists md2, h2 !! m = Some md2 /\ Content md2 = new)
  /\ (forall lv L c,
        child = Some c -> good lv L h -> lv m = lv c -> L - lv c < f ->
        exists h2 md2,
          Merge f (Some m) child skipOverwrite h1 = Ok (tt, h2)
          /\ h2 !! m = Some md2 /\ Content md2 = new).
Proof.
  intros Hcn Hname Hmine Hm Hp Hpd Hlabels new h1.
  assert (Hlt : m < length h) by (eapply lookup_lt_Some; exact Hm).
  assert (Hm1 : h1 !! m = Some (set_Content new md)).
  { unfold h1. apply list_lookup_insert_eq. exact Hlt. }
  assert (Hsd1 : exists sd1, deref h1 child = Ok sd1
                   /\ Children sd1 = Children cn
                   /\ (new = "" -> Content sd1 = "")).
  { destruct (deref_inv _ _ _ Hcn) as (c & -> & Hc).
    destruct (decide (c = m)) as [->|Hne].
    - rewrite Hm in Hc. injection Hc as <-.
      exists (set_Content new md). split; [apply deref_ok; exact Hm1|].
      split; [reflexivity|]. intros ->. reflexivity.
    - exists cn. split.
      + apply deref_ok. unfold h1. rewrite list_lookup_insert_ne by congruence.
        exact Hc.
      + split; [reflexivity|]. unfold new.
        destruct (Contains skipOverwrite "labels"); [|auto].
        intros E. exfalso. exact (sapp_comma_nonempty _ _ E). }
  destruct Hsd1 as (sd1 & Hsd1 & Hkids1 & Hempty1).
  assert (Hframe : forall (W : nat -> Prop) h2,
        closed W h -> kidsIn W h m -> (forall c, child = Some c -> kidsIn W h c) ->
        ~ W m ->
        Merge f (Some m) child skipOverwrite h1 = Ok (tt, h2) ->
        exists md2, h2 !! m = Some md2 /\ Content md2 = new).
  { intros W h2 Hcl Hkm Hkc HnW Hmerge.
    pose proof (Merge_confined W skipOverwrite f h1 m child h2) as Hconf.
    destruct Hconf as [_ Hconf].
    + intros x Hx. apply kidsIn_set_Content; [exact Hm|]. apply Hcl. exact Hx.
    + apply kidsIn_set_Content; [exact Hm|exact Hkm].
    + intros c Ec. apply kidsIn_set_Content; [exact Hm|]. apply Hkc. exact Ec.
    + exact Hmerge.
    + destruct (Hconf m _ Hm1) as (md2 & Hl2 & _ & Hc2).
      exists md2. split; [exact Hl2|].
      destruct (Hc2 HnW) as [E|(_ & E0 & sd & Hsd & E)]; [exact E|].
      rewrite Hsd1 in Hsd. injection Hsd as <-.
      simpl in E0. rewrite E, E0. apply Hempty1. exact E0. }
  split; [|split; [|split]].
  - unfold MergeChild.
    erewrite bind_ok; [|apply read_ok; exact Hcn].
    erewrite bind_ok; [|apply read_ok; exact Hmine].
    assert (Hlen : Nat.eqb (len (GetName cn)) 0 = false).
    { destruct (GetName cn); [congruence|reflexivity]. }
    rewrite Hlen. cbn [isNil].
    erewrite bind_ok; [reflexivity|].
    unfold collide.
    erewrite bind_ok; [|apply read_ok, deref_ok; exact Hm].
    erewrite bind_ok.
    2:{ apply read_ok. unfold GetParent. rewrite Hp.
        rewrite (deref_ok _ _ _ Hpd). simpl. rewrite Hlabels. reflexivity. }
    erewrite bind_ok; [|apply read_ok; exact Hcn].
    unfold SetContentS, SetContent, GetContentS.
    fold new. unfold new.
    destruct (Contains skipOverwrite "labels"); apply modify_ok; exact Hm.
  - intros Hleaf Hf. destruct f as [|f']; [lia|].
    destruct (deref_inv _ _ _ Hcn) as (c & -> & Hc).
    cbn [Merge].
    erewrite bind_ok; [|apply read_ok, deref_ok; exact Hm1].
    assert (Hcontent :
      (if Nat.eqb (len (Content (set_Content new md))) 0
       then let* sd := read (fun h => deref h (Some c)) in
            modify (Some m) (set_Content (Content sd))
       else ret tt) h1 = Ok (tt, h1)).
    { simpl. destruct new as [|x rest] eqn:En; [|reflexivity]. simpl.
      erewrite bind_ok; [|apply read_ok; exact Hsd1].
      rewrite (modify_ok _ _ _ _ Hm1). rewrite (Hempty1 eq_refl).
      do 2 f_equal. unfold h1. rewrite list_insert_insert_eq.
      reflexivity. }
    erewrite bind_ok; [|exact Hcontent].
    erewrite bind_ok; [|apply read_ok; exact Hsd1].
    unfold elems in Hleaf |- *. rewrite Hkids1.
    destruct (Children cn) as [l|]; [|reflexivity].
    rewrite Hleaf. reflexivity.
  - exact Hframe.
  - intros lv L c -> Hg Hlm Hfuel.
    destruct (deref_inv _ _ _ Hcn) as (c' & Ec & Hc). injection Ec as <-.
    assert (Hg1 : good lv L h1) by (apply good_set_Content; assumption).
    assert (Hc1 : exists cn1, h1 !! c = Some cn1).
    { apply lookup_lt_is_Some_2. unfold h1. rewrite length_insert.
      eapply lookup_lt_Some; exact Hc. }
    destruct Hc1 as (cn1 & Hc1).
    destruct (Merge_total lv L skipOverwrite f h1 m c _ _ Hg1 Hm1 Hc1 Hlm Hfuel)
      as (h2 & E2 & _ & _).
    destruct Hg as (_ & Hlev & _).
    destruct (Hframe (fun x => lv m < lv x) h2) as (md2 & Hl2 & Hc2).
    + intros x Hx nd c0 Hl Hin. pose proof (proj1 (Hlev x nd Hl) c0 Hin). lia.
    + intros nd c0 Hl Hin. pose proof (proj1 (Hlev m nd Hl) c0 Hin). lia.
    + intros c0 Ec nd c1 Hl Hin. injection Ec as <-.
      pose proof (proj1 (Hlev c nd Hl) c1 Hin). lia.
    + lia.
    + exact E2.
    + exists h2, md2. auto.
Qed.

Lemma MergeChild_skip_overwrite_witness :
  MergeChild (fun m c => Merge 1 m c ["labels"]) ["labels"] (Some 1) (Some 5)
             labelsStore
  = Ok (tt, <[2 := mkNode (Some 1) "tag" noName [] "a,b" None]> labelsStore)
  /\ MergeChild (fun m c => Merge 1 m c []) [] (Some 1) (Some 5) labelsStore
     = Ok (tt, <[2 := mkNode (Some 1) "tag" noName [] "b" None]> labelsStore)
  /\ (exists h2 md2,
        Merge 2 (Some 2) (Some 6) ["labels"]
              (<[2 := mkNode (Some 1) "tag" noName [] "a,b" (Some [Some 3])]>
                 deepLabelsStore)
        = Ok (tt, h2)
        /\ h2 !! 2 = Some md2 /\ Content md2 = "a,b").
Proof.
  split; [|split].
  - pose proof (MergeChild_skip_overwrite 1 ["labels"] labelsStore (Some 1) (Some 5)
                  (mkNode (Some 4) "tag" noName [] "b" None) 2
                  (mkNode (Some 1) "tag" noName [] "a" None) 1
                  (mkNode (Some 0) "labels" noName [] "" (Some [Some 2]))
                  eq_refl ltac:(discriminate) eq_refl eq_refl eq_refl eq_refl eq_refl)
      as H.
    cbv zeta in H. destruct H as (H1 & H2 & _).
    rewrite H1. apply H2; [reflexivity|lia].
  - pose proof (MergeChild_skip_overwrite 1 [] labelsStore (Some 1) (Some 5)
                  (mkNode (Some 4) "tag" noName [] "b" None) 2
                  (mkNode (Some 1) "tag" noName [] "a" None) 1
                  (mkNode (Some 0) "labels" noName [] "" (Some [Some 2]))
                  eq_refl ltac:(discriminate) eq_refl eq_refl eq_refl eq_refl eq_refl)
      as H.
    cbv zeta in H. destruct H as (H1 & H2 & _).
    rewrite H1. apply H2; [reflexivity|lia].
  - pose proof (MergeChild_skip_overwrite 2 ["labels"] deepLabelsStore (Some 1)
                  (Some 6)
                  (mkNode (Some 5) "tag" noName [] "b" (Some [Some 7])) 2
                  (mkNode (Some 1) "tag" noName [] "a" (Some [Some 3])) 1
                  (mkNode (Some 0) "labels" noName [] "" (Some [Some 2]))
                  eq_refl ltac:(discriminate) eq_refl eq_refl eq_refl eq_refl eq_refl)
      as H.
    cbv zeta in H. destruct H as (_ & _ & _ & H4).
    apply (H4 (fun a => nth a [0; 1; 2; 3; 0; 1; 2; 3] 0) 3 6 eq_refl);
      [|reflexivity|simpl; lia].
    split; [|split]; intros x nd Hx;
      repeat (destruct x as [|x]; [injection Hx as <-|]); try discriminate Hx.
    all: try (split; [repeat constructor; eexists _, _; split; reflexivity
                     |first [left; reflexivity
                            |right; eexists _, _; split; reflexivity]]).
    all: try (split; [intros c Hin; simpl in Hin;
                      repeat (destruct Hin as [Hin|Hin];
                              [injection Hin as <-; reflexivity|]);
                      contradiction
                     |intros q Hq; simpl in Hq;
                      first [discriminate Hq|injection Hq as <-; reflexivity]]).
    all: simpl; lia.
Defined.

Example Merge_labelsStore_accumulates :
  Merge 3 (Some 0) (Some 3) ["labels"] labelsStore
  = Ok (tt, <[2 := mkNode (Some 1) "tag" noName [] "a,b" None]> labelsStore).
Proof. reflexivity. Qed.

Example Merge_labelsStore_overwrites :
  Merge 3 (Some 0) (Some 3) [] labelsStore
  = Ok (tt, <[2 := mkNode (Some 1) "tag" noName [] "b" None]> labelsStore).
Proof. reflexivity. Qed.


(** ** The loops behind the iterations

    The statements about one iteration apply to the recursive methods
    through these equations: each method, given fuel, is its loop over the
    child slice read at the start, with the method itself at one unit of
    fuel less as recursive call. *)

Lemma PreprocessTemplate_loop f n h nd :
  deref h n = Ok nd ->
  PreprocessTemplate (S f) n h
  = forM (elems (Children nd)) (PreprocessChild f (PreprocessTemplate f) n) h.
Proof.
  intros Hn. cbn [PreprocessTemplate].
  erewrite bind_ok; [reflexivity|apply read_ok; exact Hn].
Qed.

Lemma Union_loop f n source h nd sd :
  deref h n = Ok nd -> deref h source = Ok sd ->
  GetContent nd <> "" ->
  Union (S f) n source h = forM (elems (Children sd)) (UnionChild (Union f) n) h.
Proof.
  intros Hn Hs Hc. cbn [Union].
  erewrite bind_ok; [|apply read_ok; exact Hn].
  destruct (GetContent nd) eqn:E; [congruence|]. cbn [len String.length Nat.eqb].
  unfold bind at 1. unfold ret.
  erewrite bind_ok; [reflexivity|apply read_ok; exact Hs].
Qed.

Lemma Merge_loop f n s skipOverwrite h nd sd :
  deref h n = Ok nd -> deref h (Some s) = Ok sd ->
  Content nd <> "" ->
  Merge (S f) n (Some s) skipOverwrite h
  = forM (elems (Children sd))
         (MergeChild (fun m c => Merge f m c skipOverwrite) skipOverwrite n) h.
Proof.
  intros Hn Hs Hc. cbn [Merge].
  erewrite bind_ok; [|apply read_ok; exact Hn].
  destruct (Content nd) eqn:E; [congruence|]. cbn [len String.length Nat.eqb].
  unfold bind at 1. unfold ret.
  erewrite bind_ok; [reflexivity|apply read_ok; exact Hs].
Qed.

(** ** The byte-level helpers on sample inputs *)

Example TrimSpace_blanks : TrimSpace "   a b  " = "a b".
Proof. reflexivity. Qed.

(** U+00A0 in front, U+2003 behind. *)
Example TrimSpace_unicode :
  TrimSpace (String "194" (String "160" (String "x"
              (String "226" (String "128" (String "131" EmptyString))))))
  = "x".
Proof. reflexivity. Qed.

(** A lone continuation byte is not white space. *)
Example TrimSpace_stray_byte :
  TrimSpace (String "160" (String "x" EmptyString))
  = String "160" (String "x" EmptyString).
Proof. reflexivity. Qed.

Example simpleName_units : simpleName " z_1 (ms)" = "z_1".
Proof. reflexivity. Qed.

Example simpleName_hyphen : simpleName "$$ read-latency, avg" = "read-latency".
Proof. reflexivity. Qed.

Example simpleName_none : simpleName "()%" = "".
Proof. reflexivity. Qed.


(** ** Attributes *)

Lemma GetAttrLoop_miss a0 l nm :
  Forall (fun b => Local (AName b) <> nm) l ->
  GetAttrLoop a0 l nm = (default a0 (last l), false).
Proof.
  intros Hl. revert a0. induction Hl as [|b r Hb _ IH]; intros a0.
  - reflexivity.
  - cbn [GetAttrLoop]. apply String.eqb_neq in Hb. rewrite Hb, IH, last_cons.
    destruct (last r); reflexivity.
Qed.

Lemma GetAttrLoop_hit a0 l1 a l2 nm :
  Forall (fun b => Local (AName b) <> nm) l1 -> Local (AName a) = nm ->
  GetAttrLoop a0 (l1 ++ a :: l2) nm = (a, true).
Proof.
  intros Hl Ha. revert a0. induction Hl as [|b r Hb _ IH]; intros a0.
  - cbn. apply String.eqb_eq in Ha. rewrite Ha. reflexivity.
  - cbn [GetAttrLoop app]. apply String.eqb_neq in Hb. rewrite Hb. apply IH.
Qed.

(** Every list of attributes either has no attribute named [nm] or
    splits at the first one. *)
Lemma attrs_split (l : list Attr) nm :
  Forall (fun b => Local (AName b) <> nm) l
  \/ exists l1 a l2, l = l1 ++ a :: l2
       /\ Forall (fun b => Local (AName b) <> nm) l1 /\ Local (AName a) = nm.
Proof.
  induction l as [|b r IH].
  - left. constructor.
  - destruct (String.eqb (Local (AName b)) nm) eqn:E.
    + right. exists [], b, r. apply String.eqb_eq in E. repeat split; auto.
    + apply String.eqb_neq in E. destruct IH as [IH|(l1 & a & l2 & -> & H1 & H2)].
      * left. constructor; assumption.
      * right. exists (b :: l1), a, l2. repeat split; auto.
Qed.

(** X1. When no attribute of the node is named [nm], [GetAttr] answers "not
    found" together with the LAST attribute of the node (the zero
    attribute only when the node has none), and [GetAttrValueS] answers
    "not found" with the empty string. *)
Theorem GetAttr_miss_returns_last n nm :
  Forall (fun b => Local (AName b) <> nm) (Attrs n) ->
  GetAttr n nm = (default zeroAttr (last (Attrs n)), false)
  /\ GetAttrValueS n nm = ("", false).
Proof.
  intros Hl. unfold GetAttrValueS, GetAttr.
  rewrite (GetAttrLoop_miss _ _ _ Hl). split; reflexivity.
Qed.

Lemma GetAttr_miss_returns_last_witness :
  GetAttr (mkNode None "n" noName [mkAttr (mkName "" "unit") "ms"] "" None) "type"
  = (mkAttr (mkName "" "unit") "ms", false)
  /\ GetAttrValueS (mkNode None "n" noName [mkAttr (mkName "" "unit") "ms"] "" None)
       "type" = ("", false).
Proof.
  apply (GetAttr_miss_returns_last
           (mkNode None "n" noName [mkAttr (mkName "" "unit") "ms"] "" None) "type").
  repeat constructor. discriminate.
Defined.

(** X2. [NewAttrS] appends: afterwards the name is found, with the value of
    the earlier attribute of that name when there was one (the new one is
    shadowed), else with the new value; the other names answer as
    before, and nothing else in the store changes. *)
Theorem NewAttrS_then_lookup (h : heap) a nd nm value :
  h !! a = Some nd ->
  exists nd',
    NewAttrS (Some a) nm value h = Ok (tt, <[a := nd']> h)
    /\ GetAttrValueS nd' nm
       = (if snd (GetAttr nd nm) then fst (GetAttrValueS nd nm) else value, true)
    /\ (forall nm', nm' <> nm -> GetAttrValueS nd' nm' = GetAttrValueS nd nm')
    /\ GetName nd' = GetName nd /\ Content nd' = Content nd
    /\ Children nd' = Children nd /\ parent nd' = parent nd.
Proof.
  intros Ha.
  exists (set_Attrs (Attrs nd ++ [mkAttr (mkName "" nm) value]) nd).
  split; [|split; [|split; [|repeat split]]].
  - unfold NewAttrS, AddAttr, modify. rewrite Ha. reflexivity.
  - unfold GetAttrValueS, GetAttr. cbn [Attrs set_Attrs].
    destruct (attrs_split (Attrs nd) nm) as [Hm|(l1 & b & l2 & E & H1 & H2)].
    + rewrite (GetAttrLoop_miss _ _ _ Hm).
      rewrite (GetAttrLoop_hit zeroAttr (Attrs nd) (mkAttr (mkName "" nm) value) [] nm Hm)
        by reflexivity.
      reflexivity.
    + rewrite E, <- app_assoc. cbn [app].
      rewrite !(GetAttrLoop_hit _ l1 b _ nm H1 H2). reflexivity.
  - intros nm' Hne. unfold GetAttrValueS, GetAttr. cbn [Attrs set_Attrs].
    destruct (attrs_split (Attrs nd) nm') as [Hm|(l1 & b & l2 & E & H1 & H2)].
    + rewrite (GetAttrLoop_miss _ _ _ Hm).
      rewrite GetAttrLoop_miss; [reflexivity|].
      apply Forall_app. split; [exact Hm|]. repeat constructor.
      cbn. congruence.
    + rewrite E, <- app_assoc. cbn [app].
      rewrite !(GetAttrLoop_hit _ l1 b _ nm' H1 H2). reflexivity.
Qed.

Lemma NewAttrS_then_lookup_witness :
  exists nd',
    NewAttrS (Some 0) "unit" "us" attrStore = Ok (tt, <[0 := nd']> attrStore)
    /\ GetAttrValueS nd' "unit" = ("ms", true).
Proof.
  destruct (NewAttrS_then_lookup attrStore 0
              (mkNode None "" (mkName "" "volume")
                 [mkAttr (mkName "" "unit") "ms"; mkAttr (mkName "" "unit") "s"] ""
                 (Some [Some 1; Some 2])) "unit" "us" eq_refl)
    as (nd' & E & Hv & _).
  exists nd'. split; [exact E|exact Hv].
Defined.


(** ** Children: creation, lookup, removal *)

Lemma NewChild_ok (h : heap) a nd nm content :
  h !! a = Some nd ->
  NewChild (Some a) nm content h
  = Ok (Some (length h),
        <[a := set_Children (append (Children nd) (Some (length h))) nd]>
          (h ++ [freshChild nd a nm content])).
Proof.
  intros Hm. pose proof (lookup_lt_Some _ _ _ Hm) as Hlt.
  unfold NewChild.
  erewrite bind_ok; [|apply read_ok, deref_ok; exact Hm].
  unfold bind at 1, alloc.
  erewrite bind_ok.
  2:{ apply modify_ok. apply list_lookup_middle. reflexivity. }
  erewrite bind_ok.
  2:{ apply modify_ok. apply list_lookup_insert_eq. rewrite length_app. simpl. lia. }
  erewrite bind_ok.
  2:{ unfold AddChild. apply modify_ok.
      rewrite !list_lookup_insert_ne by lia. apply lookup_app_l_Some. exact Hm. }
  unfold ret. do 2 f_equal.
  rewrite list_insert_insert_eq. f_equal.
  rewrite <- (Nat.add_0_r (length h)).
  rewrite insert_app_r. reflexivity.
Qed.

Lemma freshChild_name nd a nm content :
  GetNameS (freshChild nd a nm content) = nm.
Proof.
  unfold freshChild. destruct (String.eqb (GetXMLNameS nd) ""); [reflexivity|].
  unfold GetNameS, GetXMLNameS. cbn.
  destruct (String.eqb nm "") eqn:E; [|reflexivity].
  apply String.eqb_eq in E. subst. reflexivity.
Qed.

Lemma findFirst_app key h l1 l2 v :
  findFirst key h l1 v = Ok None ->
  findFirst key h (l1 ++ l2) v = findFirst key h l2 v.
Proof.
  induction l1 as [|p r IH]; cbn [findFirst app]; [reflexivity|].
  destruct p as [x|]; [|discriminate].
  destruct (deref h (Some x)) as [cn| |]; cbn [rbind]; try discriminate.
  destruct (String.eqb (key cn) v); [discriminate|exact IH].
Qed.

Lemma findFirst_agree key h h' cs v :
  Forall (fun p => exists cn cn',
            deref h p = Ok cn /\ deref h' p = Ok cn' /\ key cn' = key cn) cs ->
  findFirst key h' cs v = findFirst key h cs v.
Proof.
  induction 1 as [|p r (cn & cn' & E & E' & Hk) _ IH]; cbn [findFirst];
    [reflexivity|].
  rewrite E, E'. cbn [rbind]. rewrite Hk, IH. reflexivity.
Qed.

Lemma deref_insert_key (key : Node -> string) (h : heap) a nd nd1 p cn :
  h !! a = Some nd -> key nd1 = key nd -> deref h p = Ok cn ->
  exists cn', deref (<[a := nd1]> h) p = Ok cn' /\ key cn' = key cn.
Proof.
  intros Ha Hk Hp. apply deref_inv in Hp. destruct Hp as (x & -> & Hx).
  destruct (decide (x = a)) as [->|Hne].
  - exists nd1. split.
    + apply deref_ok, list_lookup_insert_eq. eapply lookup_lt_Some; exact Ha.
    + congruence.
  - exists cn. split; [|reflexivity].
    apply deref_ok. rewrite list_lookup_insert_ne by congruence. exact Hx.
Qed.

Lemma valid_deref h p : valid h p -> exists cn, deref h p = Ok cn.
Proof. intros (x & cn & -> & Hx). exists cn. apply deref_ok. exact Hx. Qed.

(** X3. [SetChildContentS] is an upsert: when every child pointer of the node
    is valid, the call returns, afterwards [GetChildContentS] of that name
    yields the content, and the node has one child more exactly when it
    had no child of that name before. *)
Theorem SetChildContentS_upsert (h : heap) a nd nm content :
  h !! a = Some nd -> Forall (valid h) (elems (Children nd)) ->
  exists h' nd' had,
    SetChildContentS (Some a) nm content h = Ok (tt, h')
    /\ GetChildContentS h' (Some a) nm = Ok content
    /\ HasChildS h (Some a) nm = Ok had
    /\ h' !! a = Some nd'
    /\ length (elems (Children nd'))
       = length (elems (Children nd)) + (if had : bool then 0 else 1).
Proof.
  intros Ha Hv. pose proof (lookup_lt_Some _ _ _ Ha) as Hlt.
  destruct (findFirst_valid GetNameS h _ nm Hv) as (res & E & _ & Hin).
  assert (EG : GetChildS h (Some a) nm = Ok res).
  { unfold GetChildS. rewrite (deref_ok _ _ _ Ha). exact E. }
  unfold SetChildContentS, HasChildS.
  erewrite bind_ok; [|apply read_ok; exact EG]. rewrite EG. cbn [rbind].
  destruct res as [c|].
  - destruct (Hin c eq_refl) as (_ & cd & Hc & Hnm).
    set (h' := <[c := set_Content content cd]> h).
    assert (Hagree : forall p cn, deref h p = Ok cn ->
              exists cn', deref h' p = Ok cn' /\ GetNameS cn' = GetNameS cn).
    { intros p cn Hp. eapply deref_insert_key; [exact Hc|reflexivity|exact Hp]. }
    destruct (Hagree (Some a) nd (deref_ok _ _ _ Ha)) as (nd' & Hd' & _).
    assert (Hkids : Children nd' = Children nd).
    { apply deref_inv in Hd'. destruct Hd' as (a' & Ea & Hd'). injection Ea as <-.
      unfold h' in Hd'. destruct (decide (a = c)) as [->|Hne].
      - rewrite list_lookup_insert_eq in Hd' by (eapply lookup_lt_Some; exact Hc).
        injection Hd' as <-. rewrite Hc in Ha. injection Ha as ->. reflexivity.
      - rewrite list_lookup_insert_ne in Hd' by congruence. congruence. }
    exists h', nd', true. split; [|split; [|split; [reflexivity|split]]].
    + unfold SetContentS, SetContent, modify. rewrite Hc. reflexivity.
    + unfold GetChildContentS, GetChildS. rewrite Hd'. cbn [rbind].
      rewrite Hkids.
      rewrite (findFirst_agree GetNameS h h'), E.
      2:{ eapply Forall_impl; [exact Hv|]. intros p Hp.
          destruct (valid_deref _ _ Hp) as (cn & Hcn).
          destruct (Hagree p cn Hcn) as (cn' & H1 & H2). eauto. }
      cbn [rbind]. unfold h'.
      rewrite (deref_ok _ c (set_Content content cd)); [reflexivity|].
      apply list_lookup_insert_eq. eapply lookup_lt_Some; exact Hc.
    + apply deref_inv in Hd'. destruct Hd' as (a' & Ea & Hd'). injection Ea as <-.
      exact Hd'.
    + rewrite Hkids. lia.
  - set (nd' := set_Children (append (Children nd) (Some (length h))) nd).
    set (fc := freshChild nd a nm content).
    set (h' := <[a := nd']> (h ++ [fc])).
    assert (Hlook : h' !! a = Some nd').
    { apply list_lookup_insert_eq. rewrite length_app. simpl. lia. }
    assert (Hnew : h' !! length h = Some fc).
    { unfold h'. rewrite list_lookup_insert_ne by lia.
      apply list_lookup_middle. reflexivity. }
    exists h', nd', false. split; [|split; [|split; [reflexivity|split]]].
    + unfold NewChildS. erewrite bind_ok; [reflexivity|].
      apply NewChild_ok. exact Ha.
    + unfold GetChildContentS, GetChildS. rewrite (deref_ok _ _ _ Hlook).
      cbn [rbind]. unfold nd' at 1. cbn [Children set_Children append elems].
      rewrite findFirst_app.
      2:{ rewrite (findFirst_agree GetNameS h h'); [exact E|].
          eapply Forall_impl; [exact Hv|]. intros p Hp.
          destruct (valid_deref _ _ Hp) as (cn & Hcn). exists cn.
          apply deref_inv in Hcn. destruct Hcn as (x & -> & Hx).
          assert (Hx' : (h ++ [fc]) !! x = Some cn) by (apply lookup_app_l_Some; exact Hx).
          destruct (deref_insert_key GetNameS (h ++ [fc]) a nd nd' (Some x) cn)
            as (cn' & H1 & H2).
          - apply lookup_app_l_Some. exact Ha.
          - reflexivity.
          - apply deref_ok. exact Hx'.
          - exists cn'. split; [apply deref_ok; exact Hx|]. split; assumption. }
      cbn [findFirst]. rewrite (deref_ok _ _ _ Hnew). cbn [rbind].
      unfold fc at 1. rewrite freshChild_name, String.eqb_refl. cbn [rbind].
      rewrite (deref_ok _ _ _ Hnew). reflexivity.
    + exact Hlook.
    + unfold nd'. cbn [Children set_Children append elems].
      rewrite length_app. simpl. lia.
Qed.

Lemma SetChildContentS_upsert_witness :
  exists h' nd' had,
    SetChildContentS (Some 0) "size" "20" attrStore = Ok (tt, h')
    /\ GetChildContentS h' (Some 0) "size" = Ok "20"
    /\ HasChildS attrStore (Some 0) "size" = Ok had
    /\ h' !! 0 = Some nd'
    /\ length (elems (Children nd')) = 2 + (if had : bool then 0 else 1).
Proof.
  apply (SetChildContentS_upsert attrStore 0
           (mkNode None "" (mkName "" "volume")
              [mkAttr (mkName "" "unit") "ms"; mkAttr (mkName "" "unit") "s"] ""
              (Some [Some 1; Some 2])) "size" "20" eq_refl).
  repeat constructor; eexists _, _; split; reflexivity.
Defined.


Lemma otherChild_insert (h : heap) a nd nd1 nm p :
  h !! a = Some nd -> GetName nd1 = GetName nd ->
  otherChild h nm p -> otherChild (<[a := nd1]> h) nm p.
Proof.
  intros Ha Hn (x & xd & -> & Hx & Hne).
  destruct (deref_insert_key GetName h a nd nd1 (Some x) xd Ha Hn (deref_ok _ _ _ Hx))
    as (cn' & H1 & H2).
  apply deref_inv in H1. destruct H1 as (x' & Ex & H1). injection Ex as <-.
  exists x, cn'. split; [reflexivity|]. split; [exact H1|]. congruence.
Qed.

Lemma otherChild_app (h : heap) l nm p :
  otherChild h nm p -> otherChild (h ++ l) nm p.
Proof.
  intros (x & xd & -> & Hx & Hne). exists x, xd.
  split; [reflexivity|]. split; [apply lookup_app_l_Some; exact Hx|exact Hne].
Qed.

(** X4. Creating a child under a name that no child of the node bears and
    popping that name again returns the new node and restores the child
    list of the node; the new node stays in the store, still linked to the
    node as its parent. *)
Theorem NewChild_then_PopChild (h : heap) a nd nm content :
  h !! a = Some nd -> Forall (otherChild h nm) (elems (Children nd)) ->
  (run NewChildS (Some a) nm content in PopChildS (Some a) nm) h
  = Ok (Some (length h),
        <[a := set_Children (Some (elems (Children nd))) nd]>
          (h ++ [freshChild nd a nm content])).
Proof.
  intros Ha Hoth. pose proof (lookup_lt_Some _ _ _ Ha) as Hlt.
  set (fc := freshChild nd a nm content).
  set (nd1 := set_Children (append (Children nd) (Some (length h))) nd).
  set (h1 := <[a := nd1]> (h ++ [fc])).
  assert (Hlook : h1 !! a = Some nd1).
  { apply list_lookup_insert_eq. rewrite length_app. simpl. lia. }
  assert (Hnew : h1 !! length h = Some fc).
  { unfold h1. rewrite list_lookup_insert_ne by lia.
    apply list_lookup_middle. reflexivity. }
  assert (Hoth1 : Forall (otherChild h1 nm) (elems (Children nd))).
  { eapply Forall_impl; [exact Hoth|]. intros p Hp.
    apply (otherChild_insert (h ++ [fc]) a nd nd1 nm p);
      [apply lookup_app_l_Some; exact Ha|reflexivity|].
    apply otherChild_app. exact Hp. }
  unfold NewChildS. erewrite bind_ok; [|apply NewChild_ok; exact Ha].
  fold fc nd1 h1. unfold PopChildS, PopChild.
  erewrite bind_ok; [|apply read_ok, deref_ok; exact Hlook].
  cbv zeta. unfold nd1 at 1 2 3 4. cbn [Children set_Children append elems].
  erewrite bind_ok.
  2:{ apply read_ok.
      apply (findIndex_hit h1 nm (elems (Children nd)) (length h) fc [] 0 Hoth1 Hnew).
      apply freshChild_name. }
  cbn [Nat.add].
  rewrite list_lookup_middle by reflexivity.
  rewrite last_snoc.
  erewrite bind_ok.
  2:{ apply modify_ok. exact Hlook. }
  unfold ret. do 2 f_equal. unfold h1. rewrite list_insert_insert_eq.
  f_equal. unfold nd1, set_Children. cbn. f_equal. f_equal.
  rewrite length_app. cbn [length]. rewrite Nat.add_sub.
  rewrite <- (Nat.add_0_r (length (elems (Children nd)))) at 2.
  rewrite insert_app_r. cbn. rewrite take_app_length. reflexivity.
Qed.

Lemma NewChild_then_PopChild_witness :
  (run NewChildS (Some 0) "aggr" "a1" in PopChildS (Some 0) "aggr") attrStore
  = Ok (Some 3,
        [ mkNode None "" (mkName "" "volume")
            [mkAttr (mkName "" "unit") "ms"; mkAttr (mkName "" "unit") "s"] ""
            (Some [Some 1; Some 2]);
          mkNode (Some 0) "" (mkName "" "name") [] "vol0" None;
          mkNode (Some 0) "" (mkName "" "size") [] "10" None;
          mkNode (Some 0) "" (mkName "" "aggr") [] "a1" None ]).
Proof.
  apply (NewChild_then_PopChild attrStore 0
           (mkNode None "" (mkName "" "volume")
              [mkAttr (mkName "" "unit") "ms"; mkAttr (mkName "" "unit") "s"] ""
              (Some [Some 1; Some 2])) "aggr" "a1" eq_refl).
  repeat constructor.
  - exists 1; eexists; repeat split; discriminate.
  - exists 2; eexists; repeat split; discriminate.
Defined.

(** ** The names and the contents of all children *)

Lemma collectKeys_acc key h cs acc :
  Forall (valid h) cs ->
  foldRes (fun acc ch => let? cd := deref h ch in Ok (acc ++ [key cd])) cs acc
  = Ok (acc ++ map (keyAt key h) cs).
Proof.
  intros Hv. revert acc.
  induction Hv as [|p r Hp _ IH]; intros acc; cbn [foldRes map].
  - rewrite app_nil_r. reflexivity.
  - destruct (valid_deref _ _ Hp) as (cn & Hcn). unfold keyAt at 1.
    rewrite Hcn. cbn [rbind]. rewrite IH, <- app_assoc. reflexivity.
Qed.

Lemma findFirst_assoc h cs nm :
  Forall (valid h) cs ->
  exists r,
    findFirst GetNameS h cs nm = Ok r
    /\ negb (isNil r)
       = existsb (fun k => String.eqb k nm) (map (keyAt GetNameS h) cs)
    /\ match r with
       | Some _ => keyAt GetContentS h r
       | None => ""
       end
       = firstContent nm (map (keyAt GetNameS h) cs) (map (keyAt GetContentS h) cs).
Proof.
  induction 1 as [|p r Hp _ (res & E & Hb & Hc)]; cbn [findFirst map existsb firstContent].
  - exists None. auto.
  - destruct (valid_deref _ _ Hp) as (cn & Hcn).
    destruct Hp as (x & cn0 & -> & Hx).
    unfold keyAt at 1 3 4. rewrite Hcn. cbn [rbind].
    destruct (String.eqb (GetNameS cn) nm) eqn:En.
    + exists (Some x). split; [reflexivity|]. split; [reflexivity|].
      unfold keyAt. rewrite Hcn. reflexivity.
    + exists res. cbn [orb]. auto.
Qed.

(** X5. When every child pointer of a node is valid, [GetAllChildNamesS] and
    [GetAllChildContentS] return, child by child in order, two lists of the
    length of the child list; [HasChildS] tells whether the name is in the
    first list, and [GetChildContentS] is the entry of the second list at
    the first position of the name in the first (the empty string when the
    name is absent). *)
Theorem child_lists_lookup (h : heap) a nd :
  h !! a = Some nd -> Forall (valid h) (elems (Children nd)) ->
  exists names contents,
    GetAllChildNamesS h (Some a) = Ok names
    /\ GetAllChildContentS h (Some a) = Ok contents
    /\ length names = length (elems (Children nd))
    /\ length contents = length (elems (Children nd))
    /\ forall nm,
         HasChildS h (Some a) nm = Ok (existsb (fun k => String.eqb k nm) names)
         /\ GetChildContentS h (Some a) nm = Ok (firstContent nm names contents).
Proof.
  intros Ha Hv.
  exists (map (keyAt GetNameS h) (elems (Children nd))),
         (map (keyAt GetContentS h) (elems (Children nd))).
  split; [|split; [|split; [|split]]].
  - unfold GetAllChildNamesS, collectKeys. rewrite (deref_ok _ _ _ Ha). cbn [rbind].
    rewrite (collectKeys_acc GetNameS h _ [] Hv). reflexivity.
  - unfold GetAllChildContentS, collectKeys. rewrite (deref_ok _ _ _ Ha). cbn [rbind].
    rewrite (collectKeys_acc GetContentS h _ [] Hv). reflexivity.
  - apply length_map.
  - apply length_map.
  - intros nm. destruct (findFirst_assoc h _ nm Hv) as (r & E & Hb & Hc).
    assert (EG : GetChildS h (Some a) nm = Ok r).
    { unfold GetChildS. rewrite (deref_ok _ _ _ Ha). exact E. }
    unfold HasChildS, GetChildContentS. rewrite EG. cbn [rbind]. split.
    + rewrite Hb. reflexivity.
    + rewrite <- Hc. destruct r as [c|]; [|reflexivity].
      unfold keyAt. destruct (deref h (Some c)) as [cd| |] eqn:Ed; try reflexivity.
      * exfalso. apply findFirst_In, list_elem_of_In in E.
        rewrite Forall_forall in Hv. destruct (valid_deref _ _ (Hv _ E)) as (cn & Hcn).
        congruence.
      * exfalso. apply findFirst_In, list_elem_of_In in E.
        rewrite Forall_forall in Hv. destruct (valid_deref _ _ (Hv _ E)) as (cn & Hcn).
        congruence.
Qed.

Lemma child_lists_lookup_witness :
  exists names contents,
    GetAllChildNamesS attrStore (Some 0) = Ok names
    /\ GetAllChildContentS attrStore (Some 0) = Ok contents
    /\ length names = 2 /\ length contents = 2
    /\ forall nm,
         HasChildS attrStore (Some 0) nm
         = Ok (existsb (fun k => String.eqb k nm) names)
         /\ GetChildContentS attrStore (Some 0) nm
            = Ok (firstContent nm names contents).
Proof.
  apply (child_lists_lookup attrStore 0
           (mkNode None "" (mkName "" "volume")
              [mkAttr (mkName "" "unit") "ms"; mkAttr (mkName "" "unit") "s"] ""
              (Some [Some 1; Some 2])) eq_refl).
  repeat constructor; eexists _, _; split; reflexivity.
Defined.


(** ** [Union] and [Merge] never create nodes *)

Lemma grows_refl h : grows h h.
Proof.
  split; [reflexivity|]. intros x nd Hx. exists nd.
  repeat split; auto. exists []. rewrite app_nil_r. reflexivity.
Qed.

Lemma grows_trans h1 h2 h3 : grows h1 h2 -> grows h2 h3 -> grows h1 h3.
Proof.
  intros [L12 H12] [L23 H23]. split; [congruence|].
  intros x nd Hx.
  destruct (H12 x nd Hx) as (nd2 & Hx2 & N2 & X2 & A2 & P2 & m2 & K2).
  destruct (H23 x nd2 Hx2) as (nd3 & Hx3 & N3 & X3 & A3 & P3 & m3 & K3).
  exists nd3. repeat split; try congruence.
  exists (m2 ++ m3). rewrite K3, K2, app_assoc. reflexivity.
Qed.

Lemma grows_insert (h : heap) a nd nd1 more :
  h !! a = Some nd ->
  name nd1 = name nd -> XMLName nd1 = XMLName nd -> Attrs nd1 = Attrs nd ->
  parent nd1 = parent nd ->
  elems (Children nd1) = elems (Children nd) ++ more ->
  grows h (<[a := nd1]> h).
Proof.
  intros Ha N X A P K. split; [apply length_insert|].
  intros x ndx Hx. destruct (decide (x = a)) as [->|Hne].
  - rewrite Ha in Hx. injection Hx as <-. exists nd1.
    split; [apply list_lookup_insert_eq; eapply lookup_lt_Some; exact Ha|].
    repeat split; auto. exists more. exact K.
  - exists ndx. split; [rewrite list_lookup_insert_ne by congruence; exact Hx|].
    repeat split; auto. exists []. rewrite app_nil_r. reflexivity.
Qed.

Lemma SetContent_grows p v (h : heap) u h1 :
  SetContent p v h = Ok (u, h1) -> grows h h1.
Proof.
  intros E. apply modify_inv in E. destruct E as (a & nd & -> & Ha & ->).
  apply (grows_insert h a nd _ []); auto. cbn. rewrite app_nil_r. reflexivity.
Qed.

Lemma AddChild_grows p c (h : heap) u h1 :
  AddChild p c h = Ok (u, h1) -> grows h h1.
Proof.
  intros E. apply modify_inv in E. destruct E as (a & nd & -> & Ha & ->).
  apply (grows_insert h a nd _ [c]); auto.
Qed.

Lemma forM_grows {A} (body : A -> M unit) xs :
  (forall x h u h1, body x h = Ok (u, h1) -> grows h h1) ->
  forall h u h1, forM xs body h = Ok (u, h1) -> grows h h1.
Proof.
  intros Hb. induction xs as [|x r IH]; intros h u h1 E; cbn [forM] in E.
  - injection E as _ <-. apply grows_refl.
  - apply bind_inv in E. destruct E as (u0 & h0 & E0 & E).
    eapply grows_trans; [eapply Hb; exact E0|].
    eapply IH. exact E.
Qed.

(** Inside [Union] the call of [SetChildContentS] comes after [HasChild]
    answered yes for the same name, so it overwrites and never creates. *)
Lemma UnionChild_grows rec n child :
  (forall m c h u h1, rec m c h = Ok (u, h1) -> grows h h1) ->
  forall h u h1, UnionChild rec n child h = Ok (u, h1) -> grows h h1.
Proof.
  intros Hrec h u h1 E. unfold UnionChild in E.
  inv_read E cn h0 Hcn. inv_read E has h0 Hhas.
  destruct has; cbn [negb] in E.
  - destruct (GetChildren cn) as [kids|].
    + inv_read E mine h0 Hmine. eapply Hrec. exact E.
    + unfold SetChildContentS in E. inv_read E c h0 Hc.
      rewrite GetChildS_GetChild in Hc.
      unfold HasChild in Hhas.
      change (GetNameS cn) with (GetName cn) in Hc. rewrite Hc in Hhas.
      cbn [rbind] in Hhas. destruct c as [c|]; [|discriminate].
      eapply SetContent_grows. exact E.
  - eapply AddChild_grows. exact E.
Qed.

Lemma Union_grows fuel :
  forall n source h u h1, Union fuel n source h = Ok (u, h1) -> grows h h1.
Proof.
  induction fuel as [|f IH]; intros n source h u h1 E; [discriminate|].
  cbn [Union] in E. inv_read E nd h0 Hnd.
  apply bind_inv in E. destruct E as (u0 & h0 & E0 & E).
  assert (G0 : grows h h0).
  { destruct (Nat.eqb (len (GetContent nd)) 0).
    - inv_read E0 sd h2 Hsd. eapply SetContent_grows. exact E0.
    - injection E0 as _ <-. apply grows_refl. }
  inv_read E sd h2 Hsd. eapply grows_trans; [exact G0|].
  eapply forM_grows; [|exact E].
  intros x h3 u3 h4. apply UnionChild_grows. exact IH.
Qed.

Lemma collide_grows skipOverwrite mine child (h : heap) u h1 :
  collide skipOverwrite mine child h = Ok (u, h1) -> grows h h1.
Proof.
  intros E. unfold collide in E.
  inv_read E md h0 Hmd. inv_read E keep h0 Hkeep. inv_read E cd h0 Hcd.
  destruct keep; eapply SetContent_grows; exact E.
Qed.

Lemma MergeChild_grows rec skipOverwrite n child :
  (forall m c h u h1, rec m c h = Ok (u, h1) -> grows h h1) ->
  forall h u h1, MergeChild rec skipOverwrite n child h = Ok (u, h1) -> grows h h1.
Proof.
  intros Hrec h u h1 E. unfold MergeChild in E.
  inv_read E cn h0 Hcn. inv_read E mine h0 Hmine.
  destruct (Nat.eqb (len (GetName cn)) 0).
  - inv_read E target h0 Ht. destruct target as [t|].
    + eapply AddChild_grows. exact E.
    + injection E as _ <-. apply grows_refl.
  - destruct (isNil mine).
    + eapply AddChild_grows. exact E.
    + apply bind_inv in E. destruct E as (u0 & h0 & E0 & E).
      eapply grows_trans.
      * eapply collide_grows. exact E0.
      * eapply Hrec. exact E.
Qed.

Lemma Merge_grows fuel skipOverwrite :
  forall n s h u h1, Merge fuel n s skipOverwrite h = Ok (u, h1) -> grows h h1.
Proof.
  induction fuel as [|f IH]; intros n s h u h1 E.
  - destruct s; cbn [Merge] in E; [discriminate|].
    injection E as _ <-. apply grows_refl.
  - destruct s as [s|]; cbn [Merge] in E.
    2:{ injection E as _ <-. apply grows_refl. }
    inv_read E nd h0 Hnd.
    apply bind_inv in E. destruct E as (u0 & h0 & E0 & E).
    assert (G0 : grows h h0).
    { destruct (Nat.eqb (len (Content nd)) 0).
      - inv_read E0 sd h2 Hsd. eapply (SetContent_grows n (Content sd)). exact E0.
      - injection E0 as _ <-. apply grows_refl. }
    inv_read E sd h2 Hsd. eapply grows_trans; [exact G0|].
    eapply forM_grows; [|exact E].
    intros x h3 u3 h4. apply MergeChild_grows. intros m c. apply IH.
Qed.

(** X6. Whenever [Union] returns, the store has the size it had: no node is
    created (the call of [SetChildContentS] always finds its child).  Every
    node keeps its plain name, its markup name, its attributes and its
    parent link (an adopted child still points to its former parent), and
    its child list is the former one with children added at the end. *)
Theorem Union_never_allocates fuel n source h h' :
  Union fuel n source h = Ok (tt, h') -> grows h h'.
Proof. apply Union_grows. Qed.

Lemma Union_never_allocates_witness :
  exists h', Union 3 (Some 0) (Some 4) unionStore = Ok (tt, h')
             /\ grows unionStore h'.
Proof.
  eexists. split; [vm_compute; reflexivity|].
  apply (Union_never_allocates 3 (Some 0) (Some 4)). vm_compute. reflexivity.
Defined.

(** X7. Whenever [Merge] returns, the store has the size it had; every node
    keeps its plain name, its markup name, its attributes and its parent
    link (an adopted child still points to its former parent), and its
    child list is the former one with children added at the end: [Merge]
    never removes or reorders children. *)
Theorem Merge_never_allocates fuel n subtemplate skipOverwrite h h' :
  Merge fuel n subtemplate skipOverwrite h = Ok (tt, h') -> grows h h'.
Proof. apply Merge_grows. Qed.

Lemma Merge_never_allocates_witness :
  exists h', Merge 4 (Some 0) (Some 3) ["labels"] labelsStore = Ok (tt, h')
             /\ grows labelsStore h'.
Proof.
  eexists. split; [vm_compute; reflexivity|].
  apply (Merge_never_allocates 4 (Some 0) (Some 3) ["labels"]).
  vm_compute. reflexivity.
Defined.


(** ** [searchAncestor] and [PreprocessTemplate] *)



Lemma searchAncestor_absent fuel h n s r :
  (forall x nd, h !! x = Some nd -> GetNameS nd <> s) ->
  searchAncestor fuel h n s = Ok r -> r = None.
Proof.
  intros Hno. revert n. induction fuel as [|f IH]; intros n E.
  - destruct n; cbn in E; [discriminate|]. injection E as <-. reflexivity.
  - destruct n as [a|]; cbn [searchAncestor] in E.
    2:{ injection E as <-. reflexivity. }
    destruct (deref h (Some a)) as [nd| |]; cbn [rbind] in E; try discriminate.
    unfold GetParent in E. destruct (parent nd) as [pa|].
    2:{ injection E as <-. reflexivity. }
    destruct (deref h (Some pa)) as [pd| |] eqn:Edp; cbn [rbind] in E;
      try discriminate.
    apply deref_inv in Edp. destruct Edp as (pa' & Epa & Hpa). injection Epa as <-.
    pose proof (Hno pa pd Hpa) as Hne. apply String.eqb_neq in Hne.
    rewrite Hne in E. apply (IH _ E).
Qed.

Lemma forM_same {A} (body : A -> M unit) xs :
  (forall x (h : heap) u h1, body x h = Ok (u, h1) -> h1 = h) ->
  forall (h : heap) u h1, forM xs body h = Ok (u, h1) -> h1 = h.
Proof.
  intros Hb. induction xs as [|x r IH]; intros h u h1 E; cbn [forM] in E.
  - injection E as _ <-. reflexivity.
  - apply bind_inv in E. destruct E as (u0 & h0 & E0 & E).
    apply Hb in E0. subst h0. eapply IH. exact E.
Qed.

Lemma PreprocessTemplate_same fuel :
  forall n (h : heap) u h1,
    (forall x nd, h !! x = Some nd -> GetNameS nd <> sentinel) ->
    PreprocessTemplate fuel n h = Ok (u, h1) -> h1 = h.
Proof.
  induction fuel as [|f IH]; intros n h u h1 Hno E; [discriminate|].
  cbn [PreprocessTemplate] in E. inv_read E nd h0 Hnd.
  cut (forall xs (h2 : heap) u2 h3, h2 = h ->
         forM xs (PreprocessChild f (PreprocessTemplate f) n) h2 = Ok (u2, h3) ->
         h3 = h).
  { intros Hcut. eapply Hcut; [reflexivity|exact E]. }
  clear E. induction xs as [|x r IHxs]; intros h2 u2 h3 -> E; cbn [forM] in E.
  - injection E as _ <-. reflexivity.
  - apply bind_inv in E. destruct E as (u0 & h0 & E0 & E).
    assert (h0 = h) as ->.
    { unfold PreprocessChild in E0. inv_read E0 cn h4 Hcn. inv_read E0 mine h4 Hmine.
      destruct (negb (isNil mine) && Nat.ltb 0 (len (GetName cn))).
      - apply bind_inv in E0. destruct E0 as (u1 & h4 & Ed & E0).
        assert (h4 = h) as ->.
        { unfold demote in Ed. inv_read Ed anc h5 Hanc.
          apply (searchAncestor_absent _ _ _ _ _ Hno) in Hanc. subst anc.
          cbn [isNil] in Ed. injection Ed as _ <-. reflexivity. }
        eapply IH; [exact Hno|exact E0].
      - injection E0 as _ <-. reflexivity. }
    eapply IHxs; [reflexivity|exact E].
Qed.

(** X9. In a store without a node named [LabelAgent], [PreprocessTemplate]
    changes nothing: whenever it returns, the store is the one it was
    given. *)
Theorem PreprocessTemplate_without_sentinel fuel n (h : heap) h' :
  (forall x nd, h !! x = Some nd -> GetNameS nd <> sentinel) ->
  PreprocessTemplate fuel n h = Ok (tt, h') -> h' = h.
Proof. intros Hno E. exact (PreprocessTemplate_same fuel n h tt h' Hno E). Qed.

Lemma PreprocessTemplate_without_sentinel_witness :
  exists h', PreprocessTemplate 8 (Some 0) xyzStore = Ok (tt, h') /\ h' = xyzStore.
Proof.
  eexists. split; [vm_compute; reflexivity|].
  apply (PreprocessTemplate_without_sentinel 8 (Some 0) xyzStore).
  - intros x nd Hx.
    do 7 (destruct x as [|x]; [injection Hx as <-; discriminate|]).
    discriminate Hx.
  - vm_compute. reflexivity.
Defined.


(** ** [SearchContent] *)

Lemma MaxLen_bound paths p : In p paths -> length p <= MaxLen paths.
Proof.
  induction paths as [|q r IH]; cbn [MaxLen fold_right In]; [tauto|].
  intros [->|Hin]; [lia|]. specialize (IH Hin). unfold MaxLen in IH. lia.
Qed.

Lemma existsb_Equal_bound q paths :
  existsb (EqualStringSlice q) paths = true -> length q <= MaxLen paths.
Proof.
  intros E. apply existsb_exists in E. destruct E as (p & Hin & Eq).
  apply EqualStringSlice_length in Eq. rewrite Eq. apply MaxLen_bound. exact Hin.
Qed.

(** Below a vertex whose running path is as long as the longest
    candidate, nothing matches. *)
Lemma no_content_below p0 paths t above :
  0 < MaxLen paths ->
  MaxLen paths <= length (anchor p0 above) ->
  List.filter (anchoredIn p0 paths) (walk t above) = [].
Proof.
  intros Hpos Hlen.
  assert (Hnz : anchor p0 above <> []).
  { intros E. rewrite E in Hlen. simpl in Hlen. lia. }
  generalize (walk_extends t above). intros Hx.
  assert (Hall : forall e, In e (walk t above) -> anchoredIn p0 paths e = false).
  { intros e0 He0. destruct (Hx e0 He0) as (more & Hm & Hs).
    unfold anchoredIn. rewrite Hs, anchor_app_nonempty by assumption.
    destruct (existsb _ paths) eqn:Eq; [|reflexivity].
    apply existsb_Equal_bound in Eq. rewrite length_app in Eq.
    destruct more; [congruence|]. simpl in Eq. lia. }
  clear -Hall. induction (walk t above) as [|e l IH]; [reflexivity|].
  cbn [List.filter]. rewrite (Hall e (or_introl eq_refl)). apply IH.
  intros e0 He0. apply Hall. right. exact He0.
Qed.

Lemma searchContent_kids f h prefix paths p0 cur above' ks :
  Forall (fun k => forall matches,
            searchContent f h prefix paths (Some (root k)) cur matches
            = Ok (matches ++ map (fun e => cont h (Some (fst e)))
                    (List.filter (anchoredIn p0 paths) (walk k above')))) ks ->
  forall matches,
    foldRes (fun acc child => searchContent f h prefix paths child cur acc)
            (map (fun k => Some (root k)) ks) matches
    = Ok (matches ++ map (fun e => cont h (Some (fst e)))
            (List.filter (anchoredIn p0 paths)
               (concat (map (fun k => walk k above') ks)))).
Proof.
  induction 1 as [|k r Hk _ IH]; intros matches; simpl.
  - rewrite app_nil_r. reflexivity.
  - rewrite Hk. simpl. rewrite IH, List.filter_app, map_app, app_assoc.
    reflexivity.
Qed.

Lemma searchContent_walk t :
  forall fuel h p0 pr paths above matches,
    repr h t -> depth t <= fuel -> 0 < MaxLen paths ->
    length (anchor p0 above) < MaxLen paths ->
    searchContent fuel h (p0 :: pr) paths (Some (root t)) (anchor p0 above) matches
    = Ok (matches ++ map (fun e => cont h (Some (fst e)))
            (List.filter (anchoredIn p0 paths) (walk t above))).
Proof.
  induction t as [a nd ks IH] using tree_rect_nested.
  intros fuel h p0 pr paths above matches Hr Hd Hpos Hlen.
  apply repr_unfold in Hr. destruct Hr as (Ha & Hc & Hks).
  rewrite depth_unfold in Hd. destruct fuel as [|f]; [lia|].
  set (cur := anchor p0 above) in *.
  set (above' := above ++ [GetNameS nd]).
  assert (Hnew : (if Nat.ltb 0 (length cur) || String.eqb p0 (GetNameS nd)
                  then cur ++ [GetNameS nd] else cur) = anchor p0 above').
  { unfold above', cur. rewrite anchor_snoc. reflexivity. }
  assert (Hstep : searchContent (S f) h (p0 :: pr) paths (Some a) cur matches =
    let matches' := if existsb (EqualStringSlice (anchor p0 above')) paths
                    then matches ++ [GetContentS nd] else matches in
    if Nat.ltb (length (anchor p0 above')) (MaxLen paths)
    then foldRes (fun acc child =>
                    searchContent f h (p0 :: pr) paths child (anchor p0 above') acc)
                 (elems (GetChildren nd)) matches'
    else Ok matches').
  { cbn [searchContent]. cbn [deref]. rewrite Ha. cbn [rbind].
    destruct (Nat.ltb 0 (length cur)) eqn:E0; cbn [rbind orb] in *;
      rewrite <- Hnew; reflexivity. }
  cbn [root]. rewrite Hstep. clear Hstep Hnew. cbv zeta.
  cbn [walk]. fold above'. cbn [List.filter].
  change (anchoredIn p0 paths (a, above')) with
    (existsb (EqualStringSlice (anchor p0 above')) paths).
  assert (Hcont : cont h (Some a) = GetContentS nd).
  { unfold cont. rewrite (deref_ok _ _ _ Ha). reflexivity. }
  set (matches' := if existsb (EqualStringSlice (anchor p0 above')) paths
                   then matches ++ [GetContentS nd] else matches).
  assert (Hhead : forall rest,
    matches ++ map (fun e => cont h (Some (fst e)))
      (if existsb (EqualStringSlice (anchor p0 above')) paths
       then (a, above') :: rest else rest)
    = matches' ++ map (fun e => cont h (Some (fst e))) rest).
  { intros rest. unfold matches'.
    destruct (existsb (EqualStringSlice (anchor p0 above')) paths).
    - cbn [map fst]. rewrite Hcont, <- app_assoc. reflexivity.
    - reflexivity. }
  rewrite Hhead.
  destruct (Nat.ltb (length (anchor p0 above')) (MaxLen paths)) eqn:El.
  - apply Nat.ltb_lt in El. unfold GetChildren. rewrite Hc.
    apply searchContent_kids.
    assert (Hdk : Forall (fun k => depth k <= f) ks) by (apply depth_kids; lia).
    clear Hc Hd. induction IH as [|k r Hk _ IHr]; constructor.
    + intros m. inversion Hks; subst. inversion Hdk; subst.
      apply Hk; assumption.
    + inversion Hks; subst. inversion Hdk; subst. apply IHr; assumption.
  - apply Nat.ltb_ge in El.
    rewrite filter_concat_nil; [rewrite app_nil_r; reflexivity|].
    intros k _. apply no_content_below; assumption.
Qed.

(** X10. When some candidate path is not empty, [SearchContent] returns the raw
    contents of exactly the vertices whose anchored name path (the name
    path from the search root without the leading names that differ from
    [prefix[0]]) is one of the candidate paths, in pre-order, each vertex
    once; the flag tells whether there is any. *)
Theorem SearchContent_anchored h t fuel p0 pr paths :
  repr h t -> depth t <= fuel -> 0 < MaxLen paths ->
  SearchContent fuel h (Some (root t)) (p0 :: pr) paths
  = Ok (map (fun e => cont h (Some (fst e)))
          (List.filter (anchoredIn p0 paths) (walk t [])),
        Nat.ltb 0 (length (List.filter (anchoredIn p0 paths) (walk t [])))).
Proof.
  intros Hr Hd Hpos. unfold SearchContent.
  pose proof (searchContent_walk t fuel h p0 pr paths [] [] Hr Hd Hpos Hpos) as E.
  cbn [anchor] in E. rewrite E. cbn [rbind app]. rewrite length_map. reflexivity.
Qed.

Lemma SearchContent_anchored_witness :
  SearchContent 4 xyzStore (Some 0) ["X"] [["X"; "x"]; ["X"]]
  = Ok ([""; "x1"], true).
Proof.
  apply (SearchContent_anchored xyzStore xyzTree 4 "X" [] [["X"; "x"]; ["X"]]).
  - simpl. repeat split.
  - simpl. lia.
  - simpl. lia.
Defined.

Lemma searchContent_single fuel :
  forall h p0 pr rest node cur ms,
    searchContent fuel h (p0 :: pr) [p0 :: rest] node cur (map (cont h) ms)
    = let? r := search fuel h (p0 :: rest) node cur ms in Ok (map (cont h) r).
Proof.
  induction fuel as [|f IH]; intros h p0 pr rest node cur ms; [reflexivity|].
  cbn [searchContent search].
  assert (Hfold : forall newPath cs ms0,
    foldRes (fun acc child =>
               searchContent f h (p0 :: pr) [p0 :: rest] child newPath acc)
            cs (map (cont h) ms0)
    = let? r := foldRes (fun acc child => search f h (p0 :: rest) child newPath acc)
                        cs ms0 in
      Ok (map (cont h) r)).
  { intros newPath cs. induction cs as [|c r IHcs]; intros ms0; cbn [foldRes rbind].
    - reflexivity.
    - rewrite IH. destruct (search f h (p0 :: rest) c newPath ms0) as [r0| |];
        cbn [rbind]; [apply IHcs|reflexivity|reflexivity]. }
  assert (Hbody : forall anchored nd, deref h node = Ok nd ->
    (let newPath := if anchored : bool then cur ++ [GetNameS nd] else cur in
     let matches' := if existsb (EqualStringSlice newPath) [p0 :: rest]
                     then map (cont h) ms ++ [GetContentS nd] else map (cont h) ms in
     if Nat.ltb (length newPath) (MaxLen [p0 :: rest])
     then foldRes (fun acc child =>
                     searchContent f h (p0 :: pr) [p0 :: rest] child newPath acc)
                  (elems (GetChildren nd)) matches'
     else Ok matches')
    = let? r :=
        (let newPath := if anchored : bool then cur ++ [GetNameS nd] else cur in
         if EqualStringSlice newPath (p0 :: rest) then Ok (ms ++ [node])
         else if Nat.ltb (length newPath) (length (p0 :: rest))
              then foldRes (fun acc child => search f h (p0 :: rest) child newPath acc)
                           (elems (GetChildren nd)) ms
              else Ok ms) in
      Ok (map (cont h) r)).
  { intros anchored nd Hnd. cbv zeta.
    set (newPath := if anchored then cur ++ [GetNameS nd] else cur).
    cbn [existsb MaxLen fold_right]. rewrite orb_false_r, Nat.max_0_r.
    destruct (EqualStringSlice newPath (p0 :: rest)) eqn:Eq.
    - apply EqualStringSlice_length in Eq. rewrite Eq, Nat.ltb_irrefl.
      cbn [rbind]. rewrite map_app. cbn [map]. unfold cont at 3. rewrite Hnd.
      reflexivity.
    - destruct (Nat.ltb (length newPath) (length (p0 :: rest))).
      + apply Hfold.
      + reflexivity. }
  destruct (Nat.ltb 0 (length cur)); cbn [rbind].
  - destruct (deref h node) as [nd| |] eqn:Hnd; cbn [rbind]; try reflexivity.
    apply (Hbody true nd eq_refl).
  - destruct (deref h node) as [nd| |] eqn:Hnd; cbn [rbind]; try reflexivity.
    apply (Hbody (String.eqb p0 (GetNameS nd)) nd eq_refl).
Qed.

(** X11. For a single candidate path that begins with [prefix[0]],
    [SearchContent] returns the raw contents of the nodes that
    [SearchChildren] returns for that path, in the same order, with the
    flag telling whether there is one; it panics or runs on exactly when
    [SearchChildren] does. *)
Theorem SearchContent_single_path fuel h n p0 pr rest :
  SearchContent fuel h n (p0 :: pr) [p0 :: rest]
  = let? ms := SearchChildren fuel h n (p0 :: rest) in
    Ok (map (cont h) ms, Nat.ltb 0 (length ms)).
Proof.
  unfold SearchContent, SearchChildren.
  pose proof (searchContent_single fuel h p0 pr rest n [] []) as E.
  cbn [map] in E. rewrite E.
  destruct (search fuel h (p0 :: rest) n [] []) as [r| |]; cbn [rbind];
    [|reflexivity|reflexivity].
  rewrite length_map. reflexivity.
Qed.


(** ** [DecodeHTML] *)

Lemma bytes_app a b : bytes (a +:+ b) = bytes a ++ bytes b.
Proof. induction a as [|c a IH]; cbn; [reflexivity|]. rewrite IH. reflexivity. Qed.

Lemma replaceFrom_bytes old new c :
  forall s skip,
    In c (bytes (replaceFrom skip s old new)) ->
    In c (bytes s) \/ In c (bytes new).
Proof.
  induction s as [|d r IH]; intros skip Hin; cbn [replaceFrom] in Hin.
  - contradiction.
  - destruct skip as [|k].
    + destruct (String.prefix old (String d r)).
      * rewrite bytes_app in Hin. apply in_app_or in Hin.
        destruct Hin as [Hin|Hin]; [right; exact Hin|].
        destruct (IH _ Hin) as [H|H]; [left; right; exact H|right; exact H].
      * destruct Hin as [<-|Hin]; [left; left; reflexivity|].
        destruct (IH _ Hin) as [H|H]; [left; right; exact H|right; exact H].
    + destruct (IH _ Hin) as [H|H]; [left; right; exact H|right; exact H].
Qed.

Lemma prefix_one c d r :
  String.prefix (String c "") (String d r) = Ascii.eqb c d.
Proof.
  cbn. destruct (ascii_dec c d) as [->|Hne].
  - rewrite Ascii.eqb_refl. destruct r; reflexivity.
  - symmetry. apply Ascii.eqb_neq. exact Hne.
Qed.

(** Replacing a one-byte pattern by one byte is a byte-wise map. *)
Lemma ReplaceAll_byte c d s :
  ReplaceAll s (String c "") (String d "")
  = mapBytes (fun x => if Ascii.eqb c x then d else x) s.
Proof.
  unfold ReplaceAll. induction s as [|x r IH]; [reflexivity|].
  cbn [replaceFrom mapBytes]. rewrite prefix_one.
  destruct (Ascii.eqb c x); cbn [len String.length Nat.sub]; rewrite IH; reflexivity.
Qed.

(** A pattern whose first byte does not occur leaves the string alone. *)
Lemma ReplaceAll_absent o os new s :
  ~ In o (bytes s) -> ReplaceAll s (String o os) new = s.
Proof.
  unfold ReplaceAll. induction s as [|x r IH]; intros Hno; [reflexivity|].
  cbn [replaceFrom]. cbn [bytes In] in Hno.
  assert (Hp : String.prefix (String o os) (String x r) = false).
  { cbn. destruct (ascii_dec o x) as [->|Hne]; [tauto|reflexivity]. }
  rewrite Hp, IH by tauto. reflexivity.
Qed.

Lemma prefix_length a : forall b, String.prefix a b = true -> len a <= len b.
Proof.
  induction a as [|c a IH]; intros b Hp; [cbn; lia|].
  destruct b as [|d b]; [discriminate|]. cbn in Hp.
  destruct (ascii_dec c d); [|discriminate].
  specialize (IH b Hp). unfold len in *. cbn. lia.
Qed.

Lemma replaceFrom_length old new :
  len new <= len old ->
  forall s skip, len (replaceFrom skip s old new) <= len s - skip.
Proof.
  intros Hle. induction s as [|d r IH]; intros skip; cbn [replaceFrom].
  - cbn. lia.
  - destruct skip as [|k].
    + destruct (String.prefix old (String d r)) eqn:Hp.
      * apply prefix_length in Hp. specialize (IH (len old - 1)).
        unfold len in *. rewrite sapp_length. cbn [String.length] in *. lia.
      * specialize (IH 0). unfold len in *. cbn [String.length]. lia.
    + specialize (IH k). unfold len in *. cbn [String.length]. lia.
Qed.

Lemma ReplaceAll_length s old new :
  len new <= len old -> len (ReplaceAll s old new) <= len s.
Proof.
  intros Hle. pose proof (replaceFrom_length old new Hle s 0). unfold ReplaceAll. lia.
Qed.

Lemma mapBytes_bytes f s : bytes (mapBytes f s) = map f (bytes s).
Proof. induction s as [|c r IH]; cbn; [reflexivity|]. rewrite IH. reflexivity. Qed.

Lemma mapBytes_compose f g s : mapBytes f (mapBytes g s) = mapBytes (fun c => f (g c)) s.
Proof. induction s as [|c r IH]; cbn; [reflexivity|]. rewrite IH. reflexivity. Qed.

Lemma mapBytes_ext f g s : (forall c, f c = g c) -> mapBytes f s = mapBytes g s.
Proof. intros H. induction s as [|c r IH]; cbn; [reflexivity|]. rewrite H, IH. reflexivity. Qed.

(** X12. The result of [DecodeHTML] holds neither a blank nor a hyphen, and it
    is never longer than the argument. *)
Theorem DecodeHTML_sanitised x :
  ~ In " "%char (bytes (DecodeHTML x))
  /\ ~ In "-"%char (bytes (DecodeHTML x))
  /\ len (DecodeHTML x) <= len x.
Proof.
  unfold DecodeHTML. cbv zeta.
  set (y := ReplaceAll (ReplaceAll (ReplaceAll (ReplaceAll (ReplaceAll x
              "&amp;" "&") "&lt;" "<") "&gt;" ">") "&apos;" "'") "&quot;"
              (String "034"%char "")).
  rewrite !ReplaceAll_byte, mapBytes_compose.
  split; [|split].
  - rewrite mapBytes_bytes. intros Hin. apply in_map_iff in Hin.
    destruct Hin as (c & Hc & _). revert Hc.
    destruct (Ascii.eqb " " c) eqn:E1.
    + cbn. discriminate.
    + destruct (Ascii.eqb "-" c); [discriminate|].
      intros ->. rewrite Ascii.eqb_refl in E1. discriminate.
  - rewrite mapBytes_bytes. intros Hin. apply in_map_iff in Hin.
    destruct Hin as (c & Hc & _). revert Hc.
    destruct (Ascii.eqb " " c) eqn:E1.
    + cbn. discriminate.
    + destruct (Ascii.eqb "-" c) eqn:E2; [discriminate|].
      intros ->. rewrite Ascii.eqb_refl in E2. discriminate.
  - assert (Hm : forall f s, len (mapBytes f s) = len s).
    { intros f s. unfold len. induction s as [|c r IH]; cbn; [reflexivity|].
      rewrite IH. reflexivity. }
    rewrite Hm. unfold y.
    repeat (etransitivity; [apply ReplaceAll_length; cbn; lia|]).
    reflexivity.
Qed.

(** X13. On a string without ['&'], [DecodeHTML] is the byte-wise map that
    turns blanks and hyphens into underscores and keeps every other byte. *)
Theorem DecodeHTML_without_entities x :
  ~ In "&"%char (bytes x) -> DecodeHTML x = mapBytes underscored x.
Proof.
  intros Hno. unfold DecodeHTML. cbv zeta.
  rewrite !(ReplaceAll_absent "&"%char _ _ x Hno).
  rewrite !ReplaceAll_byte, mapBytes_compose.
  apply mapBytes_ext. intros c. unfold underscored.
  rewrite (Ascii.eqb_sym c " "), (Ascii.eqb_sym c "-").
  destruct (Ascii.eqb " " c) eqn:E1; cbn [orb]; [reflexivity|].
  destruct (Ascii.eqb "-" c); reflexivity.
Qed.

Lemma DecodeHTML_without_entities_witness :
  DecodeHTML "read-latency avg" = "read_latency_avg".
Proof.
  apply (DecodeHTML_without_entities "read-latency avg").
  cbn. intros H. repeat (destruct H as [H|H]; [discriminate H|]). exact H.
Defined.

(** The entities are decoded in sequence, so an escaped ampersand in front
    of an entity body is decoded twice. *)
Example DecodeHTML_twice : DecodeHTML "a &amp;lt; b" = "a_<_b".
Proof. reflexivity. Qed.


(** ** [GetContent] is a normal form *)

Lemma trimFront_fixed p1 p2 p3 s :
  noLeading (seqOK p1 p2 p3) s -> trimFront p1 p2 p3 s = s.
Proof.
  intros Hno. destruct s as [|a r1]; [reflexivity|]. cbn [trimFront].
  destruct (p1 a) eqn:E1.
  { exfalso. apply (Hno (String a "") r1); [exact E1|reflexivity]. }
  destruct r1 as [|b r2]; [reflexivity|].
  destruct (p2 a b) eqn:E2.
  { exfalso. apply (Hno (String a (String b "")) r2); [exact E2|reflexivity]. }
  destruct r2 as [|c r3]; [reflexivity|].
  destruct (p3 a b c) eqn:E3; [|reflexivity].
  exfalso. apply (Hno (String a (String b (String c ""))) r3); [exact E3|reflexivity].
Qed.

Lemma TrimSpace_fixed t :
  noLeading spaceSeq t -> noTrailing spaceSeq t -> TrimSpace t = t.
Proof.
  intros Hl Hr. unfold TrimSpace, TrimLeft.
  rewrite (trimFront_fixed _ _ _ t Hl).
  unfold TrimRight, TrimLeftRev. rewrite trimFront_fixed; [apply srev_involutive|].
  intros w r Hw E. apply (Hr (String.rev w) (String.rev r)).
  - unfold spaceSeq. rewrite <- seqOK_rev. exact Hw.
  - rewrite <- srev_app, <- E, srev_involutive. reflexivity.
Qed.

Lemma TrimSpace_idempotent s : TrimSpace (TrimSpace s) = TrimSpace s.
Proof.
  destruct (TrimSpace_trimmed s) as (l & r & _ & _ & _ & Hl & Hr).
  apply TrimSpace_fixed; assumption.
Qed.

Lemma GetContent_cases n :
  GetContent n = ""
  \/ (GetContent n = TrimSpace (Content n)
      /\ startsWithMarker (TrimSpace (Content n)) = false).
Proof.
  rewrite GetContent_marker.
  destruct (startsWithMarker (TrimSpace (Content n))); auto.
Qed.

Lemma GetContent_of_effective n m :
  Content m = GetContent n -> GetContent m = GetContent n.
Proof.
  intros Hm. rewrite (GetContent_marker m), Hm.
  destruct (GetContent_cases n) as [E|[E Hn]]; rewrite E.
  - reflexivity.
  - rewrite TrimSpace_idempotent, Hn. reflexivity.
Qed.

(** X14. The effective content is a normal form: it does not begin with ['<'],
    it has no white space at either end, and a node that is given the
    effective content of a node as its content (as [Copy] and [Union] do)
    has that very content as its effective content. *)
Theorem GetContent_normal_form n :
  GetContent (set_Content (GetContent n) n) = GetContent n
  /\ startsWithMarker (GetContent n) = false
  /\ noLeading spaceSeq (GetContent n)
  /\ noTrailing spaceSeq (GetContent n).
Proof.
  assert (He : trimmed "" "") by exact (TrimSpace_trimmed "").
  destruct He as (l0 & r0 & _ & _ & _ & Hl0 & Hr0).
  destruct (TrimSpace_trimmed (Content n)) as (l & r & _ & _ & _ & Hl & Hr).
  split; [apply GetContent_of_effective; reflexivity|].
  destruct (GetContent_cases n) as [E|[E Hm]]; rewrite E;
    repeat split; assumption.
Qed.

(** ** [simpleName] *)

Lemma takeWord_split s :
  exists r, s = takeWord s +:+ r
            /\ Forall (fun c => wordChar c = true) (bytes (takeWord s))
            /\ match r with
               | String c _ => wordChar c = false
               | EmptyString => True
               end.
Proof.
  induction s as [|c s (r & E & Hw & Hr)]; cbn [takeWord].
  - exists "". repeat split. constructor.
  - destruct (wordChar c) eqn:Ec.
    + exists r. split; [cbn; rewrite <- E; reflexivity|].
      split; [constructor; assumption|exact Hr].
    + exists (String c s). split; [reflexivity|]. split; [constructor|exact Ec].
Qed.

(** X15. [simpleName] returns the first maximal run of word bytes (letters,
    digits, underscore and hyphen): what precedes it holds no word byte,
    what follows does not begin with one, and the result is empty only
    when the string holds no word byte at all. *)
Theorem simpleName_first_word s :
  exists l r,
    s = l +:+ simpleName s +:+ r
    /\ Forall (fun c => wordChar c = false) (bytes l)
    /\ Forall (fun c => wordChar c = true) (bytes (simpleName s))
    /\ match r with
       | String c _ => wordChar c = false
       | EmptyString => True
       end
    /\ (simpleName s = "" -> r = "").
Proof.
  induction s as [|c s (l & r & E & Hl & Hw & Hr & He)]; cbn [simpleName].
  - exists "", "". repeat split; constructor.
  - destruct (wordChar c) eqn:Ec.
    + destruct (takeWord_split s) as (r' & E' & Hw' & Hr').
      exists "", r'. split; [cbn; rewrite <- E'; reflexivity|].
      split; [constructor|]. split; [constructor; assumption|].
      split; [exact Hr'|discriminate].
    + exists (String c l), r. split; [cbn; rewrite <- E; reflexivity|].
      split; [constructor; assumption|]. auto.
Qed.

(** ** [FlatList]: one entry per leaf *)

Lemma flat_length t : forall prefix, length (flat t prefix) = leaves t.
Proof.
  induction t as [a nd ks IH] using tree_rect_nested. intros prefix.
  cbn [flat leaves]. destruct ks as [|k r]; [reflexivity|].
  generalize (extendPrefix prefix (GetNameS nd)). intros p.
  clear -IH. induction IH as [|k0 r0 Hk _ IHr]; [reflexivity|].
  cbn [map concat fold_right]. rewrite length_app, Hk, IHr. reflexivity.
Qed.

(** X16. [FlatList] keeps the entries already in the list and appends exactly
    one entry for every leaf below the node (a node without children is
    its own leaf). *)
Theorem FlatList_one_entry_per_leaf h t fuel out prefix :
  repr h t -> depth t <= fuel ->
  exists entries,
    FlatList fuel h (Some (root t)) out prefix = Ok (out ++ entries)
    /\ length entries = leaves t.
Proof.
  intros Hr Hd. exists (flat t prefix). split.
  - apply FlatList_flat; assumption.
  - apply flat_length.
Qed.

Lemma FlatList_one_entry_per_leaf_witness :
  exists entries,
    FlatList 4 xyzStore (Some 0) ["first"] "" = Ok (["first"] ++ entries)
    /\ length entries = 3.
Proof.
  apply (FlatList_one_entry_per_leaf xyzStore xyzTree 4 ["first"] "").
  - simpl. repeat split.
  - simpl. lia.
Defined.


(** ** [Union] returns on well-formed, levelled stores *)

Section UnionTotal.
Variable lv : nat -> nat.
Variable L : nat.

Lemma UnionChild_total f (h : heap) r c ndr cn :
  unionTotal lv L f ->
  good lv L h -> h !! r = Some ndr -> h !! c = Some cn ->
  lv c = S (lv r) -> L - lv r < S f ->
  exists h1,
    UnionChild (Union f) (Some r) (Some c) h = Ok (tt, h1)
    /\ good lv L h1 /\ length h1 = length h.
Proof.
  intros IHf Hg Hr Hc Hlc Hfuel.
  pose proof (good_kids_valid lv L h r ndr Hg Hr) as Hvk.
  destruct (findFirst_valid GetName h _ (GetName cn) Hvk) as (mine & Emine & _ & Hmine).
  assert (Eget : GetChild h (Some r) (GetName cn) = Ok mine).
  { unfold GetChild. rewrite (deref_ok _ _ _ Hr). exact Emine. }
  assert (Ehas : HasChild h (Some r) (GetName cn) = Ok (negb (isNil mine))).
  { unfold HasChild. rewrite Eget. reflexivity. }
  unfold UnionChild.
  erewrite bind_ok; [|apply read_ok, deref_ok; exact Hc].
  erewrite bind_ok; [|apply read_ok; exact Ehas].
  destruct mine as [m|]; cbn [isNil negb].
  - destruct (Hmine m eq_refl) as (Hin & md & Hm & _).
    destruct (GetChildren cn) as [kids|].
    + erewrite bind_ok; [|apply read_ok; exact Eget].
      destruct Hg as (Hwf & Hlev & Hb).
      pose proof (proj1 (Hlev r ndr Hr) m Hin) as Hlm.
      pose proof (Hb c cn Hc) as Hbc.
      apply (IHf h m c md cn);
        [exact (conj Hwf (conj Hlev Hb))|assumption|assumption|lia|lia].
    + exists (<[m := set_Content (GetContentS cn) md]> h).
      split; [|split; [apply good_set_Content; assumption|apply length_insert]].
      unfold SetChildContentS.
      erewrite bind_ok; [|apply read_ok; rewrite GetChildS_GetChild; exact Eget].
      unfold SetContentS, SetContent. apply modify_ok. exact Hm.
  - exists (<[r := set_Children (append (Children ndr) (Some c)) ndr]> h).
    split; [|split; [|apply length_insert]].
    + unfold AddChild.
      exact (modify_ok r (fun nd => set_Children (append (Children nd) (Some c)) nd)
               h ndr Hr).
    + apply (good_AddChild lv L h r ndr c cn Hr Hc Hlc Hg).
Qed.

Lemma Union_loop_total f r cs :
  unionTotal lv L f ->
  L - lv r < S f ->
  Forall (fun p => exists c, p = Some c /\ lv c = S (lv r)) cs ->
  forall (h : heap) ndr,
    good lv L h -> h !! r = Some ndr -> Forall (valid h) cs ->
    exists h',
      forM cs (UnionChild (Union f) (Some r)) h = Ok (tt, h')
      /\ good lv L h' /\ length h' = length h.
Proof.
  intros IHf Hfuel. induction 1 as [|p cs (c & -> & Hlc) _ IH];
    intros h ndr Hg Hr Hval.
  - exists h. split; [reflexivity|]. split; [exact Hg|reflexivity].
  - inversion Hval as [|? ? (a & cn & Ea & Hc) Hval']; subst. injection Ea as <-.
    destruct (UnionChild_total f h r c ndr cn IHf Hg Hr Hc Hlc Hfuel)
      as (h1 & E1 & Hg1 & Hl1).
    assert (Hr1 : exists ndr1, h1 !! r = Some ndr1).
    { apply lookup_lt_is_Some_2. rewrite Hl1. eapply lookup_lt_Some; exact Hr. }
    destruct Hr1 as (ndr1 & Hr1).
    destruct (IH h1 ndr1 Hg1 Hr1) as (h' & E' & Hg' & Hl').
    { eapply Forall_impl; [exact Hval'|]. intros p.
      apply valid_same_length. exact Hl1. }
    exists h'. split; [|split; [exact Hg'|congruence]].
    cbn [forM]. erewrite bind_ok; [|exact E1]. exact E'.
Qed.

Lemma Union_total f : unionTotal lv L f.
Proof.
  induction f as [|f IHf]; intros h r s ndr sds Hg Hr Hs Hlv Hfuel; [lia|].
  set (nd0 := if Nat.eqb (len (GetContent ndr)) 0
              then set_Content (GetContent sds) ndr else ndr).
  set (h0 := <[r := nd0]> h).
  assert (Hstep0 :
    (if Nat.eqb (len (GetContent ndr)) 0
     then let* sd := read (fun h => deref h (Some s)) in
          SetContent (Some r) (GetContent sd)
     else ret tt) h = Ok (tt, h0)).
  { unfold h0, nd0. destruct (Nat.eqb (len (GetContent ndr)) 0).
    - erewrite bind_ok; [|apply read_ok, deref_ok; exact Hs].
      apply modify_ok. exact Hr.
    - rewrite list_insert_id by exact Hr. reflexivity. }
  assert (Hg0 : good lv L h0).
  { unfold h0, nd0. destruct (Nat.eqb (len (GetContent ndr)) 0).
    - apply good_set_Content; assumption.
    - rewrite list_insert_id by exact Hr. exact Hg. }
  assert (Hl0 : length h0 = length h) by apply length_insert.
  assert (Hr0 : exists ndr0, h0 !! r = Some ndr0).
  { apply lookup_lt_is_Some_2. rewrite Hl0. eapply lookup_lt_Some; exact Hr. }
  assert (Hs0 : exists sds0, h0 !! s = Some sds0).
  { apply lookup_lt_is_Some_2. rewrite Hl0. eapply lookup_lt_Some; exact Hs. }
  destruct Hr0 as (ndr0 & Hr0). destruct Hs0 as (sds0 & Hs0).
  pose proof (good_kids_valid lv L h0 s sds0 Hg0 Hs0) as Hval.
  destruct (Union_loop_total f r (elems (Children sds0)) IHf) with (h := h0) (ndr := ndr0)
    as (h' & E' & Hg' & Hl'); try assumption.
  { lia. }
  { destruct Hg0 as (_ & Hlev0 & _).
    rewrite Forall_forall in Hval |- *. intros p Hp.
    destruct (Hval p Hp) as (c & cn & -> & Hc). exists c. split; [reflexivity|].
    rewrite Hlv. apply (proj1 (Hlev0 s sds0 Hs0)).
    apply list_elem_of_In. exact Hp. }
  exists h'. split; [|split; [exact Hg'|congruence]].
  cbn [Union].
  erewrite bind_ok; [|apply read_ok, deref_ok; exact Hr].
  erewrite bind_ok; [|exact Hstep0].
  erewrite bind_ok; [|apply read_ok, deref_ok; exact Hs0].
  exact E'.
Qed.
End UnionTotal.

Lemma unionStore_good :
  good (fun a => nth a [0; 1; 2; 1; 0; 1; 1; 2] 0) 2 unionStore.
Proof.
  split; [|split]; intros x nd Hx;
    repeat (destruct x as [|x]; [injection Hx as <-|]); try discriminate Hx.
  all: try (split; [repeat constructor; eexists _, _; split; reflexivity
                   |first [left; reflexivity
                          |right; eexists _, _; split; reflexivity]]).
  all: try (split; [intros c Hin; simpl in Hin;
                    repeat (destruct Hin as [Hin|Hin];
                            [injection Hin as <-; reflexivity|]);
                    contradiction
                   |intros q Hq; simpl in Hq;
                    first [discriminate Hq|injection Hq as <-; reflexivity]]).
  all: simpl; lia.
Qed.

Lemma labelsStore_good :
  good (fun a => nth a [0; 1; 2; 0; 1; 2] 0) 2 labelsStore.
Proof.
  split; [|split]; intros x nd Hx;
    repeat (destruct x as [|x]; [injection Hx as <-|]); try discriminate Hx.
  all: try (split; [repeat constructor; eexists _, _; split; reflexivity
                   |first [left; reflexivity
                          |right; eexists _, _; split; reflexivity]]).
  all: try (split; [intros c Hin; simpl in Hin;
                    repeat (destruct Hin as [Hin|Hin];
                            [injection Hin as <-; reflexivity|]);
                    contradiction
                   |intros q Hq; simpl in Hq;
                    first [discriminate Hq|injection Hq as <-; reflexivity]]).
  all: simpl; lia.
Qed.

(** X17. On a well-formed store whose nodes are levelled (two templates side
    by side, parent links pointing to the structural parents), [Union] of
    a receiver and a source that is not nil and on the same level returns,
    with fuel for the levels below them: it neither panics nor recurses
    without end, and it leaves a store that is well-formed and levelled as
    before, of the same size. *)
Theorem Union_returns lv L (h : heap) r s ndr sds :
  good lv L h -> h !! r = Some ndr -> h !! s = Some sds -> lv r = lv s ->
  exists h',
    Union (S (L - lv s)) (Some r) (Some s) h = Ok (tt, h')
    /\ good lv L h' /\ length h' = length h.
Proof.
  intros Hg Hr Hs Hlv.
  apply (Union_total lv L (S (L - lv s)) h r s ndr sds Hg Hr Hs Hlv). lia.
Qed.

Lemma Union_returns_witness :
  exists h',
    Union 3 (Some 0) (Some 4) unionStore = Ok (tt, h')
    /\ good (fun a => nth a [0; 1; 2; 1; 0; 1; 1; 2] 0) 2 h'
    /\ length h' = 8.
Proof.
  exact (Union_returns (fun a => nth a [0; 1; 2; 1; 0; 1; 1; 2] 0) 2 unionStore 0 4
           (mkNode None "base" noName [] "" (Some [Some 1; Some 3]))
           (mkNode None "src" noName [] "" (Some [Some 5; Some 6]))
           unionStore_good eq_refl eq_refl eq_refl).
Defined.


(** ** After [Union] and [Merge] the receiver has the names of the source *)

Lemma findFirst_found key h cs v m :
  findFirst key h cs v = Ok (Some m) ->
  In (Some m) cs /\ exists md, h !! m = Some md /\ key md = v.
Proof.
  induction cs as [|c r IH]; cbn [findFirst]; [discriminate|].
  destruct (deref h c) as [cn| |] eqn:Ed; cbn [rbind]; try discriminate.
  destruct (String.eqb (key cn) v) eqn:Ek.
  - intros E. injection E as ->. split; [left; reflexivity|].
    apply deref_inv in Ed. destruct Ed as (a & Ea & Ha). injection Ea as <-.
    exists cn. split; [exact Ha|]. apply String.eqb_eq. exact Ek.
  - intros E. destruct (IH E) as [H1 H2]. split; [right; exact H1|exact H2].
Qed.

Lemma GetName_same nd nd' :
  name nd' = name nd -> XMLName nd' = XMLName nd -> GetName nd' = GetName nd.
Proof. intros Hn Hx. unfold GetName, GetXMLNameS. rewrite Hn, Hx. reflexivity. Qed.

Lemma grows_deref h h' p cn :
  grows h h' -> deref h p = Ok cn ->
  exists cn', deref h' p = Ok cn' /\ GetName cn' = GetName cn.
Proof.
  intros [_ Hg] Hp. apply deref_inv in Hp. destruct Hp as (a & -> & Ha).
  destruct (Hg a cn Ha) as (cn' & Ha' & Hn & Hx & _).
  exists cn'. split; [apply deref_ok; exact Ha'|apply GetName_same; assumption].
Qed.

Lemma hasNamed_grows h h' r nm : grows h h' -> hasNamed h r nm -> hasNamed h' r nm.
Proof.
  intros [_ Hg] (ndr & m & md & Hr & Hin & Hm & Hn).
  destruct (Hg r ndr Hr) as (ndr' & Hr' & _ & _ & _ & _ & more & Hk).
  destruct (Hg m md Hm) as (md' & Hm' & Hn' & Hx' & _).
  exists ndr', m, md'. split; [exact Hr'|]. split.
  - rewrite Hk. apply in_or_app. left. exact Hin.
  - split; [exact Hm'|]. rewrite <- Hn. apply GetName_same; assumption.
Qed.

Lemma AddChild_hasNamed (h : heap) r c cn u h1 :
  AddChild (Some r) c h = Ok (u, h1) -> deref h c = Ok cn ->
  hasNamed h1 r (GetName cn).
Proof.
  intros E Hc. unfold AddChild in E.
  apply modify_inv in E. destruct E as (r' & ndr & Er & Hr & ->).
  injection Er as <-. apply deref_inv in Hc. destruct Hc as (x & -> & Hx).
  set (ndr1 := set_Children (append (Children ndr) (Some x)) ndr).
  assert (Hr1 : <[r := ndr1]> h !! r = Some ndr1).
  { apply list_lookup_insert_eq. eapply lookup_lt_Some; exact Hr. }
  destruct (decide (x = r)) as [->|Hne].
  - exists ndr1, r, ndr1. split; [exact Hr1|]. split.
    + cbn. apply in_or_app. right. left. reflexivity.
    + split; [exact Hr1|]. rewrite Hr in Hx. injection Hx as <-. reflexivity.
  - exists ndr1, x, cn. split; [exact Hr1|]. split.
    + cbn. apply in_or_app. right. left. reflexivity.
    + split; [|reflexivity]. rewrite list_lookup_insert_ne by congruence. exact Hx.
Qed.

Lemma GetChild_hasNamed h r nm m :
  GetChild h (Some r) nm = Ok (Some m) -> hasNamed h r nm.
Proof.
  unfold GetChild. intros E.
  destruct (deref h (Some r)) as [ndr| |] eqn:Ed; cbn [rbind] in E; try discriminate.
  apply deref_inv in Ed. destruct Ed as (r' & Er & Hr). injection Er as <-.
  destruct (findFirst_found _ _ _ _ _ E) as (Hin & md & Hm & Hn).
  exists ndr, m, md. auto.
Qed.

Lemma UnionChild_covers f r c (h : heap) u h1 cn :
  UnionChild (Union f) (Some r) c h = Ok (u, h1) -> deref h c = Ok cn ->
  hasNamed h1 r (GetName cn).
Proof.
  intros E Hc.
  pose proof (UnionChild_grows (Union f) (Some r) c (Union_grows f) h u h1 E) as Hg.
  unfold UnionChild in E. inv_read E cn0 h0 Hcn. inv_read E has h0 Hhas.
  rewrite Hc in Hcn. injection Hcn as <-.
  destruct has; cbn [negb] in E.
  - apply (hasNamed_grows h h1); [exact Hg|].
    unfold HasChild in Hhas.
    destruct (GetChild h (Some r) (GetName cn)) as [[m|]| |] eqn:Eg;
      cbn [rbind isNil negb] in Hhas; try discriminate.
    eapply GetChild_hasNamed. exact Eg.
  - eapply AddChild_hasNamed; eassumption.
Qed.

Lemma MergeChild_covers f skipOverwrite r c (h : heap) u h1 cn :
  MergeChild (fun m c => Merge f m c skipOverwrite) skipOverwrite (Some r) c h
  = Ok (u, h1) ->
  deref h c = Ok cn -> GetName cn <> "" ->
  hasNamed h1 r (GetName cn).
Proof.
  intros E Hc Hne.
  pose proof (MergeChild_grows (fun m c => Merge f m c skipOverwrite) skipOverwrite
                (Some r) c (fun m c => Merge_grows f skipOverwrite m c) h u h1 E) as Hg.
  unfold MergeChild in E. inv_read E cn0 h0 Hcn. inv_read E mine h0 Hmine.
  rewrite Hc in Hcn. injection Hcn as <-.
  assert (Hlen : Nat.eqb (len (GetName cn)) 0 = false).
  { apply Nat.eqb_neq. unfold len. destruct (GetName cn); [congruence|cbn; lia]. }
  rewrite Hlen in E. destruct mine as [m|]; cbn [isNil] in E.
  - apply (hasNamed_grows h h1); [exact Hg|].
    eapply GetChild_hasNamed. exact Hmine.
  - eapply AddChild_hasNamed; eassumption.
Qed.

Lemma forM_covers (body : option nat -> M unit) (P : string -> Prop) r :
  (forall c h u h1, body c h = Ok (u, h1) -> grows h h1) ->
  (forall c h u h1 cn, body c h = Ok (u, h1) -> deref h c = Ok cn ->
                       P (GetName cn) -> hasNamed h1 r (GetName cn)) ->
  forall cs h u h', forM cs body h = Ok (u, h') ->
    forall c cn, In c cs -> deref h c = Ok cn -> P (GetName cn) ->
                 hasNamed h' r (GetName cn).
Proof.
  intros Hgrow Hcov. induction cs as [|x cs IH]; intros h u h' E c cn Hin Hc HP;
    [contradiction|].
  cbn [forM] in E. apply bind_inv in E. destruct E as (u0 & h0 & E0 & E).
  destruct Hin as [->|Hin].
  - apply (hasNamed_grows h0 h').
    + eapply forM_grows; [exact Hgrow|exact E].
    + eapply Hcov; eassumption.
  - destruct (grows_deref h h0 c cn (Hgrow _ _ _ _ E0) Hc) as (cn' & Hc' & Hn).
    rewrite <- Hn. eapply IH; [exact E|exact Hin|exact Hc'|]. rewrite Hn. exact HP.
Qed.

Lemma hasNamed_HasChild h r nm :
  wfHeap h -> hasNamed h r nm -> HasChild h (Some r) nm = Ok true.
Proof.
  intros Hwf (ndr & m & md & Hr & Hin & Hm & Hn).
  pose proof (proj1 (Hwf r ndr Hr)) as Hv.
  destruct (findFirst_valid GetName h _ nm Hv) as (res & E & Hnil & _).
  unfold HasChild, GetChild. rewrite (deref_ok _ _ _ Hr). cbn [rbind].
  rewrite E. cbn [rbind]. rewrite Hnil, negb_involutive. f_equal.
  apply existsb_exists. exists (Some m). split; [exact Hin|].
  rewrite (deref_ok _ _ _ Hm). apply String.eqb_eq. exact Hn.
Qed.

(** X18. On a well-formed, levelled store [Union] returns, and afterwards the
    receiver has a child under the name of every child of the source. *)
Theorem Union_covers_source lv L (h : heap) r s ndr sds :
  good lv L h -> h !! r = Some ndr -> h !! s = Some sds -> lv r = lv s ->
  exists h',
    Union (S (L - lv s)) (Some r) (Some s) h = Ok (tt, h')
    /\ forall c cn, In (Some c) (elems (Children sds)) -> h !! c = Some cn ->
                    HasChild h' (Some r) (GetName cn) = Ok true.
Proof.
  intros Hg Hr Hs Hlv.
  destruct (Union_total lv L (S (L - lv s)) h r s ndr sds Hg Hr Hs Hlv)
    as (h' & E & (Hwf' & _) & _); [lia|].
  exists h'. split; [exact E|]. intros c cn Hin Hc.
  apply hasNamed_HasChild; [exact Hwf'|].
  cbn [Union] in E. inv_read E nd h0 Hnd.
  apply bind_inv in E. destruct E as (u0 & h0 & E0 & E).
  assert (G0 : grows h h0).
  { destruct (Nat.eqb (len (GetContent nd)) 0).
    - inv_read E0 sd h2 Hsd. eapply SetContent_grows. exact E0.
    - injection E0 as _ <-. apply grows_refl. }
  inv_read E sd0 h2 Hsd0.
  destruct (grows_deref h h0 (Some c) cn G0 (deref_ok _ _ _ Hc)) as (cn0 & Hc0 & Hn0).
  rewrite <- Hn0.
  apply (forM_covers (UnionChild (Union (L - lv s)) (Some r)) (fun _ => True) r)
    with (cs := elems (Children sd0)) (h := h0) (u := tt) (c := Some c);
    [| |exact E| |exact Hc0|exact I].
  - intros c1 h1 u1 h2. apply UnionChild_grows. apply Union_grows.
  - intros c1 h1 u1 h2 cn1 E1 Hc1 _. eapply UnionChild_covers; eassumption.
  - destruct G0 as [_ G0]. destruct (G0 s sds Hs) as (sd' & Hs' & _ & _ & _ & _ & more & Hk).
    apply deref_inv in Hsd0. destruct Hsd0 as (s' & Es & Hs0). injection Es as <-.
    rewrite Hs' in Hs0. injection Hs0 as <-.
    rewrite Hk. apply in_or_app. left. exact Hin.
Qed.

Lemma Union_covers_source_witness :
  exists h',
    Union 3 (Some 0) (Some 4) unionStore = Ok (tt, h')
    /\ forall c cn, In (Some c) [Some 5; Some 6] -> unionStore !! c = Some cn ->
                    HasChild h' (Some 0) (GetName cn) = Ok true.
Proof.
  exact (Union_covers_source (fun a => nth a [0; 1; 2; 1; 0; 1; 1; 2] 0) 2
           unionStore 0 4
           (mkNode None "base" noName [] "" (Some [Some 1; Some 3]))
           (mkNode None "src" noName [] "" (Some [Some 5; Some 6]))
           unionStore_good eq_refl eq_refl eq_refl).
Defined.

(** X19. On a well-formed, levelled store [Merge] returns, and afterwards the
    receiver has a child under the name of every named child of the
    subtemplate. *)
Theorem Merge_covers_named lv L skipOverwrite (h : heap) r s ndr sds :
  good lv L h -> h !! r = Some ndr -> h !! s = Some sds -> lv r = lv s ->
  exists h',
    Merge (S (L - lv s)) (Some r) (Some s) skipOverwrite h = Ok (tt, h')
    /\ forall c cn, In (Some c) (elems (Children sds)) -> h !! c = Some cn ->
                    GetName cn <> "" ->
                    HasChild h' (Some r) (GetName cn) = Ok true.
Proof.
  intros Hg Hr Hs Hlv.
  destruct (Merge_total lv L skipOverwrite (S (L - lv s)) h r s ndr sds Hg Hr Hs Hlv)
    as (h' & E & (Hwf' & _) & _); [lia|].
  exists h'. split; [exact E|]. intros c cn Hin Hc Hne.
  apply hasNamed_HasChild; [exact Hwf'|].
  cbn [Merge] in E. inv_read E nd h0 Hnd.
  apply bind_inv in E. destruct E as (u0 & h0 & E0 & E).
  assert (G0 : grows h h0).
  { destruct (Nat.eqb (len (Content nd)) 0).
    - inv_read E0 sd h2 Hsd. eapply (SetContent_grows (Some r) (Content sd)). exact E0.
    - injection E0 as _ <-. apply grows_refl. }
  inv_read E sd0 h2 Hsd0.
  destruct (grows_deref h h0 (Some c) cn G0 (deref_ok _ _ _ Hc)) as (cn0 & Hc0 & Hn0).
  rewrite <- Hn0.
  apply (forM_covers
           (MergeChild (fun m c => Merge (L - lv s) m c skipOverwrite) skipOverwrite
                       (Some r))
           (fun nm => nm <> "") r)
    with (cs := elems (Children sd0)) (h := h0) (u := tt) (c := Some c);
    [| |exact E| |exact Hc0|rewrite Hn0; exact Hne].
  - intros c1 h1 u1 h2. apply MergeChild_grows. intros m c2. apply Merge_grows.
  - intros c1 h1 u1 h2 cn1 E1 Hc1 Hne1. eapply MergeChild_covers; eassumption.
  - destruct G0 as [_ G0]. destruct (G0 s sds Hs) as (sd' & Hs' & _ & _ & _ & _ & more & Hk).
    apply deref_inv in Hsd0. destruct Hsd0 as (s' & Es & Hs0). injection Es as <-.
    rewrite Hs' in Hs0. injection Hs0 as <-.
    rewrite Hk. apply in_or_app. left. exact Hin.
Qed.

Lemma Merge_covers_named_witness :
  exists h',
    Merge 3 (Some 0) (Some 3) ["labels"] labelsStore = Ok (tt, h')
    /\ forall c cn, In (Some c) [Some 4] -> labelsStore !! c = Some cn ->
                    GetName cn <> "" ->
                    HasChild h' (Some 0) (GetName cn) = Ok true.
Proof.
  exact (Merge_covers_named (fun a => nth a [0; 1; 2; 0; 1; 2] 0) 2 ["labels"]
           labelsStore 0 3
           (mkNode None "defaults" noName [] "" (Some [Some 1]))
           (mkNode None "custom" noName [] "" (Some [Some 4]))
           labelsStore_good eq_refl eq_refl eq_refl).
Defined.

(** ** A copy of a copy *)

Lemma identical_unfold a nd ks a' nd' ks' :
  identical (T a nd ks) (T a' nd' ks') <->
  GetName nd' = GetName nd /\ Content nd' = Content nd /\ Forall2 identical ks ks'.
Proof.
  simpl. split; intros (H1 & H2 & H5); repeat (split; [assumption|]).
  - revert ks' H5. induction ks as [|k r IH]; intros [|k' r'] H5;
      try contradiction; constructor; destruct H5; auto.
  - induction H5; simpl; auto.
Qed.

Lemma similar_depth t : forall t', similar t t' -> depth t' = depth t.
Proof.
  induction t as [a nd ks IH] using tree_rect_nested. intros [a' nd' ks'] Hs.
  apply similar_unfold in Hs. destruct Hs as (_ & _ & _ & _ & Hks).
  rewrite !depth_unfold. f_equal.
  induction Hks as [|k k' r r' Hk _ IHr]; [reflexivity|].
  inversion IH as [|? ? Hk0 Hr0]; subst. cbn [fold_right].
  rewrite (Hk0 k' Hk), (IHr Hr0). reflexivity.
Qed.

Lemma similar_twice t : forall t1 t2, similar t t1 -> similar t1 t2 -> identical t1 t2.
Proof.
  induction t as [a nd ks IH] using tree_rect_nested.
  intros [a1 nd1 ks1] [a2 nd2 ks2] H1 H2.
  apply similar_unfold in H1. destruct H1 as (N1 & C1 & _ & _ & K1).
  apply similar_unfold in H2. destruct H2 as (N2 & C2 & _ & _ & K2).
  apply identical_unfold. split; [exact N2|]. split.
  - transitivity (GetContent nd); [|symmetry; exact C1].
    rewrite C2. apply GetContent_of_effective. exact C1.
  - revert ks2 K2. induction K1 as [|k k1 r r1 Hk _ IHr]; intros ks2 K2.
    + inversion K2. constructor.
    + inversion K2 as [|? y ? l' Hy Hl']; subst.
      inversion IH as [|? ? Hk0 Hr0]; subst. constructor.
      * eapply Hk0; eassumption.
      * apply IHr; assumption.
Qed.

(** X20. [Copy] is a projection: the copy of a copy has, vertex by vertex, the
    names and the very content of the copy (the effective content is
    computed once and for all), both copies being laid out in the final
    store. *)
Theorem Copy_of_copy h t fuel :
  repr h t -> depth t <= fuel ->
  exists h1 h2 t1 t2,
    Copy fuel (Some (root t)) h = Ok (Some (root t1), h1)
    /\ Copy fuel (Some (root t1)) h1 = Ok (Some (root t2), h2)
    /\ repr h2 t1 /\ repr h2 t2 /\ identical t1 t2.
Proof.
  intros Hr Hd.
  destruct (Copy_spec t fuel h Hr Hd)
    as (h1 & t1 & E1 & _ & _ & Hr1 & Hroot1 & Hsim1 & _).
  assert (Hd1 : depth t1 <= fuel) by (rewrite (similar_depth t t1 Hsim1); exact Hd).
  destruct (Copy_spec t1 fuel h1 Hr1 Hd1)
    as (h2 & t2 & E2 & _ & Hag & Hr2 & Hroot2 & Hsim2 & _).
  exists h1, h2, t1, t2. rewrite Hroot1, Hroot2.
  split; [exact E1|]. split; [rewrite <- Hroot1; exact E2|].
  split; [|split; [exact Hr2|exact (similar_twice t t1 t2 Hsim1 Hsim2)]].
  apply (repr_agree h1 h2 t1 Hr1). intros b Hb. apply Hag.
  pose proof (repr_addrs_lt h1 t1 Hr1) as Hlt. rewrite Forall_forall in Hlt.
  apply Hlt. apply list_elem_of_In. exact Hb.
Qed.

Lemma Copy_of_copy_witness :
  exists h1 h2 t1 t2,
    Copy 2 (Some 0) copyStore = Ok (Some (root t1), h1)
    /\ Copy 2 (Some (root t1)) h1 = Ok (Some (root t2), h2)
    /\ repr h2 t1 /\ repr h2 t2 /\ identical t1 t2.
Proof.
  apply (Copy_of_copy copyStore copyTree 2).
  - simpl. repeat split.
  - simpl. lia.
Defined.


(** ** Plain and markup names *)

(** [SetNameS] sets the plain name, which [GetNameS] shows only on a node
    without markup name; [SetXMLNameS] sets the markup name, and an empty
    one brings the plain name back. *)
Lemma SetNameS_SetXMLNameS (h : heap) a nd nm :
  h !! a = Some nd ->
  (exists nd1, SetNameS (Some a) nm h = Ok (tt, <[a := nd1]> h)
               /\ GetNameS nd1
                  = if String.eqb (GetXMLNameS nd) "" then nm else GetXMLNameS nd)
  /\ (exists nd2, SetXMLNameS (Some a) nm h = Ok (tt, <[a := nd2]> h)
                  /\ GetNameS nd2 = if String.eqb nm "" then name nd else nm).
Proof.
  intros Ha. split.
  - exists (set_name nm nd). split; [unfold SetNameS, modify; rewrite Ha; reflexivity|].
    reflexivity.
  - exists (set_XMLName (mkName "" nm) nd).
    split; [unfold SetXMLNameS, modify; rewrite Ha; reflexivity|]. reflexivity.
Qed.


(** ** The content of the receiver after [Union] and [Merge] *)

Lemma stableBut_stable W r h h' : W r -> stableBut W r h h' -> stable W h h'.
Proof.
  intros Hr [Hl Hc]. split; [exact Hl|]. intros x nd Hx.
  destruct (Hc x nd Hx) as (nd' & Hx' & Hk & Hcont).
  exists nd'. split; [exact Hx'|]. split; [exact Hk|].
  intros Hn. apply Hcont; [exact Hn|]. intros ->. contradiction.
Qed.

Lemma stableBut_set_Content W (h : heap) r nd v :
  h !! r = Some nd -> stableBut W r h (<[r := set_Content v nd]> h).
Proof.
  intros Hr. split; [apply length_insert|]. intros x ndx Hx.
  destruct (decide (x = r)) as [->|Hne].
  - rewrite Hr in Hx. injection Hx as <-.
    eexists. split; [apply list_lookup_insert_eq; eapply lookup_lt_Some; exact Hr|].
    split; [auto|]. intros _ Hn. contradiction.
  - exists ndx. split; [rewrite list_lookup_insert_ne by congruence; exact Hx|].
    auto.
Qed.

Lemma stableBut_refl W r h : stableBut W r h h.
Proof. split; [reflexivity|]. intros x nd Hx. exists nd. auto. Qed.

Lemma stableBut_then_stable W r h1 h2 h3 :
  stableBut W r h1 h2 -> stable W h2 h3 -> stableBut W r h1 h3.
Proof.
  intros [L12 H12] [L23 H23]. split; [congruence|]. intros x nd Hx.
  destruct (H12 x nd Hx) as (nd2 & Hx2 & Hk2 & Hc2).
  destruct (H23 x nd2 Hx2) as (nd3 & Hx3 & Hk3 & Hc3).
  exists nd3. split; [exact Hx3|]. split.
  - intros c Hc. destruct (Hk3 c Hc) as [H|H]; [apply Hk2; exact H|right; exact H].
  - intros Hn Hne. rewrite Hc3, Hc2 by assumption. reflexivity.
Qed.

(** A write of the content keeps the regions. *)
Lemma closed_set_Content W (h : heap) r nd v :
  h !! r = Some nd -> closed W h -> closed W (<[r := set_Content v nd]> h).
Proof.
  intros Hr Hcl x Hx. apply kidsIn_set_Content; [exact Hr|]. apply Hcl. exact Hx.
Qed.

Section UnionFrame.
Variable W : nat -> Prop.

Lemma UnionChild_stable f r child h u h1 :
  unionFrame W f ->
  (forall c, child = Some c -> W c) -> closed W h -> kidsIn W h r ->
  UnionChild (Union f) (Some r) child h = Ok (u, h1) ->
  stable W h h1.
Proof.
  intros IHf HWc Hcl Hkr H. unfold UnionChild in H.
  inv_read H cn h0 Hcn. inv_read H has h0 Hhas.
  unfold HasChild in Hhas.
  destruct (GetChild h (Some r) (GetName cn)) as [mine| |] eqn:Emine;
    cbn [rbind] in Hhas; try discriminate.
  injection Hhas as <-.
  destruct mine as [m|]; cbn [isNil negb] in H.
  - assert (HWm : W m) by (eapply GetChild_kidsIn; eassumption).
    destruct (GetChildren cn) as [kids|].
    + inv_read H mine h0 Hmine. rewrite Emine in Hmine. injection Hmine as <-.
      destruct u. apply (stableBut_stable W m); [exact HWm|].
      apply (IHf h m child h1); [exact Hcl|apply Hcl; exact HWm| |exact H].
      intros c Ec. apply Hcl. apply HWc. exact Ec.
    + unfold SetChildContentS in H. inv_read H c h0 Hc.
      rewrite GetChildS_GetChild in Hc.
      change (GetNameS cn) with (GetName cn) in Hc. rewrite Emine in Hc.
      injection Hc as <-. unfold SetContentS, SetContent in H.
      apply modify_inv in H. destruct H as (a & n & Ea & Ha & ->).
      injection Ea as <-. apply stable_set_Content; assumption.
  - eapply AddChild_stable; eassumption.
Qed.

Lemma Union_loop_stable f r cs :
  unionFrame W f ->
  (forall c, In (Some c) cs -> W c) ->
  forall h h' u,
    closed W h -> kidsIn W h r ->
    forM cs (UnionChild (Union f) (Some r)) h = Ok (u, h') ->
    stable W h h'.
Proof.
  intros IHf. induction cs as [|child cs IH]; intros HW h h' u Hcl Hkr H.
  - simpl in H. injection H as _ <-. apply stable_refl.
  - cbn [forM] in H. apply bind_inv in H. destruct H as (u1 & h1 & Hstep & H).
    assert (Hs1 : stable W h h1).
    { eapply UnionChild_stable; try eassumption.
      intros c ->. apply HW. left. reflexivity. }
    apply (stable_trans W h h1 h' Hs1).
    apply (IH (fun c Hc => HW c (or_intror Hc)) h1 h' u).
    + apply (stable_closed W h h1 Hs1 Hcl).
    + apply (stable_kidsIn W h h1 r Hs1 Hkr).
    + exact H.
Qed.

(** The first step of [Union] writes at most the content of the
    receiver. *)
Lemma Union_first_step (h : heap) r s nd u0 h0 :
  h !! r = Some nd ->
  (if Nat.eqb (len (GetContent nd)) 0
   then let* sd := read (fun h => deref h s) in SetContent (Some r) (GetContent sd)
   else ret tt) h = Ok (u0, h0) ->
  exists v, h0 = <[r := set_Content v nd]> h.
Proof.
  intros Hr E. destruct (Nat.eqb (len (GetContent nd)) 0).
  - inv_read E sd h2 Hsd. unfold SetContent in E. apply modify_inv in E.
    destruct E as (a & n & Ea & Ha & ->). injection Ea as <-.
    rewrite Hr in Ha. injection Ha as <-.
    exists (GetContent sd). reflexivity.
  - injection E as _ <-. exists (Content nd).
    symmetry. apply list_insert_id. rewrite Hr. destruct nd; reflexivity.
Qed.

Lemma Union_frame f : unionFrame W f.
Proof.
  induction f as [|f IHf]; intros h r s h' Hcl Hkr Hks H; [discriminate|].
  cbn [Union] in H. inv_read H nd h0 Hnd.
  apply deref_inv in Hnd. destruct Hnd as (a & Ea & Hnd). injection Ea as <-.
  apply bind_inv in H. destruct H as (u0 & h0 & Hfirst & H).
  destruct (Union_first_step h r s nd u0 h0 Hnd Hfirst) as (v & ->).
  inv_read H sd' h1 Hsd'.
  apply deref_inv in Hsd'. destruct Hsd' as (a & -> & Hsd').
  apply (stableBut_then_stable W r h (<[r := set_Content v nd]> h) h').
  - apply stableBut_set_Content. exact Hnd.
  - apply (Union_loop_stable f r (elems (Children sd')) IHf) with (u := tt);
      [|apply closed_set_Content; assumption
       |apply kidsIn_set_Content; assumption|exact H].
    intros c Hin.
    assert (Hk : kidsIn W (<[r := set_Content v nd]> h) a).
    { apply kidsIn_set_Content; [exact Hnd|]. apply Hks. reflexivity. }
    exact (Hk sd' c Hsd' Hin).
Qed.
End UnionFrame.

Lemma levelled_closed lv h r : levelled lv h -> closed (fun x => lv r < lv x) h.
Proof.
  intros Hlev x Hx nd c Hl Hin.
  pose proof (proj1 (Hlev x nd Hl) c Hin). lia.
Qed.

Lemma levelled_kidsIn lv h r x :
  levelled lv h -> lv x = lv r -> kidsIn (fun y => lv r < lv y) h x.
Proof.
  intros Hlev Hx nd c Hl Hin.
  pose proof (proj1 (Hlev x nd Hl) c Hin). lia.
Qed.

(** X21. On a well-formed, levelled store [Union] returns, and the
    receiver then holds the effective content of the source if its own
    effective content was empty, and its own raw content untouched
    otherwise: what happens to the children never reaches the content of
    the receiver. *)
Theorem Union_receiver_content lv L (h : heap) r s ndr sds :
  good lv L h -> h !! r = Some ndr -> h !! s = Some sds -> lv r = lv s ->
  exists h' ndr',
    Union (S (L - lv s)) (Some r) (Some s) h = Ok (tt, h')
    /\ h' !! r = Some ndr'
    /\ Content ndr'
       = if Nat.eqb (len (GetContent ndr)) 0 then GetContent sds else Content ndr.
Proof.
  intros Hg Hr Hs Hlv.
  destruct (Union_total lv L (S (L - lv s)) h r s ndr sds Hg Hr Hs Hlv)
    as (h' & E & _ & _); [lia|].
  exists h'. pose proof E as E0. cbn [Union] in E0. inv_read E0 nd h0 Hnd.
  rewrite (deref_ok _ _ _ Hr) in Hnd. injection Hnd as <-.
  apply bind_inv in E0. destruct E0 as (u0 & h0 & Hfirst & E0).
  set (v := if Nat.eqb (len (GetContent ndr)) 0 then GetContent sds else Content ndr).
  assert (Eh0 : h0 = <[r := set_Content v ndr]> h).
  { unfold v. destruct (Nat.eqb (len (GetContent ndr)) 0).
    - inv_read Hfirst sd h2 Hsd. rewrite (deref_ok _ _ _ Hs) in Hsd.
      injection Hsd as <-. unfold SetContent in Hfirst. apply modify_inv in Hfirst.
      destruct Hfirst as (a & n & Ea & Ha & ->). injection Ea as <-.
      rewrite Hr in Ha. injection Ha as <-. reflexivity.
    - injection Hfirst as _ <-. symmetry. apply list_insert_id.
      rewrite Hr. destruct ndr; reflexivity. }
  subst h0.
  set (h0 := <[r := set_Content v ndr]> h) in *.
  assert (Hg0 : good lv L h0) by (apply good_set_Content; assumption).
  assert (Hr0 : h0 !! r = Some (set_Content v ndr)).
  { apply list_lookup_insert_eq. eapply lookup_lt_Some; exact Hr. }
  inv_read E0 sd0 h1 Hsd0.
  apply deref_inv in Hsd0. destruct Hsd0 as (a & Ea & Hsd0). injection Ea as <-.
  destruct Hg0 as (_ & Hlev0 & _).
  set (W := fun x => lv r < lv x).
  assert (Hst : stable W h0 h').
  { apply (Union_loop_stable W (L - lv s) r (elems (Children sd0))
             (Union_frame W (L - lv s))) with (u := tt).
    - intros c Hin. unfold W. rewrite Hlv.
      pose proof (proj1 (Hlev0 s sd0 Hsd0) c Hin). lia.
    - apply levelled_closed. exact Hlev0.
    - apply levelled_kidsIn; [exact Hlev0|reflexivity].
    - exact E0. }
  destruct Hst as [_ Hst].
  destruct (Hst r _ Hr0) as (ndr' & Hr' & _ & Hc).
  exists ndr'. split; [exact E|]. split; [exact Hr'|].
  rewrite Hc by (unfold W; lia). reflexivity.
Qed.

Lemma Union_receiver_content_witness :
  exists h' ndr',
    Union 3 (Some 0) (Some 4) unionStore = Ok (tt, h')
    /\ h' !! 0 = Some ndr' /\ Content ndr' = "".
Proof.
  exact (Union_receiver_content (fun a => nth a [0; 1; 2; 1; 0; 1; 1; 2] 0) 2
           unionStore 0 4
           (mkNode None "base" noName [] "" (Some [Some 1; Some 3]))
           (mkNode None "src" noName [] "" (Some [Some 5; Some 6]))
           unionStore_good eq_refl eq_refl eq_refl).
Defined.

(** X22. On a well-formed, levelled store [Merge] returns, and the
    receiver then holds the raw content of the subtemplate if its own raw
    content was empty, and its own raw content untouched otherwise: what
    happens to the children never reaches the content of the receiver. *)
Theorem Merge_receiver_content lv L skipOverwrite (h : heap) r s ndr sds :
  good lv L h -> h !! r = Some ndr -> h !! s = Some sds -> lv r = lv s ->
  exists h' ndr',
    Merge (S (L - lv s)) (Some r) (Some s) skipOverwrite h = Ok (tt, h')
    /\ h' !! r = Some ndr'
    /\ Content ndr'
       = if Nat.eqb (len (Content ndr)) 0 then Content sds else Content ndr.
Proof.
  intros Hg Hr Hs Hlv.
  destruct (Merge_total lv L skipOverwrite (S (L - lv s)) h r s ndr sds Hg Hr Hs Hlv)
    as (h' & E & _ & _); [lia|].
  exists h'. pose proof E as E0. cbn [Merge] in E0. inv_read E0 nd h0 Hnd.
  rewrite (deref_ok _ _ _ Hr) in Hnd. injection Hnd as <-.
  apply bind_inv in E0. destruct E0 as (u0 & h0 & Hfirst & E0).
  set (v := if Nat.eqb (len (Content ndr)) 0 then Content sds else Content ndr).
  assert (Eh0 : h0 = <[r := set_Content v ndr]> h).
  { unfold v. destruct (Nat.eqb (len (Content ndr)) 0).
    - inv_read Hfirst sd h2 Hsd. rewrite (deref_ok _ _ _ Hs) in Hsd.
      injection Hsd as <-. apply modify_inv in Hfirst.
      destruct Hfirst as (a & n & Ea & Ha & ->). injection Ea as <-.
      rewrite Hr in Ha. injection Ha as <-. reflexivity.
    - injection Hfirst as _ <-. symmetry. apply list_insert_id.
      rewrite Hr. destruct ndr; reflexivity. }
  subst h0.
  set (h0 := <[r := set_Content v ndr]> h) in *.
  assert (Hg0 : good lv L h0) by (apply good_set_Content; assumption).
  assert (Hr0 : h0 !! r = Some (set_Content v ndr)).
  { apply list_lookup_insert_eq. eapply lookup_lt_Some; exact Hr. }
  inv_read E0 sd0 h1 Hsd0.
  apply deref_inv in Hsd0. destruct Hsd0 as (a & Ea & Hsd0). injection Ea as <-.
  destruct Hg0 as (_ & Hlev0 & _).
  set (W := fun x => lv r < lv x).
  assert (Hst : stable W h0 h').
  { apply (Merge_loop_stable W skipOverwrite (L - lv s) r (elems (Children sd0))
             (Merge_confined W skipOverwrite (L - lv s))) with (u := tt).
    - intros c Hin. unfold W. rewrite Hlv.
      pose proof (proj1 (Hlev0 s sd0 Hsd0) c Hin). lia.
    - apply levelled_closed. exact Hlev0.
    - apply levelled_kidsIn; [exact Hlev0|reflexivity].
    - exact E0. }
  destruct Hst as [_ Hst].
  destruct (Hst r _ Hr0) as (ndr' & Hr' & _ & Hc).
  exists ndr'. split; [exact E|]. split; [exact Hr'|].
  rewrite Hc by (unfold W; lia). reflexivity.
Qed.

Lemma Merge_receiver_content_witness :
  exists h' ndr',
    Merge 3 (Some 0) (Some 3) ["labels"] labelsStore = Ok (tt, h')
    /\ h' !! 0 = Some ndr' /\ Content ndr' = "".
Proof.
  exact (Merge_receiver_content (fun a => nth a [0; 1; 2; 0; 1; 2] 0) 2 ["labels"]
           labelsStore 0 3
           (mkNode None "defaults" noName [] "" (Some [Some 1]))
           (mkNode None "custom" noName [] "" (Some [Some 4]))
           labelsStore_good eq_refl eq_refl eq_refl).
Defined.


(** ** [NewChild] does not look for an existing child *)

Lemma findFirst_app_hit key h l1 l2 v c :
  findFirst key h l1 v = Ok (Some c) ->
  findFirst key h (l1 ++ l2) v = Ok (Some c).
Proof.
  induction l1 as [|p r IH]; cbn [findFirst app]; [discriminate|].
  destruct (deref h p) as [cn| |]; cbn [rbind]; try discriminate.
  destruct (String.eqb (key cn) v); [auto|exact IH].
Qed.

(** X23. [NewChildS] always allocates a node and appends it to the
    children, whether or not a child of that name exists: afterwards
    [GetChildS] of that name still returns the earlier child when there
    was one (the new node is shadowed), and the new node otherwise. *)
Theorem NewChildS_then_GetChildS (h : heap) a nd nm content :
  h !! a = Some nd -> Forall (valid h) (elems (Children nd)) ->
  exists h' before,
    NewChildS (Some a) nm content h = Ok (Some (length h), h')
    /\ length h' = S (length h)
    /\ h' !! length h = Some (freshChild nd a nm content)
    /\ GetChildS h (Some a) nm = Ok before
    /\ GetChildS h' (Some a) nm
       = Ok (match before with Some c => Some c | None => Some (length h) end).
Proof.
  intros Ha Hv. pose proof (lookup_lt_Some _ _ _ Ha) as Hlt.
  destruct (findFirst_valid GetNameS h _ nm Hv) as (res & E & _ & _).
  set (nd' := set_Children (append (Children nd) (Some (length h))) nd).
  set (fc := freshChild nd a nm content).
  set (h' := <[a := nd']> (h ++ [fc])).
  assert (Hlook : h' !! a = Some nd').
  { apply list_lookup_insert_eq. rewrite length_app. simpl. lia. }
  assert (Hnew : h' !! length h = Some fc).
  { unfold h'. rewrite list_lookup_insert_ne by lia.
    apply list_lookup_middle. reflexivity. }
  assert (Hold : findFirst GetNameS h' (elems (Children nd)) nm = Ok res).
  { rewrite (findFirst_agree GetNameS h h'); [exact E|].
    eapply Forall_impl; [exact Hv|]. intros p Hp.
    destruct (valid_deref _ _ Hp) as (cn & Hcn). exists cn.
    apply deref_inv in Hcn. destruct Hcn as (x & -> & Hx).
    destruct (deref_insert_key GetNameS (h ++ [fc]) a nd nd' (Some x) cn)
      as (cn' & H1 & H2).
    - apply lookup_app_l_Some. exact Ha.
    - reflexivity.
    - apply deref_ok. apply lookup_app_l_Some. exact Hx.
    - exists cn'. split; [apply deref_ok; exact Hx|]. split; assumption. }
  exists h', res. split; [|split; [|split; [exact Hnew|split]]].
  - unfold NewChildS. apply NewChild_ok. exact Ha.
  - unfold h'. rewrite length_insert, length_app. simpl. lia.
  - unfold GetChildS. rewrite (deref_ok _ _ _ Ha). exact E.
  - unfold GetChildS. rewrite (deref_ok _ _ _ Hlook). cbn [rbind].
    unfold nd' at 1. cbn [Children set_Children append elems].
    destruct res as [c|].
    + apply findFirst_app_hit. exact Hold.
    + rewrite (findFirst_app _ _ _ _ _ Hold). cbn [findFirst].
      rewrite (deref_ok _ _ _ Hnew). cbn [rbind].
      unfold fc. rewrite freshChild_name, String.eqb_refl. reflexivity.
Qed.

Lemma NewChildS_then_GetChildS_witness :
  exists h' before,
    NewChildS (Some 0) "size" "20" attrStore = Ok (Some 3, h')
    /\ length h' = 4
    /\ h' !! 3 = Some (mkNode (Some 0) "" (mkName "" "size") [] "20" None)
    /\ GetChildS attrStore (Some 0) "size" = Ok before
    /\ GetChildS h' (Some 0) "size"
       = Ok (match before with Some c => Some c | None => Some 3 end).
Proof.
  apply (NewChildS_then_GetChildS attrStore 0
           (mkNode None "" (mkName "" "volume")
              [mkAttr (mkName "" "unit") "ms"; mkAttr (mkName "" "unit") "s"] ""
              (Some [Some 1; Some 2])) "size" "20" eq_refl).
  repeat constructor; eexists _, _; split; reflexivity.
Defined.


(** ** What [PreprocessTemplate] can change *)

Lemma demotion_refl h : demotion h h.
Proof.
  split; [lia|]. split.
  - intros x nd Hx. exists nd. repeat split; auto.
    exists []. rewrite app_nil_r. reflexivity.
  - intros x nd' Hle Hx. apply lookup_lt_Some in Hx. lia.
Qed.

Lemma demotion_trans h1 h2 h3 : demotion h1 h2 -> demotion h2 h3 -> demotion h1 h3.
Proof.
  intros (L12 & O12 & N12) (L23 & O23 & N23). split; [lia|]. split.
  - intros x nd Hx.
    destruct (O12 x nd Hx) as (nd2 & Hx2 & A2 & B2 & C2 & D2 & (m2 & K2) & E2 & F2).
    destruct (O23 x nd2 Hx2) as (nd3 & Hx3 & A3 & B3 & C3 & D3 & (m3 & K3) & E3 & F3).
    exists nd3. split; [exact Hx3|]. repeat split; try congruence.
    + exists (m2 ++ m3). rewrite K3, K2, app_assoc. reflexivity.
    + destruct E3 as [E3|E3]; [|right; exact E3].
      destruct E2 as [E2|E2]; [left|right]; congruence.
    + intros Hn. rewrite F3; [apply F2; exact Hn|].
      rewrite (F2 Hn). exact Hn.
  - intros x nd3 Hle Hx3. destruct (decide (x < length h2)) as [Hlt|Hge].
    + destruct (lookup_lt_is_Some_2 h2 x Hlt) as [nd2 Hx2].
      destruct (N12 x nd2 Hle Hx2) as (Hn & Hk & Ha).
      destruct (O23 x nd2 Hx2) as (nd3' & Hx3' & _ & _ & _ & _ & _ & _ & F3).
      rewrite Hx3 in Hx3'. injection Hx3' as <-. rewrite (F3 Hn). auto.
    + apply (N23 x nd3); [lia|exact Hx3].
Qed.

(** The demotion step on a named node. *)
Lemma demoted_demotion (h : heap) m md content :
  h !! m = Some md -> GetName md <> "" ->
  demotion h (demoted h m md content).
Proof.
  intros Hm Hne. pose proof (lookup_lt_Some _ _ _ Hm) as Hlt. unfold demoted.
  split; [rewrite length_insert, length_app; simpl; lia|]. split.
  - intros x nd Hx. destruct (decide (x = m)) as [->|Hxm].
    + rewrite Hm in Hx. injection Hx as <-.
      eexists. split.
      { apply list_lookup_insert_eq. rewrite length_app. simpl. lia. }
      repeat split; auto.
      * exists [Some (length h)]. reflexivity.
      * intros Hn. contradiction.
    + exists nd. split.
      { rewrite list_lookup_insert_ne by congruence. apply lookup_app_l_Some. exact Hx. }
      repeat split; auto. exists []. rewrite app_nil_r. reflexivity.
  - intros x nd' Hle Hx.
    rewrite list_lookup_insert_ne in Hx by lia.
    rewrite lookup_app_r in Hx by lia.
    destruct (x - length h) as [|k] eqn:Ek; cbn in Hx; [|discriminate].
    injection Hx as <-. repeat split; reflexivity.
Qed.

Lemma demote_demotion fuel (h : heap) m child u h1 md :
  h !! m = Some md -> GetName md <> "" ->
  demote fuel (Some m) child h = Ok (u, h1) -> demotion h h1.
Proof.
  intros Hm Hne E. unfold demote in E. inv_read E anc h0 Hanc.
  destruct (isNil anc).
  { injection E as _ <-. apply demotion_refl. }
  inv_read E md0 h0 Hmd. rewrite (deref_ok _ _ _ Hm) in Hmd. injection Hmd as <-.
  destruct (Nat.ltb 0 (len (GetContentS md))).
  2:{ injection E as _ <-. apply demotion_refl. }
  inv_read E cd h0 Hcd.
  apply bind_inv in E. destruct E as (c & h2 & Enew & E).
  rewrite (NewChildS_ok h m md (GetContentS cd) Hm) in Enew.
  injection Enew as <- <-.
  unfold SetContentS, SetContent in E. apply modify_inv in E.
  destruct E as (a & n & Ea & Ha & ->). injection Ea as <-.
  rewrite list_lookup_insert_eq in Ha by (rewrite length_app; simpl;
    apply lookup_lt_Some in Hm; lia).
  injection Ha as <-. rewrite list_insert_insert_eq.
  apply (demoted_demotion h m md (GetContentS cd) Hm Hne).
Qed.

Lemma PreprocessChild_demotion f rec n child :
  (forall m h u h1, rec m h = Ok (u, h1) -> demotion h h1) ->
  forall (h : heap) u h1,
    PreprocessChild f rec n child h = Ok (u, h1) -> demotion h h1.
Proof.
  intros Hrec h u h1 E.
  unfold PreprocessChild in E. inv_read E cn h2 Hcn. inv_read E mine h2 Hmine.
  destruct (negb (isNil mine) && Nat.ltb 0 (len (GetName cn))) eqn:Eg.
  - apply andb_prop in Eg. destruct Eg as [Eg1 Eg2].
    destruct mine as [m|]; [|discriminate].
    unfold GetChild in Hmine.
    destruct (deref h n) as [ndn| |]; cbn [rbind] in Hmine; try discriminate.
    destruct (findFirst_found _ _ _ _ _ Hmine) as (_ & md & Hm & Hname).
    assert (Hne : GetName md <> "").
    { rewrite Hname. apply Nat.ltb_lt in Eg2. unfold len in Eg2.
      intros Hz. rewrite Hz in Eg2. cbn in Eg2. lia. }
    apply bind_inv in E. destruct E as (u1 & h3 & Ed & E).
    apply (demotion_trans h h3 h1).
    + eapply demote_demotion; eassumption.
    + eapply Hrec. exact E.
  - injection E as _ <-. apply demotion_refl.
Qed.

Lemma forM_demotion {A} (body : A -> M unit) xs :
  (forall x h u h1, body x h = Ok (u, h1) -> demotion h h1) ->
  forall h u h1, forM xs body h = Ok (u, h1) -> demotion h h1.
Proof.
  intros Hb. induction xs as [|x r IH]; intros h u h1 E; cbn [forM] in E.
  - injection E as _ <-. apply demotion_refl.
  - apply bind_inv in E. destruct E as (u0 & h0 & E0 & E).
    eapply demotion_trans; [eapply Hb; exact E0|]. eapply IH. exact E.
Qed.

Lemma PreprocessTemplate_demotion fuel :
  forall n (h : heap) u h1,
    PreprocessTemplate fuel n h = Ok (u, h1) -> demotion h h1.
Proof.
  induction fuel as [|f IH]; intros n h u h1 E; [discriminate|].
  cbn [PreprocessTemplate] in E. inv_read E nd h0 Hnd.
  eapply forM_demotion; [|exact E].
  intros x h2 u2 h3. apply PreprocessChild_demotion. exact IH.
Qed.

(** X24. Whenever [PreprocessTemplate] returns, every node that was in
    the store keeps its names, attributes and parent link, its child list
    is the former one with children added at the end, and its content is
    unchanged or has become empty; anonymous nodes are untouched, and
    every node created is an anonymous leaf without attributes. *)
Theorem PreprocessTemplate_only_demotes fuel n (h : heap) h' :
  PreprocessTemplate fuel n h = Ok (tt, h') -> demotion h h'.
Proof. apply PreprocessTemplate_demotion. Qed.

Lemma PreprocessTemplate_only_demotes_witness :
  exists h', PreprocessTemplate 4 (Some 0) labelStore = Ok (tt, h')
             /\ demotion labelStore h'.
Proof.
  eexists. split; [vm_compute; reflexivity|].
  apply (PreprocessTemplate_only_demotes 4 (Some 0)). vm_compute. reflexivity.
Defined.


(** ** [PreprocessTemplate] returns on well-formed, levelled stores *)

Lemma ancestry_exists lv h s :
  wfHeap h -> levelled lv h ->
  forall n a nd, lv a <= n -> h !! a = Some nd ->
    exists b k, ancestry h s a b k /\ k <= S (lv a).
Proof.
  intros Hwf Hlev. induction n as [|n IH]; intros a nd Hle Ha.
  - destruct (parent nd) as [pa|] eqn:Hp.
    + pose proof (proj2 (Hlev a nd Ha) pa Hp). lia.
    + exists false, 1. split; [eapply ancestry_root; eassumption|lia].
  - destruct (parent nd) as [pa|] eqn:Hp.
    + pose proof (proj2 (Hlev a nd Ha) pa Hp) as Hl.
      destruct (Hwf a nd Ha) as [_ [Hnone|(pa' & pd & Epa & Hpa)]]; [congruence|].
      rewrite Hp in Epa. injection Epa as <-.
      destruct (String.eqb (GetNameS pd) s) eqn:En.
      * apply String.eqb_eq in En. exists true, 1.
        split; [eapply ancestry_hit; eassumption|lia].
      * apply String.eqb_neq in En.
        destruct (IH pa pd) as (b & k & Hanc & Hk); [lia|exact Hpa|].
        exists b, (S k). split; [eapply ancestry_up; eassumption|lia].
    + exists false, 1. split; [eapply ancestry_root; eassumption|lia].
Qed.

Lemma valid_longer (h h' : heap) p : length h <= length h' -> valid h p -> valid h' p.
Proof.
  intros Hl (a & nd & -> & Ha).
  assert (Hlt : a < length h') by (apply lookup_lt_Some in Ha; lia).
  destruct (lookup_lt_is_Some_2 h' a Hlt) as [nd' Hnd']. exists a, nd'. auto.
Qed.

Lemma demoted_lookup (h : heap) m md content x nd' :
  h !! m = Some md ->
  demoted h m md content !! x = Some nd' ->
  (x = m /\ nd' = set_Content "" (set_Children (append (Children md) (Some (length h))) md))
  \/ (x = length h /\ x <> m /\ nd' = mkNode (Some m) "" noName [] content None)
  \/ (x <> m /\ x < length h /\ h !! x = Some nd').
Proof.
  intros Hm Hx. pose proof (lookup_lt_Some _ _ _ Hm) as Hlt. unfold demoted in Hx.
  destruct (decide (x = m)) as [->|Hne].
  - rewrite list_lookup_insert_eq in Hx by (rewrite length_app; simpl; lia).
    injection Hx as <-. left. auto.
  - rewrite list_lookup_insert_ne in Hx by congruence.
    destruct (decide (x < length h)) as [Hxl|Hxl].
    + rewrite lookup_app_l in Hx by exact Hxl. right. right. auto.
    + rewrite lookup_app_r in Hx by lia.
      destruct (x - length h) as [|k] eqn:Ek; cbn in Hx; [|discriminate].
      injection Hx as <-. right. left. split; [lia|]. auto.
Qed.

Lemma tidy_demoted lv L (h : heap) m md content :
  tidy lv L h -> h !! m = Some md ->
  tidy (relevel lv (length h) m) L (demoted h m md content).
Proof.
  intros (Hwf & Hlev & Hb) Hm. pose proof (lookup_lt_Some _ _ _ Hm) as Hlt.
  assert (Hlen : length h <= length (demoted h m md content)).
  { unfold demoted. rewrite length_insert, length_app. simpl. lia. }
  assert (Hnewv : valid (demoted h m md content) (Some (length h))).
  { exists (length h), (mkNode (Some m) "" noName [] content None).
    split; [reflexivity|]. unfold demoted.
    rewrite list_lookup_insert_ne by lia. apply list_lookup_middle. reflexivity. }
  assert (Hold : forall y, y < length h -> relevel lv (length h) m y = lv y).
  { intros y Hy. unfold relevel.
    destruct (Nat.eqb y (length h)) eqn:E; [apply Nat.eqb_eq in E; lia|reflexivity]. }
  assert (Hnew : relevel lv (length h) m (length h) = S (lv m)).
  { unfold relevel. rewrite Nat.eqb_refl. reflexivity. }
  assert (Hkid : forall y ndy c, h !! y = Some ndy ->
            In (Some c) (elems (Children ndy)) -> c < length h).
  { intros y ndy c Hy Hin. destruct (Hwf y ndy Hy) as [Hv _].
    rewrite Forall_forall in Hv.
    destruct (Hv (Some c) (proj2 (list_elem_of_In _ _) Hin)) as (c' & cn & Ec & Hc).
    injection Ec as <-. eapply lookup_lt_Some; exact Hc. }
  assert (Hpar : forall y ndy p, h !! y = Some ndy -> parent ndy = Some p -> p < length h).
  { intros y ndy p Hy Hp. destruct (Hwf y ndy Hy) as [_ [Hn|(p' & pd & Ep & Hpd)]];
      [congruence|]. rewrite Hp in Ep. injection Ep as <-.
    eapply lookup_lt_Some; exact Hpd. }
  split; [|split].
  - intros x nd' Hx.
    destruct (demoted_lookup h m md content x nd' Hm Hx)
      as [(-> & ->)|[(-> & _ & ->)|(Hne & Hxl & Hx0)]].
    + destruct (Hwf m md Hm) as [Hv Hp]. split.
      * cbn. apply Forall_app. split.
        -- eapply Forall_impl; [exact Hv|]. intros p. apply valid_longer. exact Hlen.
        -- constructor; [exact Hnewv|constructor].
      * cbn. destruct Hp as [Hp|Hp]; [left; exact Hp|right].
        apply (valid_longer h); assumption.
    + split; [constructor|]. right. cbn.
      apply (valid_longer h); [exact Hlen|]. exists m, md. auto.
    + destruct (Hwf x nd' Hx0) as [Hv Hp]. split.
      * eapply Forall_impl; [exact Hv|]. intros p. apply valid_longer. exact Hlen.
      * destruct Hp as [Hp|Hp]; [left; exact Hp|right].
        apply (valid_longer h); assumption.
  - intros x nd' Hx.
    destruct (demoted_lookup h m md content x nd' Hm Hx)
      as [(-> & ->)|[(-> & _ & ->)|(Hne & Hxl & Hx0)]].
    + destruct (Hlev m md Hm) as [Hk Hp]. rewrite (Hold m Hlt). split.
      * intros c Hin. cbn in Hin. apply in_app_or in Hin.
        destruct Hin as [Hin|[Hin|[]]].
        -- rewrite (Hold c (Hkid m md c Hm Hin)). apply Hk. exact Hin.
        -- injection Hin as <-. exact Hnew.
      * intros p Hp'. cbn in Hp'. rewrite (Hold p (Hpar m md p Hm Hp')).
        apply Hp. exact Hp'.
    + split; [intros c []|].
      intros p Hp. cbn in Hp. injection Hp as <-.
      rewrite Hnew, (Hold m Hlt). reflexivity.
    + destruct (Hlev x nd' Hx0) as [Hk Hp]. rewrite (Hold x Hxl). split.
      * intros c Hin. rewrite (Hold c (Hkid x nd' c Hx0 Hin)). apply Hk. exact Hin.
      * intros p Hp'. rewrite (Hold p (Hpar x nd' p Hx0 Hp')). apply Hp. exact Hp'.
  - intros x nd' Hx Hn.
    destruct (demoted_lookup h m md content x nd' Hm Hx)
      as [(-> & ->)|[(-> & _ & ->)|(Hne & Hxl & Hx0)]].
    + rewrite (Hold m Hlt). apply (Hb m md Hm). exact Hn.
    + exfalso. apply Hn. reflexivity.
    + rewrite (Hold x Hxl). apply (Hb x nd' Hx0). exact Hn.
Qed.

Section PreprocessTotal.
Variable L : nat.

Lemma demote_total lv fuel (h : heap) m md child cn :
  tidy lv L h -> h !! m = Some md -> deref h child = Ok cn ->
  S (lv m) <= fuel ->
  exists h1 lv1,
    demote fuel (Some m) child h = Ok (tt, h1)
    /\ tidy lv1 L h1 /\ length h <= length h1
    /\ (forall x, x < length h -> lv1 x = lv x).
Proof.
  intros Ht Hm Hc Hfuel. pose proof Ht as (Hwf & Hlev & _).
  destruct (ancestry_exists lv h sentinel Hwf Hlev (lv m) m md (le_n _) Hm)
    as (b & k & Hanc & Hk).
  rewrite (demote_ok fuel h m md child cn b k Hm Hc Hanc) by lia.
  destruct (b && negb (String.eqb (Content md) "")).
  - exists (demoted h m md (Content cn)), (relevel lv (length h) m).
    split; [reflexivity|]. split; [apply tidy_demoted; assumption|]. split.
    + unfold demoted. rewrite length_insert, length_app. simpl. lia.
    + intros x Hx. unfold relevel.
      destruct (Nat.eqb x (length h)) eqn:E; [apply Nat.eqb_eq in E; lia|reflexivity].
  - exists h, lv. auto.
Qed.

Lemma PreprocessChild_total lv f (h : heap) n c ndn cn :
  preprocessTotal L f ->
  tidy lv L h -> h !! n = Some ndn -> h !! c = Some cn ->
  L + (L - lv n) + 2 <= S f ->
  exists h1 lv1,
    PreprocessChild f (PreprocessTemplate f) (Some n) (Some c) h = Ok (tt, h1)
    /\ tidy lv1 L h1 /\ length h <= length h1
    /\ (forall x, x < length h -> lv1 x = lv x).
Proof.
  intros IHf Ht Hn Hc Hfuel. pose proof Ht as (Hwf & Hlev & Hb).
  pose proof (proj1 (Hwf n ndn Hn)) as Hvk.
  destruct (findFirst_valid GetName h _ (GetName cn) Hvk) as (mine & Emine & _ & Hmine).
  assert (Eget : GetChild h (Some n) (GetName cn) = Ok mine).
  { unfold GetChild. rewrite (deref_ok _ _ _ Hn). exact Emine. }
  unfold PreprocessChild.
  erewrite bind_ok; [|apply read_ok, deref_ok; exact Hc].
  erewrite bind_ok; [|apply read_ok; exact Eget].
  destruct (negb (isNil mine) && Nat.ltb 0 (len (GetName cn))) eqn:Eg.
  2:{ exists h, lv. auto. }
  apply andb_prop in Eg. destruct Eg as [Eg1 Eg2].
  destruct mine as [m|]; [|discriminate].
  destruct (Hmine m eq_refl) as (Hin & md & Hm & Hname).
  assert (Hne : GetName md <> "").
  { rewrite Hname. apply Nat.ltb_lt in Eg2. unfold len in Eg2.
    intros Hz. rewrite Hz in Eg2. cbn in Eg2. lia. }
  pose proof (proj1 (Hlev n ndn Hn) m Hin) as Hlm.
  pose proof (Hb m md Hm Hne) as Hbm.
  destruct (demote_total lv f h m md (Some c) cn Ht Hm (deref_ok _ _ _ Hc))
    as (h1 & lv1 & E1 & Ht1 & Hl1 & Hag1); [lia|].
  assert (Hm1 : exists md1, h1 !! m = Some md1).
  { apply lookup_lt_is_Some_2. apply lookup_lt_Some in Hm. lia. }
  destruct Hm1 as (md1 & Hm1).
  assert (Hlvm : lv1 m = lv m) by (apply Hag1; eapply lookup_lt_Some; exact Hm).
  destruct (IHf lv1 h1 m md1 Ht1 Hm1) as (h2 & lv2 & E2 & Ht2 & Hl2 & Hag2); [lia|].
  exists h2, lv2. split; [|split; [exact Ht2|split; [lia|]]].
  - erewrite bind_ok; [|exact E1]. exact E2.
  - intros x Hx. rewrite Hag2 by lia. apply Hag1. exact Hx.
Qed.

Lemma PreprocessTemplate_loop_total f n cs :
  preprocessTotal L f ->
  forall lv (h : heap) ndn,
    tidy lv L h -> h !! n = Some ndn -> Forall (valid h) cs ->
    L + (L - lv n) + 2 <= S f ->
    exists h' lv',
      forM cs (PreprocessChild f (PreprocessTemplate f) (Some n)) h = Ok (tt, h')
      /\ tidy lv' L h' /\ length h <= length h'
      /\ (forall x, x < length h -> lv' x = lv x).
Proof.
  intros IHf. induction cs as [|p cs IH]; intros lv h ndn Ht Hn Hval Hfuel.
  - exists h, lv. cbn. auto.
  - inversion Hval as [|? ? (c & cn & Ec & Hc) Hval']; subst.
    destruct (PreprocessChild_total lv f h n c ndn cn IHf Ht Hn Hc Hfuel)
      as (h1 & lv1 & E1 & Ht1 & Hl1 & Hag1).
    assert (Hn1 : exists ndn1, h1 !! n = Some ndn1).
    { apply lookup_lt_is_Some_2. apply lookup_lt_Some in Hn. lia. }
    destruct Hn1 as (ndn1 & Hn1).
    assert (Hlvn : lv1 n = lv n) by (apply Hag1; eapply lookup_lt_Some; exact Hn).
    destruct (IH lv1 h1 ndn1 Ht1 Hn1) as (h' & lv' & E' & Ht' & Hl' & Hag').
    { eapply Forall_impl; [exact Hval'|]. intros q. apply valid_longer. exact Hl1. }
    { lia. }
    exists h', lv'. split; [|split; [exact Ht'|split; [lia|]]].
    + cbn [forM]. erewrite bind_ok; [|exact E1]. exact E'.
    + intros x Hx. rewrite Hag' by lia. apply Hag1. exact Hx.
Qed.

Lemma PreprocessTemplate_total f : preprocessTotal L f.
Proof.
  induction f as [|f IHf]; intros lv h n nd Ht Hn Hfuel; [lia|].
  pose proof Ht as (Hwf & _).
  destruct (PreprocessTemplate_loop_total f n (elems (Children nd)) IHf lv h nd Ht Hn)
    as (h' & lv' & E & Ht' & Hl & Hag); [exact (proj1 (Hwf n nd Hn))|exact Hfuel|].
  exists h', lv'. split; [|auto].
  cbn [PreprocessTemplate].
  erewrite bind_ok; [|apply read_ok, deref_ok; exact Hn]. exact E.
Qed.
End PreprocessTotal.

Lemma labelStore_tidy : tidy (fun a => nth a [0; 1; 1; 1; 2] 0) 2 labelStore.
Proof.
  split; [|split]; intros x nd Hx;
    repeat (destruct x as [|x]; [injection Hx as <-|]); try discriminate Hx.
  all: try (split; [repeat constructor; eexists _, _; split; reflexivity
                   |first [left; reflexivity
                          |right; eexists _, _; split; reflexivity]]).
  all: try (split; [intros c Hin; simpl in Hin;
                    repeat (destruct Hin as [Hin|Hin];
                            [injection Hin as <-; reflexivity|]);
                    contradiction
                   |intros q Hq; simpl in Hq;
                    first [discriminate Hq|injection Hq as <-; reflexivity]]).
  all: intros _; simpl; lia.
Qed.

(** X25. On a well-formed, levelled store in which no named node lies
    below level [L], [PreprocessTemplate] returns for every node of the
    store, given fuel [2 * L + 2]: it neither panics nor recurses without
    end, the store it leaves contains the old addresses and is again
    well-formed and levelled, with the old nodes on their old levels. *)
Theorem PreprocessTemplate_returns lv L (h : heap) n nd :
  tidy lv L h -> h !! n = Some nd ->
  exists h' lv',
    PreprocessTemplate (2 * L + 2) (Some n) h = Ok (tt, h')
    /\ tidy lv' L h' /\ length h <= length h'
    /\ (forall x, x < length h -> lv' x = lv x).
Proof.
  intros Ht Hn. apply (PreprocessTemplate_total L (2 * L + 2) lv h n nd Ht Hn). lia.
Qed.

Lemma PreprocessTemplate_returns_witness :
  exists h' lv',
    PreprocessTemplate 6 (Some 0) labelStore = Ok (tt, h')
    /\ tidy lv' 2 h' /\ 5 <= length h'
    /\ (forall x, x < 5 -> lv' x = nth x [0; 1; 1; 1; 2] 0).
Proof.
  exact (PreprocessTemplate_returns (fun a => nth a [0; 1; 1; 1; 2] 0) 2 labelStore 0
           (mkNode None "LabelAgent" noName [] "" (Some [Some 1; Some 2; Some 3]))
           labelStore_tidy eq_refl).
Defined.
